(** * pokequiz backend: dataset, quiz engine and progress tracker

    A shallow embedding of [pokemon-quiz-backend/main.go].  Handlers are
    functions from the request and the stores they read (the dataset, the
    category index, the user-stat table) to a response and the stores they
    leave behind.  Everything outside the process is an explicit argument:
    the PokeAPI provider, the cache file, the entropy behind [crypto/rand],
    and the order in which the Go runtime enumerates a map.  The database
    and the random reader are taken to serve every call: the error returns
    of [gorm] and of [rand.Int] are not modelled. *)

From Stdlib Require Import ZArith QArith Ascii.
From stdpp Require Import gmap strings list fin_maps.

Local Open Scope string_scope.
Local Open Scope list_scope.
Local Open Scope Z_scope.

(** ** Go's [int] on the 64-bit Linux target the Dockerfile builds for *)

Module Int.
Definition MinInt : Z := - 2 ^ 63.
Definition MaxInt : Z := 2 ^ 63 - 1.

Definition InRange (z : Z) : Prop := MinInt ≤ z ≤ MaxInt.

Definition inRange (z : Z) : bool := (MinInt <=? z) && (z <=? MaxInt).

(** Two's-complement wrap-around of an arithmetic result. *)
Definition wrap (z : Z) : Z := (z + 2 ^ 63) mod 2 ^ 64 - 2 ^ 63.

Definition add (x y : Z) : Z := wrap (x + y).

(** [x++] *)
Definition incr (x : Z) : Z := add x 1.
End Int.

(** ** The parts of Go's [strings] and [strconv] packages the code calls *)

Module Strings.
Fixpoint Contains (s substr : string) : bool :=
  String.prefix substr s ||
  match s with
  | EmptyString => false
  | String _ s' => Contains s' substr
  end.

Definition HasSuffix (s suffix : string) : bool :=
  (String.length suffix <=? String.length s)%nat &&
  String.eqb
    (String.substring (String.length s - String.length suffix) (String.length suffix) s)
    suffix.

Definition TrimSuffix (s suffix : string) : string :=
  if HasSuffix s suffix
  then String.substring 0 (String.length s - String.length suffix) s
  else s.

(** [strings.Split s sep] for a one-character separator: never empty. *)
Fixpoint Split (s : string) (sep : Ascii.ascii) : list string :=
  match s with
  | EmptyString => [EmptyString]
  | String c s' =>
      if Ascii.eqb c sep then EmptyString :: Split s' sep
      else match Split s' sep with
           | h :: t => String c h :: t
           | [] => [String c EmptyString]
           end
  end.

Definition digit (c : Ascii.ascii) : option Z :=
  let n := Z.of_N (Ascii.N_of_ascii c) in
  if (48 <=? n) && (n <=? 57) then Some (n - 48) else None.

Fixpoint digits (s : string) (acc : Z) : option Z :=
  match s with
  | EmptyString => Some acc
  | String c s' =>
      match digit c with
      | Some d => digits s' (10 * acc + d)
      | None => None
      end
  end.

(** [strconv.Atoi]: an optional sign, at least one decimal digit, and a
    value that fits an [int]; [None] is the error result. *)
Definition Atoi (s : string) : option Z :=
  let '(neg, body) :=
    match s with
    | String "-"%char r => (true, r)
    | String "+"%char r => (false, r)
    | _ => (false, s)
    end in
  match body with
  | EmptyString => None
  | _ =>
      match digits body 0 with
      | Some n =>
          let v := if neg then - n else n in
          if Int.inRange v then Some v else None
      | None => None
      end
  end.
End Strings.

(** ** Data model *)

Record PokemonStats := {
  HP : Z;
  Attack : Z;
  Defense : Z;
  SpAttack : Z;
  SpDefense : Z;
  Speed : Z
}.

(** [Height] and [Weight] are [float32] in the source.  The code compares
    them with zero and divides provider values by ten, nothing else, so they
    are carried as rationals. *)
Record Pokemon := {
  ID : Z;
  Name : string;
  EnglishName : string;
  Category : string;
  Stats : PokemonStats;
  ImageURL : string;
  Height : Q;
  Weight : Q;
  Types : list string
}.

Definition withCategory (p : Pokemon) (c : string) : Pokemon :=
  {| ID := ID p; Name := Name p; EnglishName := EnglishName p; Category := c;
     Stats := Stats p; ImageURL := ImageURL p; Height := Height p;
     Weight := Weight p; Types := Types p |}.

Definition withID (p : Pokemon) (i : Z) : Pokemon :=
  {| ID := i; Name := Name p; EnglishName := EnglishName p;
     Category := Category p; Stats := Stats p; ImageURL := ImageURL p;
     Height := Height p; Weight := Weight p; Types := Types p |}.

Record RegionalStatDetail := {
  Total : Z;
  Correct : Z
}.

(** The zero value a Go map read yields for an absent key. *)
Definition zeroDetail : RegionalStatDetail := {| Total := 0; Correct := 0 |}.

(** A text column that holds JSON, by what [encoding/json] makes of it:
    - [Blank]: the empty string;
    - [Null]: the text [null];
    - [Invalid partial]: a text [json.Unmarshal] returns an error for, after
      having stored [partial] into the destination (nothing on a syntax
      error, the well-typed elements on a type error);
    - [Json a]: a text that decodes without error to [a], such as the one
      [json.Marshal a] writes. *)
Inductive Column (A : Type) : Type :=
| Blank
| Null
| Invalid (partial : A)
| Json (a : A).
Arguments Blank {A}.
Arguments Null {A}.
Arguments Invalid {A} partial.
Arguments Json {A} a.

Record UserStat := {
  UserID : N;
  TotalQuestions : Z;
  TotalCorrect : Z;
  WrongAnswers : Column (list Z);
  RegionalStats : Column (gmap string RegionalStatDetail)
}.

(** [pokemonMapByID], [pokemonListByRegion] and the [user_stats] table. *)
Abbreviation Dataset := (gmap Z Pokemon).
Abbreviation CategoryIndex := (gmap string (list Pokemon)).
Abbreviation StatTable := (gmap N UserStat).

(** The dataset is keyed by record id: every write of the builder stores a
    record under its own [ID]. *)
Definition keyedByID (m : Dataset) : Prop :=
  ∀ k p, m !! k = Some p → ID p = k.

(** ** HTTP replies *)

Inductive Status :=
| StatusOK
| StatusBadRequest
| StatusUnauthorized
| StatusNotFound
| StatusInternalServerError.

(** [Reply] is [c.JSON(http.StatusOK, payload)], [Reject] is [c.JSON] with
    an error status and message, and [Panicked] is a run-time panic of the
    handler, which [gin.Recovery] turns into a bare 500. *)
Inductive Response (A : Type) : Type :=
| Reply (payload : A)
| Reject (code : Status) (error : string)
| Panicked.
Arguments Reply {A} payload.
Arguments Reject {A} code error.
Arguments Panicked {A}.

(** ** Randomness

    [rand.Int(rand.Reader, n)] returns a value in [0, n).  The entropy is a
    tape of naturals; a draw reduces the head modulo the bound, so every
    sequence of draws is the reading of some tape. *)

Abbreviation Entropy := (list nat).

Definition randInt (bound : nat) (r : Entropy) : nat * Entropy :=
  match r with
  | [] => (0%nat, [])
  | x :: r' => ((x mod bound)%nat, r')
  end.

(** ** Category index *)

Definition appendTo (idx : CategoryIndex) (c : string) (p : Pokemon) : CategoryIndex :=
  <[c := default [] (idx !! c) ++ [p]]> idx.

Definition organizeStep (idx : CategoryIndex) (p : Pokemon) : CategoryIndex :=
  let idx' := if decide (Category p = "") then idx else appendTo idx (Category p) p in
  appendTo idx' "all" p.

(** [organizePokemonByRegion], over the records in the order the runtime
    enumerates [pokemonMapByID]. *)
Definition organizePokemonByRegion (ps : list Pokemon) : CategoryIndex :=
  foldl organizeStep ∅ ps.

(** ** Quiz engine *)

Record QuizQuestion := {
  quiz_id : Z;
  quiz_stats : PokemonStats;
  quiz_options : list string;
  quiz_height : Q;
  quiz_weight : Q;
  quiz_types : list string
}.

(** [a[i], a[j] = a[j], a[i]]; both indices are in range at every call. *)
Definition swap {A} (l : list A) (i j : nat) : list A :=
  match l !! i, l !! j with
  | Some x, Some y => <[j:=x]> (<[i:=y]> l)
  | _, _ => l
  end.

(** The loop [for i := n; i > 0; i-- { j := rand(i+1); swap(i, j) }]. *)
Fixpoint shuffleDown {A} (i : nat) (l : list A) (r : Entropy) : list A * Entropy :=
  match i with
  | O => (l, r)
  | S i' =>
      let '(j, r') := randInt (S (S i')) r in
      shuffleDown i' (swap l (S i') j) r'
  end.

Definition shuffle {A} (l : list A) (r : Entropy) : list A * Entropy :=
  shuffleDown (length l - 1) l r.

(** [sendQuiz].  [make] with capacity [len(optionsPool)-1] panics on an empty
    pool. *)
Definition sendQuiz (pokemon : Pokemon) (optionsPool : list Pokemon) (r : Entropy)
  : Response QuizQuestion * Entropy :=
  match optionsPool with
  | [] => (Panicked, r)
  | _ =>
      let filteredOptionsPool := filter (λ p, ID p ≠ ID pokemon) optionsPool in
      let '(shuffled, r1) := shuffle filteredOptionsPool r in
      let options := Name pokemon :: (Name <$> take 3 shuffled) in
      let '(options', r2) := shuffle options r1 in
      (Reply {| quiz_id := ID pokemon; quiz_stats := Stats pokemon;
                quiz_options := options'; quiz_height := Height pokemon;
                quiz_weight := Weight pokemon; quiz_types := Types pokemon |}, r2)
  end.

(** A [/quiz] request: the two query parameters as sent, and the user id of
    a valid bearer token if the request carries one. *)
Record QuizRequest := {
  req_region : option string;
  req_retry : option string;
  req_user : option N
}.

(** The row [FirstOrCreate] inserts: zero counters, an empty [WrongAnswers]
    and the column default for [RegionalStats]. *)
Definition newUserStat (uid : N) : UserStat :=
  {| UserID := uid; TotalQuestions := 0; TotalCorrect := 0;
     WrongAnswers := Blank; RegionalStats := Json ∅ |}.

(** [db.FirstOrCreate(&stat, UserStat{UserID: uid})] for a user id other
    than 0: the row of that user, inserted first when there is none.  gorm
    builds the condition from the non-zero fields of the struct, so for user
    id 0 the query carries no condition on the user and returns the first
    row of a non-empty table, a case this definition does not cover. *)
Definition FirstOrCreate (db : StatTable) (uid : N) : StatTable * UserStat :=
  match db !! uid with
  | Some stat => (db, stat)
  | None => (<[uid := newUserStat uid]> db, newUserStat uid)
  end.

(** The missed list as review mode and the migration decode it:
    [json.Unmarshal] into a nil slice with the error discarded, skipped for
    an empty text (and, in the migration, for [null], which decodes to the
    same nil slice). *)
Definition wrongIDsLenient (c : Column (list Z)) : list Z :=
  match c with
  | Blank | Null => []
  | Invalid partial => partial
  | Json l => l
  end.

Section Handlers.
(** The order in which a [range] over [pokemonMapByID] yields its entries
    during one call.  Go draws a new order for every range, so statements
    about two calls take one enumeration for each. *)
Variable rangeMap : Dataset → list (Z * Pokemon).

Variable pokemonMapByID : Dataset.
Variable pokemonListByRegion : CategoryIndex.

Definition handleGetQuiz (db : StatTable) (req : QuizRequest) (r : Entropy)
  : StatTable * Response QuizQuestion * Entropy :=
  let region := default "kanto" (req_region req) in
  let retry := bool_decide (default "false" (req_retry req) = "true") in
  if retry then
    match req_user req with
    | None => (db, Reject StatusUnauthorized "認証が必要です", r)
    | Some userID =>
        let '(db', stat) := FirstOrCreate db userID in
        let wrongIDs := wrongIDsLenient (WrongAnswers stat) in
        match wrongIDs with
        | [] => (db', Reject StatusNotFound "間違えた問題はありません", r)
        | _ =>
            let '(randIndex, r') := randInt (length wrongIDs) r in
            match wrongIDs !! randIndex with
            | None => (db', Panicked, r')
            | Some targetID =>
                match pokemonMapByID !! targetID with
                | None =>
                    (db', Reject StatusInternalServerError
                            "ポケモンのデータが見つかりません", r')
                | Some pokemon =>
                    let optionsPool :=
                      match pokemonListByRegion !! Category pokemon with
                      | Some (q :: pool) => q :: pool
                      | _ => (rangeMap pokemonMapByID).*2
                      end in
                    let '(resp, r'') := sendQuiz pokemon optionsPool r' in
                    (db', resp, r'')
                end
            end
        end
    end
  else
    match pokemonListByRegion !! region with
    | None | Some [] =>
        (db, Reject StatusBadRequest "Invalid or empty region specified", r)
    | Some targetPokemonList =>
        let '(randIndex, r') := randInt (length targetPokemonList) r in
        match targetPokemonList !! randIndex with
        | None => (db, Panicked, r')
        | Some randomPokemon =>
            let '(resp, r'') := sendQuiz randomPokemon targetPokemonList r' in
            (db, resp, r'')
        end
    end.

(** ** Progress tracker *)

Definition setRegionalStats (stat : UserStat) (c : Column (gmap string RegionalStatDetail))
  : UserStat :=
  {| UserID := UserID stat; TotalQuestions := TotalQuestions stat;
     TotalCorrect := TotalCorrect stat; WrongAnswers := WrongAnswers stat;
     RegionalStats := c |}.

Definition setWrongAnswers (stat : UserStat) (c : Column (list Z)) : UserStat :=
  {| UserID := UserID stat; TotalQuestions := TotalQuestions stat;
     TotalCorrect := TotalCorrect stat; WrongAnswers := c;
     RegionalStats := RegionalStats stat |}.

Definition setTotalQuestions (stat : UserStat) (n : Z) : UserStat :=
  {| UserID := UserID stat; TotalQuestions := n;
     TotalCorrect := TotalCorrect stat; WrongAnswers := WrongAnswers stat;
     RegionalStats := RegionalStats stat |}.

Definition setTotalCorrect (stat : UserStat) (n : Z) : UserStat :=
  {| UserID := UserID stat; TotalQuestions := TotalQuestions stat;
     TotalCorrect := n; WrongAnswers := WrongAnswers stat;
     RegionalStats := RegionalStats stat |}.

Definition bumpDetail (d : RegionalStatDetail) (isCorrect : bool) : RegionalStatDetail :=
  {| Total := Int.incr (Total d);
     Correct := if isCorrect then Int.incr (Correct d) else Correct d |}.

(** [updateRegionalStats].  The stored text is decoded unless it is empty or
    [{}]; a decoding error starts a new map; the text [null] decodes without
    error to a nil map, and the assignment into it panics ([None]). *)
Definition updateRegionalStats (stat : UserStat) (region : string) (isCorrect : bool)
  : option UserStat :=
  let write (regionalStats : gmap string RegionalStatDetail) :=
    let regionStat := default zeroDetail (regionalStats !! region) in
    setRegionalStats stat (Json (<[region := bumpDetail regionStat isCorrect]> regionalStats)) in
  match RegionalStats stat with
  | Blank => Some (write ∅)
  | Null => None
  | Invalid _ => Some (write ∅)
  | Json regionalStats => Some (write regionalStats)
  end.

(** The missed list [updateUserStats] starts from: nil for an empty or [null]
    column, empty after a decoding error. *)
Definition wrongIDsStrict (c : Column (list Z)) : list Z :=
  match c with
  | Blank | Null => []
  | Invalid _ => []
  | Json l => l
  end.

(** The transaction body of [updateUserStats], from the row [FirstOrCreate]
    returned to the row handed to [tx.Save]. *)
Definition updatedStat (stat : UserStat) (pokemonID : Z) (isCorrect : bool)
  : option UserStat :=
  let stat := setTotalQuestions stat (Int.incr (TotalQuestions stat)) in
  let wrongIDs := wrongIDsStrict (WrongAnswers stat) in
  let regional :=
    match pokemonMapByID !! pokemonID with
    | Some pokemon =>
        if decide (Category pokemon = "") then Some stat
        else updateRegionalStats stat (Category pokemon) isCorrect
    | None => Some stat
    end in
  match regional with
  | None => None
  | Some stat =>
      if isCorrect then
        let stat := setTotalCorrect stat (Int.incr (TotalCorrect stat)) in
        let newWrongIDs := filter (λ id, id ≠ pokemonID) wrongIDs in
        Some (setWrongAnswers stat (Json newWrongIDs))
      else
        let found := bool_decide (pokemonID ∈ wrongIDs) in
        let wrongIDs := if found then wrongIDs else wrongIDs ++ [pokemonID] in
        Some (setWrongAnswers stat (Json wrongIDs))
  end.

(** [updateUserStats]: one transaction.  A panic inside it rolls the
    transaction back and propagates ([None]); otherwise the row is saved. *)
Definition updateUserStats (db : StatTable) (userID : N) (pokemonID : Z) (isCorrect : bool)
  : option StatTable :=
  let '(tx, stat) := FirstOrCreate db userID in
  match updatedStat stat pokemonID isCorrect with
  | None => None
  | Some stat' => Some (<[userID := stat']> tx)
  end.

(** An [/answer] request: the decoded body ([None] when it does not bind)
    and the user id of a valid bearer token if any. *)
Record AnswerRequest := {
  ans_body : option (Z * string);
  ans_user : option N
}.

Record AnswerResult := {
  isCorrect : bool;
  correctPokemon : Pokemon
}.

Definition handleAnswer (db : StatTable) (req : AnswerRequest)
  : StatTable * Response AnswerResult :=
  match ans_body req with
  | None => (db, Reject StatusBadRequest "Invalid request body")
  | Some (id, name) =>
      match pokemonMapByID !! id with
      | None => (db, Reject StatusNotFound "Pokemon not found")
      | Some correctPokemon =>
          let isCorrect := bool_decide (name = Name correctPokemon) in
          let reply := Reply {| isCorrect := isCorrect; correctPokemon := correctPokemon |} in
          match ans_user req with
          | None => (db, reply)
          | Some userID =>
              match updateUserStats db userID (ID correctPokemon) isCorrect with
              | None => (db, Panicked)
              | Some db' => (db', reply)
              end
          end
      end
  end.

(** ** Stats read and legacy migration *)

Definition migrateStep (wrongSet : gset Z) (regionalStats : gmap string RegionalStatDetail)
    (entry : Z * Pokemon) : gmap string RegionalStatDetail :=
  let '(id, pokemon) := entry in
  if decide (Category pokemon = "") then regionalStats
  else if decide (id ∈ wrongSet) then
    let regionStat := default zeroDetail (regionalStats !! Category pokemon) in
    <[Category pokemon := {| Total := Int.incr (Total regionStat);
                             Correct := Correct regionStat |}]> regionalStats
  else regionalStats.

Definition migrateRegionalStatsFromWrongAnswers (stat : UserStat)
  : gmap string RegionalStatDetail :=
  let wrongIDs := wrongIDsLenient (WrongAnswers stat) in
  let wrongSet : gset Z := list_to_set wrongIDs in
  foldl (migrateStep wrongSet) ∅ (rangeMap pokemonMapByID).

(** The per-category map [handleGetStats] decodes: the text is skipped when
    empty or [{}], and decoding errors are discarded. *)
Definition regionalStatsLenient (c : Column (gmap string RegionalStatDetail))
  : gmap string RegionalStatDetail :=
  match c with
  | Blank | Null => ∅
  | Invalid partial => partial
  | Json m => m
  end.

Inductive StatsPayload :=
| FreshStats (stat : UserStat)
| StoredStats (totalQuestions totalCorrect : Z) (wrongAnswers : Column (list Z))
    (regionalStats : gmap string RegionalStatDetail).

(** [handleGetStats] only reads the table; it is returned as it was found. *)
Definition handleGetStats (db : StatTable) (userID : N)
  : StatTable * Response StatsPayload :=
  match db !! userID with
  | None =>
      (db, Reply (FreshStats
                    {| UserID := userID; TotalQuestions := 0; TotalCorrect := 0;
                       WrongAnswers := Json []; RegionalStats := Blank |}))
  | Some userStat =>
      let regionalStats := regionalStatsLenient (RegionalStats userStat) in
      let regionalStats :=
        if bool_decide (size regionalStats = 0%nat) && (0 <? TotalQuestions userStat)
        then migrateRegionalStatsFromWrongAnswers userStat
        else regionalStats in
      (db, Reply (StoredStats (TotalQuestions userStat) (TotalCorrect userStat)
                    (WrongAnswers userStat) regionalStats))
  end.

End Handlers.

(** ** The external provider *)

Module PokeAPI.
Record StatEntry := { BaseStat : Z; StatName : string }.

(** [pokeAPIPokemonResponse], the nested one-field structs flattened. *)
Record PokemonResponse := {
  ID : Z;
  Name : string;
  Stats : list StatEntry;
  FrontDefault : string;
  SpeciesURL : string;
  Height : Q;
  Weight : Q;
  Types : list string
}.

Record NameEntry := { Language : string; LocalName : string }.

Record Variety := { IsDefault : bool; PokemonName : string }.

Record SpeciesResponse := {
  Names : list NameEntry;
  Varieties : list Variety
}.

Record TypeResponse := { TypeNames : list NameEntry }.

Record SpeciesRef := { SpeciesName : string; URL : string }.

Record GenerationResponse := { PokemonSpecies : list SpeciesRef }.

(** One answer per request the code issues.  [None] stands for every
    outcome after which the code gives up on that request: a transport
    error, a 404, a body that does not decode. *)
Record Provider := {
  getPokemon : Z → option PokemonResponse;
  getSpecies : Z → option SpeciesResponse;
  getPokemonByName : string → option PokemonResponse;
  getSpeciesByURL : string → option SpeciesResponse;
  getType : Z → option TypeResponse;
  getGeneration : Z → option GenerationResponse
}.
End PokeAPI.

(** ** Dataset builder *)

Definition zeroStats : PokemonStats :=
  {| HP := 0; Attack := 0; Defense := 0; SpAttack := 0; SpDefense := 0; Speed := 0 |}.

Definition setStat (stats : PokemonStats) (s : PokeAPI.StatEntry) : PokemonStats :=
  let v := PokeAPI.BaseStat s in
  let name := PokeAPI.StatName s in
  if decide (name = "hp") then
    {| HP := v; Attack := Attack stats; Defense := Defense stats;
       SpAttack := SpAttack stats; SpDefense := SpDefense stats; Speed := Speed stats |}
  else if decide (name = "attack") then
    {| HP := HP stats; Attack := v; Defense := Defense stats;
       SpAttack := SpAttack stats; SpDefense := SpDefense stats; Speed := Speed stats |}
  else if decide (name = "defense") then
    {| HP := HP stats; Attack := Attack stats; Defense := v;
       SpAttack := SpAttack stats; SpDefense := SpDefense stats; Speed := Speed stats |}
  else if decide (name = "special-attack") then
    {| HP := HP stats; Attack := Attack stats; Defense := Defense stats;
       SpAttack := v; SpDefense := SpDefense stats; Speed := Speed stats |}
  else if decide (name = "special-defense") then
    {| HP := HP stats; Attack := Attack stats; Defense := Defense stats;
       SpAttack := SpAttack stats; SpDefense := v; Speed := Speed stats |}
  else if decide (name = "speed") then
    {| HP := HP stats; Attack := Attack stats; Defense := Defense stats;
       SpAttack := SpAttack stats; SpDefense := SpDefense stats; Speed := v |}
  else stats.

(** The first name in the given language, or the empty string. *)
Fixpoint firstName (language : string) (names : list PokeAPI.NameEntry) : string :=
  match names with
  | [] => ""
  | n :: names' =>
      if decide (PokeAPI.Language n = language) then PokeAPI.LocalName n
      else firstName language names'
  end.

Definition buildPokemon (typeNameMap : gmap string string)
    (apiPokemon : PokeAPI.PokemonResponse) (apiSpecies : PokeAPI.SpeciesResponse)
  : Pokemon :=
  let stats := foldl setStat zeroStats (PokeAPI.Stats apiPokemon) in
  let japaneseName := firstName "ja" (PokeAPI.Names apiSpecies) in
  let japaneseName :=
    if decide (japaneseName = "")
    then firstName "ja-Hrkt" (PokeAPI.Names apiSpecies) else japaneseName in
  let japaneseName :=
    if decide (japaneseName = "") then PokeAPI.Name apiPokemon else japaneseName in
  let japaneseTypes :=
    omap (λ typeID, typeNameMap !! typeID) (PokeAPI.Types apiPokemon) in
  {| ID := PokeAPI.ID apiPokemon;
     Name := japaneseName;
     EnglishName := PokeAPI.Name apiPokemon;
     Category := "";
     Stats := stats;
     ImageURL := PokeAPI.FrontDefault apiPokemon;
     Height := (PokeAPI.Height apiPokemon / 10)%Q;
     Weight := (PokeAPI.Weight apiPokemon / 10)%Q;
     Types := japaneseTypes |}.

(** The category [fetchAllPokemonData] hands to [fetchAndAddVariety] for a
    non-default variety name, if any. *)
Definition varietyCategory (vName : string) : option string :=
  if Strings.Contains vName "-mega" || Strings.Contains vName "-mega-x"
     || Strings.Contains vName "-mega-y" then Some "mega"
  else if Strings.Contains vName "-gmax" then Some "gmax"
  else if Strings.Contains vName "-alola" || Strings.Contains vName "-galar"
          || Strings.Contains vName "-hisui" || Strings.Contains vName "-paldea"
  then Some "regional"
  else None.

Definition fetchAndAddVariety (api : PokeAPI.Provider) (typeNameMap : gmap string string)
    (name category : string) (m : Dataset) : Dataset :=
  if bool_decide (map_Exists (λ _ p, EnglishName p = name) m) then m
  else
    match PokeAPI.getPokemonByName api name with
    | None => m
    | Some apiPokemon =>
        match PokeAPI.getSpeciesByURL api (PokeAPI.SpeciesURL apiPokemon) with
        | None => m
        | Some apiSpecies =>
            let pokemon := buildPokemon typeNameMap apiPokemon apiSpecies in
            let pokemon := withCategory pokemon category in
            let pokemon := withID pokemon (Int.add (ID pokemon) 10000) in
            <[ID pokemon := pokemon]> m
        end
    end.

Definition addVariety (api : PokeAPI.Provider) (typeNameMap : gmap string string)
    (m : Dataset) (variety : PokeAPI.Variety) : Dataset :=
  if PokeAPI.IsDefault variety then m
  else
    match varietyCategory (PokeAPI.PokemonName variety) with
    | Some category =>
        fetchAndAddVariety api typeNameMap (PokeAPI.PokemonName variety) category m
    | None => m
    end.

(** The goroutine [fetchAllPokemonData] starts for one id, followed by the
    variety fetches it spawns.  The goroutines only meet at the mutex-guarded
    map; they are run here one after the other, ids ascending, which is one
    of the schedules the semaphore and the mutex admit. *)
Definition fetchOne (api : PokeAPI.Provider) (typeNameMap : gmap string string)
    (m : Dataset) (id : Z) : Dataset :=
  match PokeAPI.getPokemon api id with
  | None => m
  | Some apiPokemon =>
      match PokeAPI.getSpecies api id with
      | None => m
      | Some apiSpecies =>
          let pokemon := buildPokemon typeNameMap apiPokemon apiSpecies in
          let m := <[ID pokemon := pokemon]> m in
          foldl (addVariety api typeNameMap) m (PokeAPI.Varieties apiSpecies)
      end
  end.

Definition loadTypeStep (api : PokeAPI.Provider) (acc : option (gmap string string)) (i : Z)
  : option (gmap string string) :=
  match acc with
  | None => None
  | Some typeNameMap =>
      match PokeAPI.getType api i with
      | None => None
      | Some typeResp =>
          let englishTypeName := firstName "en" (PokeAPI.TypeNames typeResp) in
          Some (foldl (λ t nameInfo,
                         if decide (PokeAPI.Language nameInfo = "ja-Hrkt")
                         then <[englishTypeName := PokeAPI.LocalName nameInfo]> t
                         else t)
                      typeNameMap (PokeAPI.TypeNames typeResp))
      end
  end.

(** [loadTypeNames]; [None] is the error return. *)
Definition loadTypeNames (api : PokeAPI.Provider) (typeNameMap : gmap string string)
  : option (gmap string string) :=
  if bool_decide (0 < size typeNameMap)%nat then Some typeNameMap
  else foldl (loadTypeStep api) (Some typeNameMap) (seqZ 1 18).

Definition MAX_POKEMON_ID : Z := 1025.

(** [fetchAllPokemonData], writing into the map it is given; [None] is the
    error return (type names could not be loaded). *)
Definition fetchAllPokemonData (api : PokeAPI.Provider) (typeNameMap : gmap string string)
    (m : Dataset) : option (gmap string string * Dataset) :=
  match loadTypeNames api typeNameMap with
  | None => None
  | Some typeNameMap' =>
      Some (typeNameMap', foldl (fetchOne api typeNameMap') m (seqZ 1 MAX_POKEMON_ID))
  end.

(** ** Category classifier *)

Definition regionGenerationMap : gmap string Z :=
  list_to_map
    [("kanto", 1); ("johto", 2); ("hoenn", 3); ("sinnoh", 4); ("unova", 5);
     ("kalos", 6); ("alola", 7); ("galar", 8); ("paldea", 9);
     ("mega", -1); ("gmax", -2); ("regional", -3)].

(** Pass 1 on one record. *)
Definition classifyByName (p : Pokemon) : Pokemon :=
  if Strings.Contains (EnglishName p) "-mega" then withCategory p "mega"
  else if Strings.Contains (EnglishName p) "-gmax" then withCategory p "gmax"
  else if Strings.Contains (EnglishName p) "-alola"
          || Strings.Contains (EnglishName p) "-galar"
          || Strings.Contains (EnglishName p) "-hisui"
          || Strings.Contains (EnglishName p) "-paldea"
  then withCategory p "regional"
  else p.

(** The id at the end of a species URL, if it parses. *)
Definition speciesID (url : string) : option Z :=
  let urlParts := Strings.Split (Strings.TrimSuffix url "/") "/"%char in
  Strings.Atoi (default "" (last urlParts)).

Definition assignRegion (region : string) (m : Dataset) (species : PokeAPI.SpeciesRef)
  : Dataset :=
  match speciesID (PokeAPI.URL species) with
  | None => m
  | Some id =>
      match m !! id with
      | Some p =>
          if decide (Category p = "") then <[id := withCategory p region]> m else m
      | None => m
      end
  end.

Definition classifyGeneration (api : PokeAPI.Provider) (m : Dataset) (entry : string * Z)
  : Dataset :=
  let '(region, genID) := entry in
  if genID <=? 0 then m
  else
    match PokeAPI.getGeneration api genID with
    | None => m
    | Some apiGeneration =>
        foldl (assignRegion region) m (PokeAPI.PokemonSpecies apiGeneration)
    end.

(** Pass 2, over the entries of [regionGenerationMap] in the order the
    runtime enumerates them. *)
Definition generationPass (api : PokeAPI.Provider) (regions : list (string * Z))
    (m : Dataset) : Dataset :=
  foldl (classifyGeneration api) m regions.

Definition fetchCategoryData (api : PokeAPI.Provider) (regions : list (string * Z))
    (m : Dataset) : Dataset :=
  generationPass api regions (classifyByName <$> m).

(** ** Dataset cache *)

(** The content of [pokemon.json], by what [json.Unmarshal] into the
    dataset map makes of it. *)
Inductive CacheFile :=
| Decodes (m : Dataset)
| Corrupt.

(** What [os.Stat] and [os.ReadFile] find at startup. *)
Inductive CacheState :=
| NoFile
| StatFails
| ReadFails
| Holds (content : CacheFile).

Record FileSystem := {
  cache : CacheState;
  writeSucceeds : bool;
  afterFailedWrite : CacheState
}.

Inductive Event :=
| FetchAll (start : Dataset)
| FetchCategory (input : Dataset)
| WriteFile (data : Dataset).

Inductive Outcome :=
| Failed (error : string)
| Ready (pokemonMapByID : Dataset) (pokemonListByRegion : CategoryIndex).

Record Startup := {
  events : list Event;
  cacheAfter : CacheState;
  outcome : Outcome
}.

Definition writeFile (fs : FileSystem) (data : Dataset) : CacheState :=
  if writeSucceeds fs then Holds (Decodes data) else afterFailedWrite fs.

(** The completeness test on the sample record. *)
Definition incomplete (p : Pokemon) : bool :=
  bool_decide (length (Types p) = 0%nat) || Qeq_bool (Height p) 0 || Qeq_bool (Weight p) 0.

Section Cache.
Variable api : PokeAPI.Provider.
Variable rangeMap : Dataset → list (Z * Pokemon).
Variable rangeRegions : list (string * Z).

Definition organize (m : Dataset) : CategoryIndex :=
  organizePokemonByRegion (rangeMap m).*2.

(** [loadOrFetchPokemonData], started with an empty [pokemonMapByID] and the
    given [typeNameMap]. *)
Definition loadOrFetchPokemonData (fs : FileSystem) (typeNameMap : gmap string string)
  : Startup :=
  match cache fs with
  | Holds content =>
      match content with
      | Corrupt =>
          {| events := []; cacheAfter := cache fs;
             outcome := Failed "failed to unmarshal pokemon data" |}
      | Decodes m =>
          match m !! 1 with
          | Some p =>
              if incomplete p then
                match fetchAllPokemonData api typeNameMap ∅ with
                | None =>
                    {| events := [FetchAll ∅]; cacheAfter := cache fs;
                       outcome := Failed "failed to refetch pokemon data" |}
                | Some (_, m') =>
                    {| events := [FetchAll ∅; WriteFile m'];
                       cacheAfter := writeFile fs m';
                       outcome := Ready m' (organize m') |}
                end
              else
                {| events := []; cacheAfter := cache fs;
                   outcome := Ready m (organize m) |}
          | None =>
              {| events := []; cacheAfter := cache fs;
                 outcome := Ready m (organize m) |}
          end
      end
  | ReadFails =>
      {| events := []; cacheAfter := cache fs;
         outcome := Failed "failed to read pokemon data file" |}
  | NoFile =>
      match fetchAllPokemonData api typeNameMap ∅ with
      | None =>
          {| events := [FetchAll ∅]; cacheAfter := cache fs;
             outcome := Failed "failed to fetch pokemon data" |}
      | Some (_, m) =>
          let m' := fetchCategoryData api rangeRegions m in
          {| events := [FetchAll ∅; FetchCategory m; WriteFile m'];
             cacheAfter := writeFile fs m';
             outcome :=
               if writeSucceeds fs then Ready m' (organize m')
               else Failed "failed to write pokemon data file" |}
      end
  | StatFails =>
      {| events := []; cacheAfter := cache fs;
         outcome := Failed "failed to check pokemon data file" |}
  end.

End Cache.

(** ** A small provider

    One species (id 6) with a default form and two mega forms, as the
    provider lists them: the three forms share one species record and hence
    one set of localized names. *)

Definition charizardSpeciesURL : string :=
  "https://pokeapi.co/api/v2/pokemon-species/6/".

Definition charizardSpecies : PokeAPI.SpeciesResponse :=
  {| PokeAPI.Names :=
       [ {| PokeAPI.Language := "ja-Hrkt"; PokeAPI.LocalName := "リザードン" |};
         {| PokeAPI.Language := "ja"; PokeAPI.LocalName := "リザードン" |};
         {| PokeAPI.Language := "en"; PokeAPI.LocalName := "Charizard" |} ];
     PokeAPI.Varieties :=
       [ {| PokeAPI.IsDefault := true; PokeAPI.PokemonName := "charizard" |};
         {| PokeAPI.IsDefault := false; PokeAPI.PokemonName := "charizard-mega-x" |};
         {| PokeAPI.IsDefault := false; PokeAPI.PokemonName := "charizard-mega-y" |} ] |}.

Definition charizardForm (id : Z) (name : string) (hp : Z) : PokeAPI.PokemonResponse :=
  {| PokeAPI.ID := id;
     PokeAPI.Name := name;
     PokeAPI.Stats := [ {| PokeAPI.BaseStat := hp; PokeAPI.StatName := "hp" |};
                        {| PokeAPI.BaseStat := 100; PokeAPI.StatName := "speed" |} ];
     PokeAPI.FrontDefault := "";
     PokeAPI.SpeciesURL := charizardSpeciesURL;
     PokeAPI.Height := 17;
     PokeAPI.Weight := 905;
     PokeAPI.Types := ["fire"; "flying"] |}.

Definition sampleTypes (i : Z) : PokeAPI.TypeResponse :=
  if i =? 10 then
    {| PokeAPI.TypeNames :=
         [ {| PokeAPI.Language := "ja-Hrkt"; PokeAPI.LocalName := "ほのお" |};
           {| PokeAPI.Language := "en"; PokeAPI.LocalName := "fire" |} ] |}
  else {| PokeAPI.TypeNames := [] |}.

Definition sampleAPI : PokeAPI.Provider :=
  {| PokeAPI.getPokemon :=
       λ id, if id =? 6 then Some (charizardForm 6 "charizard" 78) else None;
     PokeAPI.getSpecies :=
       λ id, if id =? 6 then Some charizardSpecies else None;
     PokeAPI.getPokemonByName :=
       λ name,
         if decide (name = "charizard-mega-x")
         then Some (charizardForm 10034 "charizard-mega-x" 78)
         else if decide (name = "charizard-mega-y")
         then Some (charizardForm 10035 "charizard-mega-y" 78)
         else None;
     PokeAPI.getSpeciesByURL :=
       λ url, if decide (url = charizardSpeciesURL) then Some charizardSpecies else None;
     PokeAPI.getType := λ i, Some (sampleTypes i);
     PokeAPI.getGeneration :=
       λ genID,
         if genID =? 1
         then Some {| PokeAPI.PokemonSpecies :=
                        [ {| PokeAPI.SpeciesName := "charizard";
                             PokeAPI.URL := charizardSpeciesURL |};
                          {| PokeAPI.SpeciesName := "charizard-mega-x";
                             PokeAPI.URL :=
                               "https://pokeapi.co/api/v2/pokemon-species/20034/" |} ] |}
         else Some {| PokeAPI.PokemonSpecies := [] |} |}.

(** A first start: no cache file, writes succeed, maps enumerated in the
    order of [map_to_list]. *)
Definition firstStart : Startup :=
  loadOrFetchPokemonData sampleAPI map_to_list (map_to_list regionGenerationMap)
    {| cache := NoFile; writeSucceeds := true; afterFailedWrite := NoFile |} ∅.

Definition sampleDataset : Dataset :=
  match outcome firstStart with
  | Ready m _ => m
  | Failed _ => ∅
  end.

Definition sampleIndex : CategoryIndex :=
  match outcome firstStart with
  | Ready _ idx => idx
  | Failed _ => ∅
  end.

Definition megaPool : list Pokemon := default [] (sampleIndex !! "mega").

(** Five records with distinct ids and names, all in one category. *)
Definition plainRecord (id : Z) (name : string) : Pokemon :=
  {| ID := id; Name := name; EnglishName := name; Category := "kanto";
     Stats := zeroStats; ImageURL := ""; Height := 1; Weight := 1;
     Types := ["ノーマル"] |}.

Definition fivePool : list Pokemon :=
  [plainRecord 1 "A"; plainRecord 2 "B"; plainRecord 3 "C";
   plainRecord 4 "D"; plainRecord 5 "E"].

Definition fiveDataset : Dataset :=
  list_to_map ((λ p, (ID p, p)) <$> fivePool).

Definition fiveIndex : CategoryIndex := organizePokemonByRegion fivePool.

(** A user whose missed list names a record the dataset does not hold. *)
Definition staleStat : UserStat :=
  {| UserID := 1; TotalQuestions := 3; TotalCorrect := 1;
     WrongAnswers := Json [999]; RegionalStats := Json ∅ |}.

Definition staleTable : StatTable := {[ 1%N := staleStat ]}.

Definition staleAnswer : AnswerRequest :=
  {| ans_body := Some (999, "リザードン"); ans_user := Some 1%N |}.

(** The base record of the sample dataset (id 6, category kanto). *)
Definition sampleRecord : Pokemon :=
  default (plainRecord 0 "") (sampleDataset !! 6).

(** A user who has missed records 6 and 25, with stored kanto counters. *)
Definition learnerStat : UserStat :=
  {| UserID := 2; TotalQuestions := 10; TotalCorrect := 6;
     WrongAnswers := Json [25; 6];
     RegionalStats := Json {[ "kanto" := {| Total := 10; Correct := 6 |} ]} |}.

Definition learnerTable : StatTable := {[ 2%N := learnerStat ]}.

(** The sample dataset as the builder leaves it, before classification. *)
Definition builtDataset : Dataset :=
  match fetchAllPokemonData sampleAPI ∅ ∅ with
  | Some (_, m) => m
  | None => ∅
  end.

Definition megaRecord : Pokemon :=
  default (plainRecord 0 "") (builtDataset !! 20034).

(** A user stored in the format that predates per-category counters. *)
Definition legacyStat : UserStat :=
  {| UserID := 3; TotalQuestions := 12; TotalCorrect := 7;
     WrongAnswers := Json [20035; 6; 999; 20034; 6];
     RegionalStats := Blank |}.

Definition legacyTable : StatTable := {[ 3%N := legacyStat ]}.

(** A record that lacks every field the completeness test looks at. *)
Definition hollowRecord (id : Z) : Pokemon :=
  {| ID := id; Name := "フシギダネ"; EnglishName := "bulbasaur"; Category := "kanto";
     Stats := zeroStats; ImageURL := ""; Height := 0; Weight := 0; Types := [] |}.

(** A cached dataset whose sample record only lacks its weight. *)
Definition weightlessCache : Dataset :=
  {[ 1 := {| ID := 1; Name := "フシギダネ"; EnglishName := "bulbasaur";
             Category := "kanto"; Stats := zeroStats; ImageURL := "";
             Height := 7 # 10; Weight := 0; Types := ["くさ"; "どく"] |} ]}.

(** A cached dataset without a record of id 1. *)
Definition samplelessCache : Dataset :=
  {[ 2 := hollowRecord 2; 3 := hollowRecord 3 ]}.

Definition cachedStart (m : Dataset) : FileSystem :=
  {| cache := Holds (Decodes m); writeSucceeds := true; afterFailedWrite := Holds Corrupt |}.

(** The two-record dataset of the end-to-end example: A (id 1) and B (id 2),
    both in kanto. *)
Definition pairPool : list Pokemon := [plainRecord 1 "A"; plainRecord 2 "B"].

Definition pairDataset : Dataset := list_to_map ((λ p, (ID p, p)) <$> pairPool).

Definition pairIndex : CategoryIndex := organizePokemonByRegion pairPool.

(** A provider that answers the by-name request for a gmax form with a
    record named after a mega form. *)
Definition aliasSpecies : PokeAPI.SpeciesResponse :=
  {| PokeAPI.Names := [ {| PokeAPI.Language := "ja"; PokeAPI.LocalName := "フシギバナ" |} ];
     PokeAPI.Varieties :=
       [ {| PokeAPI.IsDefault := true; PokeAPI.PokemonName := "venusaur" |};
         {| PokeAPI.IsDefault := false; PokeAPI.PokemonName := "venusaur-gmax" |} ] |}.

Definition aliasAPI : PokeAPI.Provider :=
  {| PokeAPI.getPokemon :=
       λ id, if id =? 3 then Some (charizardForm 3 "venusaur" 80) else None;
     PokeAPI.getSpecies := λ id, if id =? 3 then Some aliasSpecies else None;
     PokeAPI.getPokemonByName :=
       λ name,
         if decide (name = "venusaur-gmax")
         then Some (charizardForm 10195 "venusaur-mega" 80)
         else None;
     PokeAPI.getSpeciesByURL := λ url, Some aliasSpecies;
     PokeAPI.getType := λ i, Some (sampleTypes i);
     PokeAPI.getGeneration := λ genID, None |}.

Definition aliasDataset : Dataset :=
  match fetchAllPokemonData aliasAPI ∅ ∅ with
  | Some (_, m) => m
  | None => ∅
  end.

Definition aliasRecord : Pokemon :=
  default (plainRecord 0 "") (aliasDataset !! 20195).

(** ** Vocabulary of the properties *)

Definition occurrences (x : string) (l : list string) : nat :=
  length (filter (λ y, y = x) l).

(** A reply to a normal-mode request over [pool] that carries a question
    about some record [target] of the pool, with [min 4 N] options, the
    target's name among them exactly once, and no name twice. *)
Definition quizOptionsOK (pool : list Pokemon) (resp : Response QuizQuestion) : Prop :=
  ∃ target q,
    target ∈ pool ∧ resp = Reply q ∧ quiz_id q = ID target ∧
    length (quiz_options q) = (4 `min` length pool)%nat ∧
    occurrences (Name target) (quiz_options q) = 1%nat ∧
    NoDup (quiz_options q).

(** A reply that carries a question about some record [target] of [pool],
    with [min 4 N] options, the target's name among them. *)
Definition quizOptionsSized (pool : list Pokemon) (resp : Response QuizQuestion) : Prop :=
  ∃ target q,
    target ∈ pool ∧ resp = Reply q ∧ quiz_id q = ID target ∧
    length (quiz_options q) = (4 `min` length pool)%nat ∧
    Name target ∈ quiz_options q.

Definition normalRequest (region : string) : QuizRequest :=
  {| req_region := Some region; req_retry := None; req_user := None |}.

Definition reviewRequest (region : string) (userID : N) : QuizRequest :=
  {| req_region := Some region; req_retry := Some "true"; req_user := Some userID |}.

Definition rejectedWith {A} (code : Status) (resp : Response A) : Prop :=
  ∃ error, resp = Reject code error.

(** What one record adds to the pool of category [c]. *)
Definition contribution (c : string) (p : Pokemon) : list Pokemon :=
  (if decide (Category p ≠ "" ∧ Category p = c) then [p] else []) ++
  (if decide (c = "all") then [p] else []).

Definition poolOf (c : string) (ps : list Pokemon) : list Pokemon :=
  ps ≫= contribution c.

(** A request that is not in review mode. *)
Definition normalMode (req : QuizRequest) : Prop :=
  default "false" (req_retry req) ≠ "true".

Definition requestedRegion (req : QuizRequest) : string :=
  default "kanto" (req_region req).

(** A request in review mode on behalf of an identified user. *)
Definition reviewMode (req : QuizRequest) (userID : N) : Prop :=
  default "false" (req_retry req) = "true" ∧ req_user req = Some userID.

(** The missed list as review mode and the stats read decode it. *)
Definition missedSet (stat : UserStat) : list Z :=
  wrongIDsLenient (WrongAnswers stat).

(** The row a request on behalf of [userID] works on: the stored one, or the
    one [FirstOrCreate] inserts. *)
Definition rowOf (db : StatTable) (userID : N) : UserStat :=
  (FirstOrCreate db userID).2.

(** The id review mode draws from a missed list. *)
Definition drawnID (wrongIDs : list Z) (r : Entropy) : option Z :=
  wrongIDs !! (randInt (length wrongIDs) r).1.

(** A column [encoding/json] decodes without error. *)
Definition wellFormed {A} (c : Column A) : Prop :=
  match c with
  | Invalid _ => False
  | _ => True
  end.

(** A per-category column that is empty or holds a JSON object. *)
Definition holdsCounters (c : Column (gmap string RegionalStatDetail)) : Prop :=
  match c with
  | Blank | Json _ => True
  | _ => False
  end.

(** The total of category [c] as a stats read decodes it. *)
Definition categoryTotal (c : string) (stat : UserStat) : Z :=
  Total (default zeroDetail (regionalStatsLenient (RegionalStats stat) !! c)).

(** An [int] that an increment does not wrap. *)
Definition belowMax (x : Z) : Prop := Int.MinInt ≤ x < Int.MaxInt.

(** The number of dataset records that are currently missed and carry
    category [c], and the counter entry the migration holds for that many. *)
Definition missedAndIn (wrongIDs : list Z) (c : string) (entry : Z * Pokemon) : Prop :=
  entry.1 ∈ wrongIDs ∧ Category entry.2 = c.

Definition missedCount (m : Dataset) (wrongIDs : list Z) (c : string) : nat :=
  length (filter (missedAndIn wrongIDs c) (map_to_list m)).

Definition counterOf (n : nat) : option RegionalStatDetail :=
  match n with
  | O => None
  | S _ => Some {| Total := Z.of_nat n; Correct := 0 |}
  end.

(** The special category pass 1 reads off a source name, if any. *)
Definition nameCategory (englishName : string) : option string :=
  if Strings.Contains englishName "-mega" then Some "mega"
  else if Strings.Contains englishName "-gmax" then Some "gmax"
  else if Strings.Contains englishName "-alola"
          || Strings.Contains englishName "-galar"
          || Strings.Contains englishName "-hisui"
          || Strings.Contains englishName "-paldea"
  then Some "regional"
  else None.

(** The sample record misses a required field. *)
Definition lacksRequiredField (p : Pokemon) : Prop :=
  Types p = [] ∨ (Height p == 0)%Q ∨ (Weight p == 0)%Q.

(** A stored row as the tracker writes it: a per-category column that is
    empty or a JSON object, and a missed column that decodes to a list
    without repetition. *)
Definition soundRow (stat : UserStat) : Prop :=
  holdsCounters (RegionalStats stat) ∧
  wellFormed (WrongAnswers stat) ∧
  NoDup (missedSet stat).

(** The pool review mode hands to [sendQuiz] for a target: the pool of the
    target's category when the index has a non-empty one, every record of the
    dataset otherwise. *)
Definition reviewPool (rangeMap : Dataset → list (Z * Pokemon)) (byID : Dataset)
    (pools : CategoryIndex) (pokemon : Pokemon) : list Pokemon :=
  match pools !! Category pokemon with
  | Some (q :: pool) => q :: pool
  | _ => (rangeMap byID).*2
  end.

(** The correct count of category [c] as a stats read decodes it. *)
Definition categoryCorrect (c : string) (stat : UserStat) : Z :=
  Correct (default zeroDetail (regionalStatsLenient (RegionalStats stat) !! c)).

(** Counters that make sense as counts: no more correct answers than
    answers, overall and in every category. *)
Definition consistentCounters (stat : UserStat) : Prop :=
  0 ≤ TotalCorrect stat ≤ TotalQuestions stat ∧
  map_Forall (λ _ d, 0 ≤ Correct d ≤ Total d)
    (regionalStatsLenient (RegionalStats stat)).

(** A well-formed [/answer] request of an identified user. *)
Definition answerRequest (userID : N) (id : Z) (name : string) : AnswerRequest :=
  {| ans_body := Some (id, name); ans_user := Some userID |}.

(** The base stat of the last entry of a provider stat list that carries the
    given name, 0 when there is none. *)
Definition lastBaseStat (name : string) (stats : list PokeAPI.StatEntry) : Z :=
  default 0 (last (PokeAPI.BaseStat <$> filter (λ s, PokeAPI.StatName s = name) stats)).

(** The categories a record can leave the builder with. *)
Definition builderCategory (c : string) : Prop :=
  c = "" ∨ c = "mega" ∨ c = "gmax" ∨ c = "regional".

(** A property of the dataset that every insertion of a record under its
    own id, with a category the builder uses, preserves. *)
Definition keptByBuilder (P : Dataset → Prop) : Prop :=
  ∀ m p, P m → builderCategory (Category p) → P (<[ID p := p]> m).

(** The provider lists record id [id] under [region]: some entry of the
    enumerated region table pairs [region] with a positive generation id
    whose member list holds a species URL that parses to [id]. *)
Definition listedIn (api : PokeAPI.Provider) (regions : list (string * Z))
    (id : Z) (region : string) : Prop :=
  ∃ genID apiGeneration species,
    (region, genID) ∈ regions ∧ 0 < genID ∧
    PokeAPI.getGeneration api genID = Some apiGeneration ∧
    species ∈ PokeAPI.PokemonSpecies apiGeneration ∧
    speciesID (PokeAPI.URL species) = Some id.

(** Where a record of a freshly built dataset comes from.  A base record
    is built from the provider's two answers for an id between 1 and
    [MAX_POKEMON_ID].  A variety record is built from the answers to the
    by-name request for a non-default variety with a special-form name that
    the species of such an id lists; it carries the category read off the
    requested name and the answered id moved up by 10000. *)
Definition baseRecord (api : PokeAPI.Provider) (typeNameMap : gmap string string)
    (q : Pokemon) : Prop :=
  ∃ id apiPokemon apiSpecies,
    1 ≤ id ≤ MAX_POKEMON_ID ∧
    PokeAPI.getPokemon api id = Some apiPokemon ∧
    PokeAPI.getSpecies api id = Some apiSpecies ∧
    q = buildPokemon typeNameMap apiPokemon apiSpecies.

Definition varietyRecord (api : PokeAPI.Provider) (typeNameMap : gmap string string)
    (q : Pokemon) : Prop :=
  ∃ id species variety category apiPokemon apiSpecies,
    1 ≤ id ≤ MAX_POKEMON_ID ∧
    is_Some (PokeAPI.getPokemon api id) ∧
    PokeAPI.getSpecies api id = Some species ∧
    variety ∈ PokeAPI.Varieties species ∧
    PokeAPI.IsDefault variety = false ∧
    varietyCategory (PokeAPI.PokemonName variety) = Some category ∧
    PokeAPI.getPokemonByName api (PokeAPI.PokemonName variety) = Some apiPokemon ∧
    PokeAPI.getSpeciesByURL api (PokeAPI.SpeciesURL apiPokemon) = Some apiSpecies ∧
    q = withID (withCategory (buildPokemon typeNameMap apiPokemon apiSpecies) category)
          (Int.add (PokeAPI.ID apiPokemon) 10000).

Definition fetchedRecord (api : PokeAPI.Provider) (typeNameMap : gmap string string)
    (q : Pokemon) : Prop :=
  baseRecord api typeNameMap q ∨ varietyRecord api typeNameMap q.

(** Every record of the dataset is a fetched record stored under its own
    id. *)
Definition fetchedOnly (api : PokeAPI.Provider) (typeNameMap : gmap string string)
    (m : Dataset) : Prop :=
  ∀ k q, m !! k = Some q → ID q = k ∧ fetchedRecord api typeNameMap q.

(** A property of the dataset that every insertion of a fetched record
    under its own id preserves. *)
Definition storesFetched (api : PokeAPI.Provider) (typeNameMap : gmap string string)
    (P : Dataset → Prop) : Prop :=
  ∀ m q, P m → fetchedRecord api typeNameMap q → P (<[ID q := q]> m).

(** A provider that answers a request by id with a record of that id. *)
Definition answersByID (api : PokeAPI.Provider) : Prop :=
  ∀ id apiPokemon, PokeAPI.getPokemon api id = Some apiPokemon →
                   PokeAPI.ID apiPokemon = id.

(** A provider that answers a request by name with a record of that name. *)
Definition answersByName (api : PokeAPI.Provider) : Prop :=
  ∀ name apiPokemon, PokeAPI.getPokemonByName api name = Some apiPokemon →
                     PokeAPI.Name apiPokemon = name.

(** A provider whose forms stay apart from its base records: the id of a
    record answered by name, moved up by 10000, is none of the ids requested
    by id, and the name of a record answered by id matches no special-form
    pattern. *)
Definition formsApart (api : PokeAPI.Provider) : Prop :=
  (∀ name apiPokemon, PokeAPI.getPokemonByName api name = Some apiPokemon →
     ¬ (1 ≤ Int.add (PokeAPI.ID apiPokemon) 10000 ≤ MAX_POKEMON_ID)) ∧
  (∀ id apiPokemon, PokeAPI.getPokemon api id = Some apiPokemon →
     varietyCategory (PokeAPI.Name apiPokemon) = None).

(** The dataset [m'] is what a full fetch from the provider gives.  Every
    record is stored under its own id and is a fetched record; the id of
    every record answered for a request by id is a key; and for a provider
    that answers by id and by name and keeps its forms apart, the entry of
    every requested id is exactly the record built from its two answers (no
    entry when one is missing), and the moved-up id of every answered
    special-form variety is a key. *)
Definition rebuiltFrom (api : PokeAPI.Provider) (typeNameMap : gmap string string)
    (m' : Dataset) : Prop :=
  fetchedOnly api typeNameMap m' ∧
  (∀ id apiPokemon apiSpecies,
     1 ≤ id ≤ MAX_POKEMON_ID →
     PokeAPI.getPokemon api id = Some apiPokemon →
     PokeAPI.getSpecies api id = Some apiSpecies →
     is_Some (m' !! PokeAPI.ID apiPokemon)) ∧
  (answersByID api → answersByName api → formsApart api →
   (∀ id, 1 ≤ id ≤ MAX_POKEMON_ID →
      m' !! id =
      match PokeAPI.getPokemon api id, PokeAPI.getSpecies api id with
      | Some apiPokemon, Some apiSpecies =>
          Some (buildPokemon typeNameMap apiPokemon apiSpecies)
      | _, _ => None
      end) ∧
   (∀ id species variety category apiPokemon apiSpecies,
      1 ≤ id ≤ MAX_POKEMON_ID →
      is_Some (PokeAPI.getPokemon api id) →
      PokeAPI.getSpecies api id = Some species →
      variety ∈ PokeAPI.Varieties species →
      PokeAPI.IsDefault variety = false →
      varietyCategory (PokeAPI.PokemonName variety) = Some category →
      PokeAPI.getPokemonByName api (PokeAPI.PokemonName variety) = Some apiPokemon →
      PokeAPI.getSpeciesByURL api (PokeAPI.SpeciesURL apiPokemon) = Some apiSpecies →
      is_Some (m' !! Int.add (PokeAPI.ID apiPokemon) 10000))).

(** * Properties *)

(** Settles a closed decidable proposition by evaluating its decision. *)
Ltac decide_by_computation :=
  apply (bool_decide_unpack _); vm_compute; exact I.

(** ** Integers and randomness *)

Lemma incr_in_range x : Int.MinInt ≤ x < Int.MaxInt → Int.incr x = x + 1.
Proof.
  unfold Int.incr, Int.add, Int.wrap, Int.MinInt, Int.MaxInt. intros H.
  rewrite Z.mod_small; lia.
Qed.

Lemma incr_at_max : Int.incr Int.MaxInt = Int.MinInt.
Proof. reflexivity. Qed.

Lemma randInt_lt bound r : (0 < bound)%nat → ((randInt bound r).1 < bound)%nat.
Proof.
  intros Hb. destruct r as [|x r]; simpl; [done|].
  apply Nat.mod_upper_bound. lia.
Qed.

(** ** The shuffle permutes *)

Lemma swap_perm {A} (l : list A) i j : swap l i j ≡ₚ l.
Proof.
  unfold swap. destruct (l !! i) as [x|] eqn:Hi; [|done].
  destruct (l !! j) as [y|] eqn:Hj; [|done].
  by apply Permutation_insert_swap.
Qed.

Lemma shuffleDown_perm {A} i (l : list A) r : (shuffleDown i l r).1 ≡ₚ l.
Proof.
  revert l r. induction i as [|i IH]; intros l r; simpl; [done|].
  destruct (randInt (S (S i)) r) as [j r'].
  rewrite IH. apply swap_perm.
Qed.

Lemma shuffle_perm {A} (l : list A) r : (shuffle l r).1 ≡ₚ l.
Proof. apply shuffleDown_perm. Qed.

Lemma swap_in_range {A} (l : list A) i j :
  (i < length l)%nat → (j < length l)%nat →
  ∃ x y, l !! i = Some x ∧ l !! j = Some y ∧ swap l i j = <[j:=x]> (<[i:=y]> l).
Proof.
  intros [x Hx]%lookup_lt_is_Some_2 [y Hy]%lookup_lt_is_Some_2.
  exists x, y. unfold swap. by rewrite Hx, Hy.
Qed.

Lemma swap_length {A} (l : list A) i j : length (swap l i j) = length l.
Proof. unfold swap. repeat case_match; by rewrite ?length_insert. Qed.

(** Every index the shuffle loop touches is inside the slice: at step [i]
    the loop swaps position [i] with a drawn position [j <= i]. *)
Lemma shuffle_step_in_range {A} (l : list A) i r :
  (S i < length l)%nat →
  let j := (randInt (S (S i)) r).1 in
  (j < length l)%nat ∧ length (swap l (S i) j) = length l.
Proof.
  intros Hi j. split; [|apply swap_length].
  pose proof (randInt_lt (S (S i)) r ltac:(lia)). unfold j. lia.
Qed.

(** ** Option generation *)

Lemma filter_all {A} (P : A → Prop) `{!∀ x, Decision (P x)} (l : list A) :
  Forall P l → filter P l = l.
Proof.
  induction 1 as [|x l Hx _ IH]; [done|].
  by rewrite filter_cons_True, IH.
Qed.

Lemma filter_other_ids_length (pool : list Pokemon) (target : Pokemon) :
  NoDup (ID <$> pool) → target ∈ pool →
  length (filter (λ p, ID p ≠ ID target) pool) = (length pool - 1)%nat.
Proof.
  induction pool as [|a pool IH]; intros Hnd Hin; [by apply elem_of_nil in Hin|].
  rewrite fmap_cons in Hnd. apply NoDup_cons in Hnd as [Ha Hnd].
  destruct (decide (ID a = ID target)) as [Heq|Hne].
  - rewrite filter_cons_False by (intros ?; done).
    assert (filter (λ p, ID p ≠ ID target) pool = pool) as ->; [|simpl; lia].
    apply filter_all. apply Forall_forall. intros p Hp Hid.
    apply Ha. rewrite Heq, <- Hid. apply list_elem_of_fmap. eauto.
  - rewrite filter_cons_True by done.
    apply elem_of_cons in Hin as [->|Hin]; [done|].
    simpl. rewrite IH by done.
    destruct pool; [by apply elem_of_nil in Hin|simpl; lia].
Qed.

Lemma filter_other_ids_names (pool : list Pokemon) (target : Pokemon) :
  NoDup (Name <$> pool) → target ∈ pool →
  Name target ∉ Name <$> filter (λ p, ID p ≠ ID target) pool.
Proof.
  intros Hnd Hin [p [Hname Hp]]%list_elem_of_fmap.
  apply list_elem_of_filter in Hp as [Hid Hp].
  apply Hid. f_equal.
  apply list_elem_of_lookup in Hp as [i Hi].
  apply list_elem_of_lookup in Hin as [j Hj].
  assert (i = j) as ->.
  { eapply NoDup_lookup; [exact Hnd| |]; rewrite list_lookup_fmap.
    - by rewrite Hi.
    - rewrite Hj. simpl. by rewrite Hname. }
  congruence.
Qed.

Lemma NoDup_of_submseteq {A} (l k : list A) : l ⊆+ k → NoDup k → NoDup l.
Proof.
  intros [k' Hk]%submseteq_Permutation Hnd. rewrite Hk in Hnd.
  by apply NoDup_app in Hnd as [? _].
Qed.

Lemma occurrences_NoDup x (l : list string) : NoDup l → x ∈ l → occurrences x l = 1%nat.
Proof.
  unfold occurrences. induction 1 as [|y l Hy Hnd IH]; intros Hin.
  - by apply elem_of_nil in Hin.
  - destruct (decide (y = x)) as [->|Hne].
    + rewrite filter_cons_True by done. simpl. f_equal.
      destruct (filter (λ y, y = x) l) as [|z ?] eqn:Hf; [done|].
      assert (z ∈ filter (λ y, y = x) l) as [-> ?]%list_elem_of_filter
        by (rewrite Hf; left). done.
    + rewrite filter_cons_False by done. apply IH.
      apply elem_of_cons in Hin as [->|]; done.
Qed.

(** What [sendQuiz] answers on a non-empty pool: a permutation of the
    target's name followed by the names of [min 3 n] records picked, without
    repetition of a position, among the [n] records whose id differs from the
    target's. *)
Lemma sendQuiz_options target pool r :
  pool ≠ [] →
  ∃ q r' picked,
    sendQuiz target pool r = (Reply q, r') ∧
    quiz_id q = ID target ∧
    quiz_options q ≡ₚ Name target :: (Name <$> picked) ∧
    picked ⊆+ filter (λ p, ID p ≠ ID target) pool ∧
    length picked = (3 `min` length (filter (λ p, ID p ≠ ID target) pool))%nat.
Proof.
  intros Hne. unfold sendQuiz. destruct pool as [|a pool]; [done|].
  set (filtered := filter _ (a :: pool)).
  pose proof (shuffle_perm filtered r) as Hs.
  destruct (shuffle filtered r) as [shuffled r1]. simpl in Hs.
  pose proof (shuffle_perm (Name target :: (Name <$> take 3 shuffled)) r1) as Ho.
  destruct (shuffle (Name target :: (Name <$> take 3 shuffled)) r1) as [options r2].
  simpl in Ho. exists {| quiz_id := ID target; quiz_stats := Stats target;
    quiz_options := options; quiz_height := Height target;
    quiz_weight := Weight target; quiz_types := Types target |}, r2, (take 3 shuffled).
  repeat split; simpl; try done.
  - rewrite <- Hs. apply sublist_submseteq, sublist_take.
  - rewrite length_take. by rewrite Hs.
Qed.

Lemma sendQuiz_distinct target pool r :
  target ∈ pool → NoDup (ID <$> pool) → NoDup (Name <$> pool) →
  ∃ q r',
    sendQuiz target pool r = (Reply q, r') ∧ quiz_id q = ID target ∧
    length (quiz_options q) = (4 `min` length pool)%nat ∧
    occurrences (Name target) (quiz_options q) = 1%nat ∧
    NoDup (quiz_options q).
Proof.
  intros Hin Hids Hnames.
  assert (pool ≠ []) as Hne by (intros ->; by apply elem_of_nil in Hin).
  destruct (sendQuiz_options target pool r Hne)
    as (q & r' & picked & Hq & Hid & Hperm & Hsub & Hlen).
  rewrite filter_other_ids_length in Hlen by done.
  assert (NoDup (quiz_options q)) as Hnd.
  { rewrite Hperm. apply NoDup_cons. split.
    - intros Hx. eapply filter_other_ids_names; [exact Hnames|exact Hin|].
      eapply elem_of_submseteq; [exact Hx|]. by apply fmap_submseteq.
    - apply (NoDup_of_submseteq _ (Name <$> pool)); [|done].
      apply fmap_submseteq. etrans; [exact Hsub|].
      apply sublist_submseteq, sublist_filter. }
  exists q, r'. repeat split; try done.
  - rewrite Hperm. cbn [length]. rewrite length_fmap, Hlen.
    destruct pool; [done|cbn [length]; lia].
  - apply occurrences_NoDup; [done|]. rewrite Hperm. left.
Qed.

(** Size and membership need distinct ids only. *)
Lemma sendQuiz_sized target pool r :
  target ∈ pool → NoDup (ID <$> pool) →
  ∃ q r',
    sendQuiz target pool r = (Reply q, r') ∧ quiz_id q = ID target ∧
    length (quiz_options q) = (4 `min` length pool)%nat ∧
    Name target ∈ quiz_options q.
Proof.
  intros Hin Hids.
  assert (pool ≠ []) as Hne by (intros ->; by apply elem_of_nil in Hin).
  destruct (sendQuiz_options target pool r Hne)
    as (q & r' & picked & Hq & Hid & Hperm & Hsub & Hlen).
  rewrite filter_other_ids_length in Hlen by done.
  exists q, r'. repeat split; try done.
  - rewrite Hperm. cbn [length]. rewrite length_fmap, Hlen.
    destruct pool; [done|cbn [length]; lia].
  - rewrite Hperm. left.
Qed.

(** ** The category index *)

Lemma appendTo_lookup idx c' p c :
  appendTo idx c' p !! c =
  if decide (c' = c) then Some (default [] (idx !! c) ++ [p]) else idx !! c.
Proof.
  unfold appendTo. case_decide as Hc.
  - subst. by rewrite lookup_insert_eq.
  - by rewrite lookup_insert_ne.
Qed.

Lemma organize_lookup ps c :
  organizePokemonByRegion ps !! c =
  match poolOf c ps with [] => None | pool => Some pool end.
Proof.
  unfold organizePokemonByRegion, poolOf.
  induction ps as [|p ps IH] using rev_ind; [done|].
  rewrite foldl_app, bind_app. simpl. rewrite app_nil_r.
  remember (ps ≫= contribution c) as rest eqn:Hrest. clear Hrest.
  unfold organizeStep at 1, contribution. rewrite !appendTo_lookup.
  destruct (decide (c = "all")) as [->|Hall].
  - rewrite (decide_True (P := "all" = "all")) by done.
    destruct (decide (Category p = "")) as [He|He].
    + rewrite (decide_False (P := _ ∧ _)) by (intros [? _]; done).
      simpl. rewrite IH. by destruct rest.
    + rewrite appendTo_lookup.
      destruct (decide (Category p = "all")) as [Hc|Hc].
      * rewrite (decide_True (P := _ ∧ _)) by done. simpl. rewrite IH.
        destruct rest as [|x l]; simpl; [done|].
        by rewrite <- app_assoc.
      * rewrite (decide_False (P := _ ∧ _)) by (intros [_ ?]; done).
        simpl. rewrite IH. by destruct rest.
  - rewrite (decide_False (P := "all" = c)) by done. rewrite app_nil_r.
    destruct (decide (Category p = "")) as [He|He].
    + rewrite (decide_False (P := _ ∧ _)) by (intros [? _]; done).
      by rewrite app_nil_r.
    + rewrite appendTo_lookup.
      destruct (decide (Category p = c)) as [Hc|Hc].
      * rewrite (decide_True (P := _ ∧ _)) by done. rewrite IH. by destruct rest.
      * rewrite (decide_False (P := _ ∧ _)) by (intros [_ ?]; done).
        by rewrite app_nil_r.
Qed.

Lemma poolOf_category c ps :
  c ≠ "all" → poolOf c ps = filter (λ p, Category p ≠ "" ∧ Category p = c) ps.
Proof.
  intros Hc. unfold poolOf. induction ps as [|p ps IH]; [done|].
  rewrite bind_cons, IH. unfold contribution.
  rewrite (decide_False (P := c = "all")) by done. rewrite app_nil_r.
  case_decide.
  - by rewrite filter_cons_True.
  - by rewrite filter_cons_False.
Qed.

(** A pool built from a dataset keyed by id holds no id twice. *)
Lemma organize_pool_ids (rangeMap : Dataset → list (Z * Pokemon)) m c pool :
  rangeMap m ≡ₚ map_to_list m → keyedByID m → c ≠ "all" →
  organize rangeMap m !! c = Some pool →
  NoDup (ID <$> pool) ∧ ∀ p, p ∈ pool ↔ m !! ID p = Some p ∧ Category p = c ∧ c ≠ "".
Proof.
  intros Hperm Hkey Hc Hpool. unfold organize in Hpool.
  rewrite organize_lookup, poolOf_category in Hpool by done.
  assert (pool = filter (λ p, Category p ≠ "" ∧ Category p = c) (rangeMap m).*2) as ->.
  { destruct (filter _ _); congruence. }
  clear Hpool.
  assert (ID <$> (rangeMap m).*2 = (rangeMap m).*1) as Hids.
  { rewrite <- list_fmap_compose. apply list_fmap_ext.
    intros i [k p] Hkp%list_elem_of_lookup_2. rewrite Hperm in Hkp.
    apply elem_of_map_to_list in Hkp. simpl. by apply Hkey. }
  split.
  - eapply NoDup_of_submseteq.
    + apply fmap_submseteq, sublist_submseteq, sublist_filter.
    + rewrite Hids, Hperm. apply NoDup_fst_map_to_list.
  - intros p. rewrite list_elem_of_filter, list_elem_of_fmap. split.
    + intros [[Hne <-] [[k p'] [-> Hin]]]. rewrite Hperm in Hin.
      apply elem_of_map_to_list in Hin. simpl in *.
      by rewrite (Hkey _ _ Hin).
    + intros (Hp & <- & Hne). split; [done|].
      exists (ID p, p). split; [done|]. rewrite Hperm.
      by apply elem_of_map_to_list.
Qed.

(** ** Quiz requests *)

Lemma normalMode_retry req :
  normalMode req → bool_decide (default "false" (req_retry req) = "true") = false.
Proof. intros H. by apply bool_decide_eq_false_2. Qed.

Lemma randInt_lookup {A} (l : list A) r :
  l ≠ [] → ∃ x, l !! (randInt (length l) r).1 = Some x.
Proof.
  intros Hl. apply lookup_lt_is_Some_2, randInt_lt.
  destruct l; [done|simpl; lia].
Qed.

(** C1, as amended: for every category pool with N >= 1 records whose ids
    are pairwise distinct, a normal-mode request answers with a question
    about a record of the pool whose option list has exactly min(4, N)
    entries and holds the target's display name; when the display names of
    the pool are pairwise distinct as well, the list holds the target's
    display name exactly once and holds no name twice. *)
Theorem normal_quiz_options_distinct
    (rangeMap : Dataset → list (Z * Pokemon)) (byID : Dataset)
    (pools : CategoryIndex) (db : StatTable) (req : QuizRequest) (r : Entropy)
    (pool : list Pokemon) :
  normalMode req →
  pools !! requestedRegion req = Some pool →
  pool ≠ [] →
  NoDup (ID <$> pool) →
  quizOptionsSized pool (handleGetQuiz rangeMap byID pools db req r).1.2 ∧
  (NoDup (Name <$> pool) →
   quizOptionsOK pool (handleGetQuiz rangeMap byID pools db req r).1.2).
Proof.
  intros Hmode Hpool Hne Hids. unfold handleGetQuiz.
  rewrite normalMode_retry by done. unfold requestedRegion in Hpool.
  rewrite Hpool. destruct pool as [|a pool]; [done|].
  destruct (randInt_lookup (a :: pool) r Hne) as [target Ht].
  destruct (randInt (length (a :: pool)) r) as [i r'] eqn:Hr. simpl in Ht.
  rewrite Ht.
  assert (target ∈ a :: pool) as Hin by (by eapply list_elem_of_lookup_2).
  split.
  - destruct (sendQuiz_sized target (a :: pool) r' Hin Hids)
      as (q & r'' & Hq & Hid & Hlen & Hmem).
    rewrite Hq. simpl. by exists target, q.
  - intros Hnames.
    destruct (sendQuiz_distinct target (a :: pool) r' Hin Hids Hnames)
      as (q & r'' & Hq & Hid & Hlen & Hocc & Hnd).
    rewrite Hq. simpl. by exists target, q.
Qed.

(** C3, as amended: a normal-mode request whose category is not a key of
    the category index, or whose pool is empty, is rejected with status
    BadRequest and carries no question; the stores are left as they were. *)
Theorem normal_quiz_unknown_region
    (rangeMap : Dataset → list (Z * Pokemon)) (byID : Dataset)
    (pools : CategoryIndex) (db : StatTable) (req : QuizRequest) (r : Entropy) :
  normalMode req →
  pools !! requestedRegion req = None ∨ pools !! requestedRegion req = Some [] →
  handleGetQuiz rangeMap byID pools db req r
  = (db, Reject StatusBadRequest "Invalid or empty region specified", r).
Proof.
  intros Hmode Hpool. unfold handleGetQuiz.
  rewrite normalMode_retry by done. unfold requestedRegion in Hpool.
  by destruct Hpool as [-> | ->].
Qed.

Lemma normal_quiz_options_distinct_witness :
  normalMode (normalRequest "kanto") ∧
  fiveIndex !! requestedRegion (normalRequest "kanto") = Some fivePool ∧
  fivePool ≠ [] ∧
  NoDup (ID <$> fivePool) ∧
  quizOptionsSized fivePool
    (handleGetQuiz map_to_list fiveDataset fiveIndex ∅ (normalRequest "kanto")
       [7; 1; 0; 2; 5; 3]%nat).1.2 ∧
  NoDup (Name <$> fivePool) ∧
  quizOptionsOK fivePool
    (handleGetQuiz map_to_list fiveDataset fiveIndex ∅ (normalRequest "kanto")
       [7; 1; 0; 2; 5; 3]%nat).1.2.
Proof.
  assert (normalMode (normalRequest "kanto")) as H1 by done.
  assert (fiveIndex !! requestedRegion (normalRequest "kanto") = Some fivePool) as H2
    by (vm_compute; reflexivity).
  assert (fivePool ≠ []) as H3 by done.
  assert (NoDup (ID <$> fivePool)) as H4
    by (decide_by_computation).
  assert (NoDup (Name <$> fivePool)) as H5
    by (decide_by_computation).
  destruct (normal_quiz_options_distinct map_to_list fiveDataset fiveIndex ∅
              (normalRequest "kanto") [7; 1; 0; 2; 5; 3]%nat fivePool H1 H2 H3 H4)
    as [Hsized Hdistinct].
  split; [exact H1|]. split; [exact H2|]. split; [exact H3|].
  split; [exact H4|]. split; [exact Hsized|]. split; [exact H5|].
  exact (Hdistinct H5).
Defined.

(** The pool the index builds for the mega category from the sample
    provider holds two records with distinct ids and one display name, and a
    normal-mode question over it lists that name twice; it still has
    min(4, 2) options with the target's name among them. *)
Lemma mega_pool_repeats_name :
  sampleIndex !! "mega" = Some megaPool ∧
  length megaPool = 2%nat ∧
  NoDup (ID <$> megaPool) ∧
  ¬ quizOptionsOK megaPool
      (handleGetQuiz map_to_list sampleDataset sampleIndex ∅
         (normalRequest "mega") []).1.2 ∧
  quizOptionsSized megaPool
    (handleGetQuiz map_to_list sampleDataset sampleIndex ∅
       (normalRequest "mega") []).1.2.
Proof.
  split; [by vm_compute|]. split; [by vm_compute|].
  split; [decide_by_computation|]. split.
  - intros (target & q & _ & Hq & _ & _ & _ & Hnd).
    vm_compute in Hq. injection Hq as <-. simpl in Hnd.
    apply NoDup_cons in Hnd as [Hn _]. apply Hn. left.
  - exists (default (plainRecord 0 "") (megaPool !! 0%nat)). eexists.
    split; [apply (list_elem_of_lookup_2 _ 0%nat); vm_compute; reflexivity|].
    split; [vm_compute; reflexivity|].
    split; [vm_compute; reflexivity|].
    split; [vm_compute; reflexivity|].
    vm_compute. left.
Qed.

Lemma normal_quiz_unknown_region_witness :
  normalMode (normalRequest "johto") ∧
  (sampleIndex !! requestedRegion (normalRequest "johto") = None ∨
   sampleIndex !! requestedRegion (normalRequest "johto") = Some []) ∧
  handleGetQuiz map_to_list sampleDataset sampleIndex ∅ (normalRequest "johto") [4%nat]
  = (∅, Reject StatusBadRequest "Invalid or empty region specified", [4%nat]).
Proof.
  assert (normalMode (normalRequest "johto")) as H1 by done.
  assert (sampleIndex !! requestedRegion (normalRequest "johto") = None ∨
          sampleIndex !! requestedRegion (normalRequest "johto") = Some []) as H2
    by (left; vm_compute; reflexivity).
  split; [exact H1|]. split; [exact H2|].
  exact (normal_quiz_unknown_region map_to_list sampleDataset sampleIndex ∅
           (normalRequest "johto") [4%nat] H1 H2).
Defined.

(** The category johto is no key of the sample index; the request for it is
    not answered with status NotFound. *)
Lemma unknown_region_not_NotFound :
  sampleIndex !! "johto" = None ∧
  ¬ rejectedWith StatusNotFound
      (handleGetQuiz map_to_list sampleDataset sampleIndex ∅
         (normalRequest "johto") []).1.2.
Proof.
  split; [by vm_compute|].
  intros [error Hr]. vm_compute in Hr. discriminate Hr.
Qed.

(** ** Unknown record ids *)

Lemma handleAnswer_unknown_id byID db req id name :
  ans_body req = Some (id, name) → byID !! id = None →
  handleAnswer byID db req = (db, Reject StatusNotFound "Pokemon not found").
Proof. intros Hb Hid. unfold handleAnswer. by rewrite Hb, Hid. Qed.

Lemma review_unknown_id rangeMap byID pools db req r userID targetID :
  reviewMode req userID →
  drawnID (missedSet (rowOf db userID)) r = Some targetID →
  byID !! targetID = None →
  (handleGetQuiz rangeMap byID pools db req r).1.2
  = Reject StatusInternalServerError "ポケモンのデータが見つかりません".
Proof.
  intros [Hretry Huser] Hdrawn Hid. unfold handleGetQuiz.
  rewrite Hretry, Huser. rewrite bool_decide_eq_true_2 by done.
  unfold drawnID, missedSet, rowOf in Hdrawn.
  destruct (FirstOrCreate db userID) as [db' stat]. simpl in Hdrawn.
  destruct (wrongIDsLenient (WrongAnswers stat)) as [|x wrongIDs] eqn:Hw; [done|].
  destruct (randInt (length (x :: wrongIDs)) r) as [i r'].
  simpl in Hdrawn. rewrite Hdrawn. by rewrite Hid.
Qed.

(** C6, as amended: an answer submitted for a record id that is not in the
    dataset is rejected with status NotFound and leaves the stat table as it
    was; a review-mode request whose drawn missed id has no record in the
    dataset is rejected with status InternalServerError and carries no
    question. *)
Theorem unknown_record_id_rejected
    (rangeMap : Dataset → list (Z * Pokemon)) (byID : Dataset)
    (pools : CategoryIndex) (db : StatTable) :
  (∀ req id name,
     ans_body req = Some (id, name) → byID !! id = None →
     handleAnswer byID db req = (db, Reject StatusNotFound "Pokemon not found"))
  ∧
  (∀ req r userID targetID,
     reviewMode req userID →
     drawnID (missedSet (rowOf db userID)) r = Some targetID →
     byID !! targetID = None →
     (handleGetQuiz rangeMap byID pools db req r).1.2
     = Reject StatusInternalServerError "ポケモンのデータが見つかりません").
Proof.
  split.
  - intros req id name. apply handleAnswer_unknown_id.
  - intros req r userID targetID. apply review_unknown_id.
Qed.

Lemma unknown_record_id_rejected_witness :
  (ans_body staleAnswer = Some (999, "リザードン") ∧ sampleDataset !! 999 = None ∧
   handleAnswer sampleDataset staleTable staleAnswer
   = (staleTable, Reject StatusNotFound "Pokemon not found"))
  ∧
  (reviewMode (reviewRequest "kanto" 1) 1 ∧
   drawnID (missedSet (rowOf staleTable 1)) [5%nat] = Some 999 ∧
   sampleDataset !! 999 = None ∧
   (handleGetQuiz map_to_list sampleDataset sampleIndex staleTable
      (reviewRequest "kanto" 1) [5%nat]).1.2
   = Reject StatusInternalServerError "ポケモンのデータが見つかりません").
Proof.
  destruct (unknown_record_id_rejected map_to_list sampleDataset sampleIndex staleTable)
    as [Hanswer Hreview].
  assert (sampleDataset !! 999 = None) as Habsent by (vm_compute; reflexivity).
  assert (reviewMode (reviewRequest "kanto" 1) 1) as Hmode by (split; reflexivity).
  assert (drawnID (missedSet (rowOf staleTable 1)) [5%nat] = Some 999) as Hdrawn
    by (vm_compute; reflexivity).
  split.
  - split; [reflexivity|]. split; [exact Habsent|].
    exact (Hanswer staleAnswer 999 "リザードン" eq_refl Habsent).
  - split; [exact Hmode|]. split; [exact Hdrawn|]. split; [exact Habsent|].
    exact (Hreview (reviewRequest "kanto" 1) [5%nat] 1%N 999 Hmode Hdrawn Habsent).
Defined.

(** The only missed id of user 1 has no record in the sample dataset; the
    review-mode request is not answered with status NotFound. *)
Lemma review_unknown_id_not_NotFound :
  drawnID (missedSet (rowOf staleTable 1)) [] = Some 999 ∧
  sampleDataset !! 999 = None ∧
  ¬ rejectedWith StatusNotFound
      (handleGetQuiz map_to_list sampleDataset sampleIndex staleTable
         (reviewRequest "kanto" 1) []).1.2.
Proof.
  split; [by vm_compute|]. split; [by vm_compute|].
  intros [error Hr]. vm_compute in Hr. discriminate Hr.
Qed.

(** ** Progress tracker *)

Lemma rowOf_FirstOrCreate db userID :
  (FirstOrCreate db userID).1 !! userID = Some (rowOf db userID).
Proof.
  unfold rowOf, FirstOrCreate. destruct (db !! userID) as [stat|] eqn:Hrow; simpl.
  - done.
  - by rewrite lookup_insert_eq.
Qed.

Lemma rowOf_lookup db userID stat : db !! userID = Some stat → rowOf db userID = stat.
Proof. intros H. unfold rowOf, FirstOrCreate. by rewrite H. Qed.

Lemma updateUserStats_row byID db userID pokemonID isCorrect db' :
  updateUserStats byID db userID pokemonID isCorrect = Some db' →
  updatedStat byID (rowOf db userID) pokemonID isCorrect = Some (rowOf db' userID).
Proof.
  unfold updateUserStats, rowOf at 1.
  destruct (FirstOrCreate db userID) as [tx stat]. simpl.
  destruct (updatedStat byID stat pokemonID isCorrect) as [stat'|]; [|done].
  intros [= <-]. f_equal. symmetry. apply rowOf_lookup, lookup_insert_eq.
Qed.

Lemma updateUserStats_commits byID db userID pokemonID isCorrect stat' :
  updatedStat byID (rowOf db userID) pokemonID isCorrect = Some stat' →
  ∃ db', updateUserStats byID db userID pokemonID isCorrect = Some db'.
Proof.
  unfold updateUserStats, rowOf.
  destruct (FirstOrCreate db userID) as [tx stat]. simpl. intros ->. eauto.
Qed.

(** The transaction body fails only on a [null] per-category column. *)
Lemma updatedStat_total byID stat pokemonID isCorrect :
  RegionalStats stat ≠ Null →
  ∃ stat', updatedStat byID stat pokemonID isCorrect = Some stat'.
Proof.
  intros Hnull. unfold updatedStat, updateRegionalStats. simpl.
  destruct (byID !! pokemonID) as [pokemon|]; [case_decide|];
    destruct (RegionalStats stat); try done; destruct isCorrect; eauto.
Qed.

Lemma updatedStat_fields byID stat pokemonID isCorrect stat' :
  updatedStat byID stat pokemonID isCorrect = Some stat' →
  TotalQuestions stat' = Int.incr (TotalQuestions stat) ∧
  WrongAnswers stat' =
    Json (let wrongIDs := wrongIDsStrict (WrongAnswers stat) in
          if isCorrect then filter (λ id, id ≠ pokemonID) wrongIDs
          else if bool_decide (pokemonID ∈ wrongIDs) then wrongIDs
               else wrongIDs ++ [pokemonID]) ∧
  (RegionalStats stat ≠ Null → RegionalStats stat' ≠ Null).
Proof.
  unfold updatedStat, updateRegionalStats. simpl.
  destruct (byID !! pokemonID) as [pokemon|]; [case_decide|];
    destruct (RegionalStats stat) eqn:Hrs; try done;
    destruct isCorrect; intros [= <-]; simpl; rewrite ?Hrs; done.
Qed.

Lemma updatedStat_category byID stat pokemonID isCorrect pokemon stat' :
  byID !! pokemonID = Some pokemon → Category pokemon ≠ "" →
  updatedStat byID stat pokemonID isCorrect = Some stat' →
  holdsCounters (RegionalStats stat) →
  categoryTotal (Category pokemon) stat'
  = Int.incr (categoryTotal (Category pokemon) stat).
Proof.
  intros Hp Hc. unfold updatedStat, updateRegionalStats, categoryTotal. simpl.
  rewrite Hp. rewrite decide_False by done.
  destruct (RegionalStats stat) eqn:Hrs; try done;
    destruct isCorrect; intros [= <-] _; simpl;
    by rewrite lookup_insert_eq.
Qed.

Lemma wrongIDs_wellFormed (c : Column (list Z)) :
  wellFormed c → wrongIDsStrict c = wrongIDsLenient c.
Proof. by destruct c. Qed.

(** C2: a graded answer for a record with a non-empty category, recorded for
    an identified user whose per-category column is empty or a JSON object
    and whose two counters are below the largest [int], is committed and
    raises the user's total-answered counter and that category's total
    counter by exactly 1 each, whether or not the answer was correct. *)
Theorem answer_counted_once
    (byID : Dataset) (db : StatTable) (userID : N) (pokemonID : Z)
    (isCorrect : bool) (pokemon : Pokemon) :
  byID !! pokemonID = Some pokemon →
  Category pokemon ≠ "" →
  holdsCounters (RegionalStats (rowOf db userID)) →
  belowMax (TotalQuestions (rowOf db userID)) →
  belowMax (categoryTotal (Category pokemon) (rowOf db userID)) →
  ∃ db',
    updateUserStats byID db userID pokemonID isCorrect = Some db' ∧
    TotalQuestions (rowOf db' userID) = TotalQuestions (rowOf db userID) + 1 ∧
    categoryTotal (Category pokemon) (rowOf db' userID)
    = categoryTotal (Category pokemon) (rowOf db userID) + 1.
Proof.
  intros Hp Hc Hcol Htot Hcat.
  assert (RegionalStats (rowOf db userID) ≠ Null) as Hnull
    by (intros Heq; by rewrite Heq in Hcol).
  destruct (updatedStat_total byID _ pokemonID isCorrect Hnull) as [stat' Hs].
  destruct (updateUserStats_commits _ _ _ _ _ _ Hs) as [db' Hdb].
  pose proof (updateUserStats_row _ _ _ _ _ _ Hdb) as Hrow.
  rewrite Hs in Hrow. injection Hrow as Hrow. subst stat'.
  exists db'. split; [done|]. split.
  - destruct (updatedStat_fields _ _ _ _ _ Hs) as [-> _].
    by apply incr_in_range.
  - rewrite (updatedStat_category _ _ _ _ _ _ Hp Hc Hs Hcol).
    by apply incr_in_range.
Qed.

Lemma answer_counted_once_witness :
  sampleDataset !! 6 = Some sampleRecord ∧
  Category sampleRecord ≠ "" ∧
  holdsCounters (RegionalStats (rowOf learnerTable 2)) ∧
  belowMax (TotalQuestions (rowOf learnerTable 2)) ∧
  belowMax (categoryTotal (Category sampleRecord) (rowOf learnerTable 2)) ∧
  ∃ db',
    updateUserStats sampleDataset learnerTable 2 6 true = Some db' ∧
    TotalQuestions (rowOf db' 2) = TotalQuestions (rowOf learnerTable 2) + 1 ∧
    categoryTotal (Category sampleRecord) (rowOf db' 2)
    = categoryTotal (Category sampleRecord) (rowOf learnerTable 2) + 1.
Proof.
  assert (sampleDataset !! 6 = Some sampleRecord) as H1 by (vm_compute; reflexivity).
  assert (Category sampleRecord ≠ "") as H2 by decide_by_computation.
  assert (holdsCounters (RegionalStats (rowOf learnerTable 2))) as H3
    by (vm_compute; exact I).
  assert (belowMax (TotalQuestions (rowOf learnerTable 2))) as H4
    by (unfold belowMax; decide_by_computation).
  assert (belowMax (categoryTotal (Category sampleRecord) (rowOf learnerTable 2))) as H5
    by (unfold belowMax; decide_by_computation).
  split; [exact H1|]. split; [exact H2|]. split; [exact H3|].
  split; [exact H4|]. split; [exact H5|].
  exact (answer_counted_once sampleDataset learnerTable 2 6 true sampleRecord
           H1 H2 H3 H4 H5).
Defined.

(** At the largest [int] the increment wraps instead. *)
Lemma total_wraps_at_max stat :
  TotalQuestions stat = Int.MaxInt →
  ∀ byID pokemonID isCorrect stat',
    updatedStat byID stat pokemonID isCorrect = Some stat' →
    TotalQuestions stat' = Int.MinInt.
Proof.
  intros Hmax byID pokemonID isCorrect stat' Hs.
  destruct (updatedStat_fields _ _ _ _ _ Hs) as [-> _]. by rewrite Hmax.
Qed.

(** C4: when the missed column decodes without error and the per-category
    column is not [null], recording a correct answer for record id X is
    committed and leaves the missed list with every occurrence of X removed
    and every other element kept, in order; the list is unchanged when X was
    not in it. *)
Theorem correct_answer_removes_only_that_id
    (byID : Dataset) (db : StatTable) (userID : N) (X : Z) :
  wellFormed (WrongAnswers (rowOf db userID)) →
  RegionalStats (rowOf db userID) ≠ Null →
  ∃ db',
    updateUserStats byID db userID X true = Some db' ∧
    missedSet (rowOf db' userID)
    = filter (λ id, id ≠ X) (missedSet (rowOf db userID)) ∧
    (∀ y, y ∈ missedSet (rowOf db' userID)
          ↔ y ∈ missedSet (rowOf db userID) ∧ y ≠ X) ∧
    (X ∉ missedSet (rowOf db userID) →
     missedSet (rowOf db' userID) = missedSet (rowOf db userID)).
Proof.
  intros Hwf Hnull.
  destruct (updatedStat_total byID _ X true Hnull) as [stat' Hs].
  destruct (updateUserStats_commits _ _ _ _ _ _ Hs) as [db' Hdb].
  pose proof (updateUserStats_row _ _ _ _ _ _ Hdb) as Hrow.
  rewrite Hs in Hrow. injection Hrow as Hrow. subst stat'.
  destruct (updatedStat_fields _ _ _ _ _ Hs) as (_ & Hw & _).
  assert (missedSet (rowOf db' userID)
          = filter (λ id, id ≠ X) (missedSet (rowOf db userID))) as Hm.
  { unfold missedSet at 1. rewrite Hw. simpl.
    by rewrite wrongIDs_wellFormed. }
  exists db'. split; [done|]. split; [done|]. split.
  - intros y. rewrite Hm, list_elem_of_filter. tauto.
  - intros Hx. rewrite Hm. apply filter_all, Forall_forall.
    intros y Hy ->. done.
Qed.

Lemma correct_answer_removes_only_that_id_witness :
  wellFormed (WrongAnswers (rowOf learnerTable 2)) ∧
  RegionalStats (rowOf learnerTable 2) ≠ Null ∧
  ∃ db',
    updateUserStats sampleDataset learnerTable 2 6 true = Some db' ∧
    missedSet (rowOf db' 2)
    = filter (λ id, id ≠ 6) (missedSet (rowOf learnerTable 2)) ∧
    (∀ y, y ∈ missedSet (rowOf db' 2)
          ↔ y ∈ missedSet (rowOf learnerTable 2) ∧ y ≠ 6) ∧
    (6 ∉ missedSet (rowOf learnerTable 2) →
     missedSet (rowOf db' 2) = missedSet (rowOf learnerTable 2)).
Proof.
  assert (wellFormed (WrongAnswers (rowOf learnerTable 2))) as H1
    by (vm_compute; exact I).
  assert (RegionalStats (rowOf learnerTable 2) ≠ Null) as H2
    by (vm_compute; discriminate).
  split; [exact H1|]. split; [exact H2|].
  exact (correct_answer_removes_only_that_id sampleDataset learnerTable 2 6 H1 H2).
Defined.

(** C5: recording an incorrect answer for the same record id twice leaves
    the missed list the first recording left, so its size does not change
    after the first addition; the first recording appends the id only when
    the list did not hold it. *)
Theorem repeated_miss_idempotent
    (byID : Dataset) (db : StatTable) (userID : N) (X : Z) :
  RegionalStats (rowOf db userID) ≠ Null →
  ∃ db1 db2,
    updateUserStats byID db userID X false = Some db1 ∧
    updateUserStats byID db1 userID X false = Some db2 ∧
    missedSet (rowOf db2 userID) = missedSet (rowOf db1 userID) ∧
    length (missedSet (rowOf db2 userID)) = length (missedSet (rowOf db1 userID)) ∧
    (wellFormed (WrongAnswers (rowOf db userID)) →
     missedSet (rowOf db1 userID)
     = if bool_decide (X ∈ missedSet (rowOf db userID))
       then missedSet (rowOf db userID)
       else missedSet (rowOf db userID) ++ [X]).
Proof.
  intros Hnull.
  destruct (updatedStat_total byID _ X false Hnull) as [stat1 Hs1].
  destruct (updateUserStats_commits _ _ _ _ _ _ Hs1) as [db1 Hdb1].
  pose proof (updateUserStats_row _ _ _ _ _ _ Hdb1) as Hrow1.
  rewrite Hs1 in Hrow1. injection Hrow1 as Hrow1. subst stat1.
  destruct (updatedStat_fields _ _ _ _ _ Hs1) as (_ & Hw1 & Hnull1).
  destruct (updatedStat_total byID _ X false (Hnull1 Hnull)) as [stat2 Hs2].
  destruct (updateUserStats_commits _ _ _ _ _ _ Hs2) as [db2 Hdb2].
  pose proof (updateUserStats_row _ _ _ _ _ _ Hdb2) as Hrow2.
  rewrite Hs2 in Hrow2. injection Hrow2 as Hrow2. subst stat2.
  destruct (updatedStat_fields _ _ _ _ _ Hs2) as (_ & Hw2 & _).
  assert (missedSet (rowOf db2 userID) = missedSet (rowOf db1 userID)) as Hm.
  { unfold missedSet. rewrite Hw2, Hw1. simpl.
    set (l := wrongIDsStrict (WrongAnswers (rowOf db userID))).
    destruct (decide (X ∈ l)) as [Hin|Hout].
    - rewrite (bool_decide_eq_true_2 (X ∈ l)) by done.
      by rewrite (bool_decide_eq_true_2 (X ∈ l)) by done.
    - rewrite (bool_decide_eq_false_2 (X ∈ l)) by done.
      rewrite bool_decide_eq_true_2; [done|].
      apply elem_of_app. right. left. }
  exists db1, db2. split; [done|]. split; [done|]. split; [done|].
  split; [by rewrite Hm|].
  intros Hwf. unfold missedSet. rewrite Hw1. simpl.
  by rewrite wrongIDs_wellFormed.
Qed.

Lemma repeated_miss_idempotent_witness :
  RegionalStats (rowOf learnerTable 2) ≠ Null ∧
  ∃ db1 db2,
    updateUserStats sampleDataset learnerTable 2 20034 false = Some db1 ∧
    updateUserStats sampleDataset db1 2 20034 false = Some db2 ∧
    missedSet (rowOf db2 2) = missedSet (rowOf db1 2) ∧
    length (missedSet (rowOf db2 2)) = length (missedSet (rowOf db1 2)) ∧
    wellFormed (WrongAnswers (rowOf learnerTable 2)) ∧
    missedSet (rowOf db1 2)
    = if bool_decide (20034 ∈ missedSet (rowOf learnerTable 2))
      then missedSet (rowOf learnerTable 2)
      else missedSet (rowOf learnerTable 2) ++ [20034].
Proof.
  assert (RegionalStats (rowOf learnerTable 2) ≠ Null) as H1
    by (vm_compute; discriminate).
  assert (wellFormed (WrongAnswers (rowOf learnerTable 2))) as H2
    by (vm_compute; exact I).
  split; [exact H1|].
  destruct (repeated_miss_idempotent sampleDataset learnerTable 2 20034 H1)
    as (db1 & db2 & Hfirst & Hsecond & Hsame & Hlen & Hadded).
  exists db1, db2. split; [exact Hfirst|]. split; [exact Hsecond|].
  split; [exact Hsame|]. split; [exact Hlen|]. split; [exact H2|exact (Hadded H2)].
Defined.

(** ** Legacy migration *)

Lemma migrate_fold (wrongIDs : list Z) (l : list (Z * Pokemon)) (c : string) :
  c ≠ "" →
  Z.of_nat (length l) ≤ Int.MaxInt →
  foldl (migrateStep (list_to_set wrongIDs)) ∅ l !! c
  = counterOf (length (filter (missedAndIn wrongIDs c) l)).
Proof.
  intros Hc. induction l as [|[id p] l IH] using rev_ind; intros Hlen; [done|].
  rewrite length_app in Hlen. simpl in Hlen.
  rewrite foldl_app, filter_app, length_app. simpl.
  specialize (IH ltac:(lia)).
  pose proof (length_filter (missedAndIn wrongIDs c) l) as Hle.
  set (n := length (filter (missedAndIn wrongIDs c) l)) in *.
  unfold migrateStep at 1.
  destruct (decide (Category p = "")) as [He|He].
  { rewrite filter_cons_False, filter_nil by (intros [_ ?]; simpl in *; congruence).
    simpl. by rewrite Nat.add_0_r. }
  destruct (decide (id ∈ (list_to_set wrongIDs : gset Z))) as [Hin|Hout].
  - apply elem_of_list_to_set in Hin.
    destruct (decide (Category p = c)) as [<-|Hne].
    + rewrite filter_cons_True, filter_nil by done. simpl.
      rewrite lookup_insert_eq, IH. replace (n + 1)%nat with (S n) by lia.
      unfold counterOf at 2. f_equal.
      assert (Int.incr (Z.of_nat n) = Z.of_nat (S n)) as Hincr.
      { rewrite incr_in_range; [lia|]. unfold Int.MinInt, Int.MaxInt in *. lia. }
      destruct n; simpl default; cbn [Total Correct zeroDetail].
      * by rewrite (Hincr : Int.incr 0 = _).
      * by rewrite Hincr.
    + rewrite filter_cons_False, filter_nil by (intros [_ ?]; done).
      rewrite lookup_insert_ne by done. simpl. by rewrite Nat.add_0_r.
  - rewrite filter_cons_False, filter_nil.
    + simpl. by rewrite Nat.add_0_r.
    + intros [Hin _]. apply Hout. by apply elem_of_list_to_set.
Qed.

Lemma migrate_fold_uncategorised (wrongSet : gset Z) (l : list (Z * Pokemon)) :
  foldl (migrateStep wrongSet) ∅ l !! "" = None.
Proof.
  induction l as [|[id p] l IH] using rev_ind; [done|].
  rewrite foldl_app. simpl. unfold migrateStep at 1.
  repeat case_decide; try done. by rewrite lookup_insert_ne.
Qed.

Lemma migrate_counts rangeMap byID stat c :
  rangeMap byID ≡ₚ map_to_list byID →
  Z.of_nat (size byID) ≤ Int.MaxInt →
  c ≠ "" →
  migrateRegionalStatsFromWrongAnswers rangeMap byID stat !! c
  = counterOf (missedCount byID (missedSet stat) c).
Proof.
  intros Hperm Hsize Hc. unfold migrateRegionalStatsFromWrongAnswers, missedCount.
  rewrite migrate_fold.
  - unfold missedSet. by rewrite Hperm.
  - done.
  - rewrite Hperm. by rewrite length_map_to_list.
Qed.

(** C9: when a stats read finds an empty per-category map and a positive
    total-answered count in a row whose missed column stores the list
    [wrongIDs], it replies with the migrated counters and leaves the stat
    table as it was.  For each category the migrated map holds an entry
    exactly when some dataset record whose id is in [wrongIDs] carries that
    category, with total the number of such records and correct count 0;
    records without a category contribute nothing.  The counters depend on
    the row only through the stored list, and reading again gives the same
    reply. *)
Theorem legacy_migration_counts
    (rangeMap : Dataset → list (Z * Pokemon)) (byID : Dataset)
    (db : StatTable) (userID : N) (userStat : UserStat) (wrongIDs : list Z) :
  rangeMap byID ≡ₚ map_to_list byID →
  Z.of_nat (size byID) ≤ Int.MaxInt →
  db !! userID = Some userStat →
  size (regionalStatsLenient (RegionalStats userStat)) = 0%nat →
  0 < TotalQuestions userStat →
  WrongAnswers userStat = Json wrongIDs →
  ∃ migrated,
    handleGetStats rangeMap byID db userID
    = (db, Reply (StoredStats (TotalQuestions userStat) (TotalCorrect userStat)
                    (Json wrongIDs) migrated)) ∧
    (∀ c, c ≠ "" → migrated !! c = counterOf (missedCount byID wrongIDs c)) ∧
    migrated !! "" = None ∧
    (∀ other, WrongAnswers other = Json wrongIDs →
       migrateRegionalStatsFromWrongAnswers rangeMap byID other = migrated) ∧
    handleGetStats rangeMap byID (handleGetStats rangeMap byID db userID).1 userID
    = handleGetStats rangeMap byID db userID.
Proof.
  intros Hperm Hsize Hrow Hempty Hpos Hcolumn.
  assert (missedSet userStat = wrongIDs) as Hmissed
    by (unfold missedSet; by rewrite Hcolumn).
  rewrite <- Hcolumn, <- Hmissed.
  exists (migrateRegionalStatsFromWrongAnswers rangeMap byID userStat).
  assert (handleGetStats rangeMap byID db userID
          = (db, Reply (StoredStats (TotalQuestions userStat) (TotalCorrect userStat)
                          (WrongAnswers userStat)
                          (migrateRegionalStatsFromWrongAnswers rangeMap byID userStat))))
    as Hread.
  { unfold handleGetStats. rewrite Hrow.
    rewrite bool_decide_eq_true_2 by done.
    by rewrite (proj2 (Z.ltb_lt _ _) Hpos). }
  split; [exact Hread|]. split; [|split; [|split]].
  - intros c Hc. by apply migrate_counts.
  - apply migrate_fold_uncategorised.
  - intros other Hother. unfold migrateRegionalStatsFromWrongAnswers.
    by rewrite Hother.
  - by rewrite Hread.
Qed.

Lemma legacy_migration_counts_witness :
  map_to_list sampleDataset ≡ₚ map_to_list sampleDataset ∧
  Z.of_nat (size sampleDataset) ≤ Int.MaxInt ∧
  legacyTable !! 3%N = Some legacyStat ∧
  size (regionalStatsLenient (RegionalStats legacyStat)) = 0%nat ∧
  0 < TotalQuestions legacyStat ∧
  WrongAnswers legacyStat = Json [20035; 6; 999; 20034; 6] ∧
  ∃ migrated,
    handleGetStats map_to_list sampleDataset legacyTable 3
    = (legacyTable,
       Reply (StoredStats (TotalQuestions legacyStat) (TotalCorrect legacyStat)
                (Json [20035; 6; 999; 20034; 6]) migrated)) ∧
    (∀ c, c ≠ "" →
       migrated !! c
       = counterOf (missedCount sampleDataset [20035; 6; 999; 20034; 6] c)) ∧
    migrated !! "" = None ∧
    (∀ other, WrongAnswers other = Json [20035; 6; 999; 20034; 6] →
       migrateRegionalStatsFromWrongAnswers map_to_list sampleDataset other = migrated) ∧
    handleGetStats map_to_list sampleDataset
      (handleGetStats map_to_list sampleDataset legacyTable 3).1 3
    = handleGetStats map_to_list sampleDataset legacyTable 3.
Proof.
  assert (map_to_list sampleDataset ≡ₚ map_to_list sampleDataset) as H1 by reflexivity.
  assert (Z.of_nat (size sampleDataset) ≤ Int.MaxInt) as H2 by decide_by_computation.
  assert (legacyTable !! 3%N = Some legacyStat) as H3 by (vm_compute; reflexivity).
  assert (size (regionalStatsLenient (RegionalStats legacyStat)) = 0%nat) as H4
    by (vm_compute; reflexivity).
  assert (0 < TotalQuestions legacyStat) as H5 by (simpl; lia).
  assert (WrongAnswers legacyStat = Json [20035; 6; 999; 20034; 6]) as H6
    by reflexivity.
  split; [exact H1|]. split; [exact H2|]. split; [exact H3|].
  split; [exact H4|]. split; [exact H5|]. split; [exact H6|].
  exact (legacy_migration_counts map_to_list sampleDataset legacyTable 3 legacyStat
           [20035; 6; 999; 20034; 6] H1 H2 H3 H4 H5 H6).
Defined.

(** The migrated counters of the legacy user over the sample dataset: the
    two missed mega forms and the missed base form, nothing for the stale
    id, nothing on the correct side. *)
Example legacy_migration_sample :
  map_to_list (migrateRegionalStatsFromWrongAnswers map_to_list sampleDataset legacyStat)
  ≡ₚ [("kanto", {| Total := 1; Correct := 0 |}); ("mega", {| Total := 2; Correct := 0 |})].
Proof. vm_compute. reflexivity. Qed.

(** ** Classification *)

Lemma prefix_app_l (x y s : string) :
  String.prefix (x +:+ y) s = true → String.prefix x s = true.
Proof.
  revert s. induction x as [|a x IH]; intros s; [by destruct s|].
  destruct s as [|b s]; simpl; [done|].
  destruct (Ascii.ascii_dec a b); [apply IH|done].
Qed.

Lemma Contains_app_l (s x y : string) :
  Strings.Contains s (x +:+ y) = true → Strings.Contains s x = true.
Proof.
  induction s as [|a s IH]; cbn [Strings.Contains].
  - rewrite !orb_false_r. apply prefix_app_l.
  - intros [H|H]%orb_true_iff; apply orb_true_iff.
    + left. by eapply prefix_app_l.
    + right. by apply IH.
Qed.

Example Contains_mega : Strings.Contains "charizard-mega-x" "-mega" = true.
Proof. reflexivity. Qed.

Example Contains_none : Strings.Contains "charizard" "-mega" = false.
Proof. reflexivity. Qed.

Example speciesID_sample : speciesID charizardSpeciesURL = Some 6.
Proof. reflexivity. Qed.

(** The builder reads the same category off a variety name as pass 1 reads
    off a source name. *)
Lemma varietyCategory_nameCategory (vName : string) :
  varietyCategory vName = nameCategory vName.
Proof.
  unfold varietyCategory, nameCategory.
  destruct (Strings.Contains vName "-mega") eqn:Hmega; [done|].
  assert (Strings.Contains vName "-mega-x" = false) as ->.
  { apply not_true_is_false. intros H.
    apply (Contains_app_l vName "-mega" "-x") in H. congruence. }
  assert (Strings.Contains vName "-mega-y" = false) as ->.
  { apply not_true_is_false. intros H.
    apply (Contains_app_l vName "-mega" "-y") in H. congruence. }
  done.
Qed.

Lemma nameCategory_special (englishName c : string) :
  nameCategory englishName = Some c → c = "mega" ∨ c = "gmax" ∨ c = "regional".
Proof.
  unfold nameCategory. repeat case_match; intros [= <-]; auto.
Qed.

Lemma classifyByName_nameCategory (p : Pokemon) :
  classifyByName p =
  match nameCategory (EnglishName p) with
  | Some c => withCategory p c
  | None => p
  end.
Proof. unfold classifyByName, nameCategory. by repeat case_match. Qed.

Lemma withCategory_same (p : Pokemon) : withCategory p (Category p) = p.
Proof. by destruct p. Qed.

Lemma assignRegion_keeps region (m : Dataset) species id p :
  m !! id = Some p → Category p ≠ "" →
  assignRegion region m species !! id = Some p.
Proof.
  intros Hp Hc. unfold assignRegion.
  destruct (speciesID (PokeAPI.URL species)) as [id'|]; [|done].
  destruct (m !! id') as [p'|] eqn:Hp'; [|done].
  case_decide as He; [|done].
  rewrite lookup_insert_ne; [done|]. intros ->. congruence.
Qed.

Lemma classifyGeneration_keeps api (m : Dataset) entry id p :
  m !! id = Some p → Category p ≠ "" →
  classifyGeneration api m entry !! id = Some p.
Proof.
  intros Hp Hc. unfold classifyGeneration. destruct entry as [region genID].
  case_match; [done|].
  destruct (PokeAPI.getGeneration api genID) as [apiGeneration|]; [|done].
  revert m Hp. induction (PokeAPI.PokemonSpecies apiGeneration) as [|sp l IH];
    intros m Hp; simpl; [done|].
  apply IH. by apply assignRegion_keeps.
Qed.

Lemma generationPass_keeps api regions (m : Dataset) id p :
  m !! id = Some p → Category p ≠ "" →
  generationPass api regions m !! id = Some p.
Proof.
  intros Hp Hc. unfold generationPass. revert m Hp.
  induction regions as [|entry regions IH]; intros m Hp; simpl; [done|].
  apply IH. by apply classifyGeneration_keeps.
Qed.

(** The record [fetchAndAddVariety] stores: under the provider's id moved up
    by 10000, with the category it was called with. *)
Lemma fetchAndAddVariety_record api typeNameMap name category (m : Dataset)
    apiPokemon apiSpecies :
  ¬ map_Exists (λ _ p, EnglishName p = name) m →
  PokeAPI.getPokemonByName api name = Some apiPokemon →
  PokeAPI.getSpeciesByURL api (PokeAPI.SpeciesURL apiPokemon) = Some apiSpecies →
  ∃ p,
    fetchAndAddVariety api typeNameMap name category m
    = <[Int.add (PokeAPI.ID apiPokemon) 10000 := p]> m ∧
    ID p = Int.add (PokeAPI.ID apiPokemon) 10000 ∧
    Category p = category ∧
    EnglishName p = PokeAPI.Name apiPokemon ∧
    Name p = Name (buildPokemon typeNameMap apiPokemon apiSpecies).
Proof.
  intros Hfresh Hpokemon Hspecies. unfold fetchAndAddVariety.
  rewrite bool_decide_eq_false_2 by done. rewrite Hpokemon, Hspecies.
  eexists. split; [reflexivity|]. done.
Qed.

(** The display name comes from the species record alone whenever that
    record has a Japanese name: two forms of one species get one name. *)
Lemma buildPokemon_name_of_species typeNameMap apiPokemon apiPokemon' apiSpecies :
  firstName "ja" (PokeAPI.Names apiSpecies) ≠ "" →
  Name (buildPokemon typeNameMap apiPokemon apiSpecies)
  = Name (buildPokemon typeNameMap apiPokemon' apiSpecies).
Proof.
  intros Hja. unfold buildPokemon. simpl.
  by rewrite !(decide_False (P := firstName "ja" _ = "")) by done.
Qed.

(** ** What the builder stores *)

Lemma fetchAndAddVariety_fetched P api typeNameMap id species variety category
    (m : Dataset) :
  storesFetched api typeNameMap P →
  1 ≤ id ≤ MAX_POKEMON_ID →
  is_Some (PokeAPI.getPokemon api id) →
  PokeAPI.getSpecies api id = Some species →
  variety ∈ PokeAPI.Varieties species →
  PokeAPI.IsDefault variety = false →
  varietyCategory (PokeAPI.PokemonName variety) = Some category →
  P m →
  P (fetchAndAddVariety api typeNameMap (PokeAPI.PokemonName variety) category m).
Proof.
  intros HP Hid Hbase Hspecies Hin Hdefault Hcategory Hm. unfold fetchAndAddVariety.
  case_bool_decide; [done|].
  destruct (PokeAPI.getPokemonByName api _) as [apiPokemon|] eqn:Hpokemon; [|done].
  destruct (PokeAPI.getSpeciesByURL api _) as [apiSpecies|] eqn:Hform; [|done].
  apply (HP m (withID (withCategory (buildPokemon typeNameMap apiPokemon apiSpecies)
                         category) (Int.add (PokeAPI.ID apiPokemon) 10000)));
    [done|].
  right. by exists id, species, variety, category, apiPokemon, apiSpecies.
Qed.

Lemma addVarieties_fetched P api typeNameMap id species (l : list PokeAPI.Variety)
    (m : Dataset) :
  storesFetched api typeNameMap P →
  1 ≤ id ≤ MAX_POKEMON_ID →
  is_Some (PokeAPI.getPokemon api id) →
  PokeAPI.getSpecies api id = Some species →
  (∀ v, v ∈ l → v ∈ PokeAPI.Varieties species) →
  P m →
  P (foldl (addVariety api typeNameMap) m l).
Proof.
  intros HP Hid Hbase Hspecies. revert m.
  induction l as [|v l IH]; intros m Hl Hm; [done|].
  simpl. apply IH; [intros v' Hv'; apply Hl; by right|].
  unfold addVariety.
  destruct (PokeAPI.IsDefault v) eqn:Hdefault; [done|].
  destruct (varietyCategory (PokeAPI.PokemonName v)) as [c|] eqn:Hc; [|done].
  eapply fetchAndAddVariety_fetched; eauto. apply Hl. left.
Qed.

Lemma fetchOne_fetched P api typeNameMap (m : Dataset) id :
  storesFetched api typeNameMap P →
  1 ≤ id ≤ MAX_POKEMON_ID →
  P m → P (fetchOne api typeNameMap m id).
Proof.
  intros HP Hid Hm. unfold fetchOne.
  destruct (PokeAPI.getPokemon api id) as [apiPokemon|] eqn:Hpokemon; [|done].
  destruct (PokeAPI.getSpecies api id) as [apiSpecies|] eqn:Hspecies; [|done].
  eapply addVarieties_fetched; eauto.
  apply (HP m (buildPokemon typeNameMap apiPokemon apiSpecies)); [done|].
  left. by exists id, apiPokemon, apiSpecies.
Qed.

Lemma fetchAll_fetched P api typeNameMap (ids : list Z) (m : Dataset) :
  storesFetched api typeNameMap P →
  (∀ id, id ∈ ids → 1 ≤ id ≤ MAX_POKEMON_ID) →
  P m → P (foldl (fetchOne api typeNameMap) m ids).
Proof.
  intros HP. revert m. induction ids as [|id ids IH]; intros m Hids Hm; [done|].
  simpl. apply IH; [intros id' Hid'; apply Hids; by right|].
  apply fetchOne_fetched; [done| |done]. apply Hids. left.
Qed.

Lemma requested_ids id : id ∈ seqZ 1 MAX_POKEMON_ID ↔ 1 ≤ id ≤ MAX_POKEMON_ID.
Proof. rewrite elem_of_seqZ. unfold MAX_POKEMON_ID. lia. Qed.

Lemma fetchAllPokemonData_fold api typeNameMap typeNameMap' (m m' : Dataset) :
  fetchAllPokemonData api typeNameMap m = Some (typeNameMap', m') →
  loadTypeNames api typeNameMap = Some typeNameMap' ∧
  ∃ ids, (∀ id, id ∈ ids ↔ 1 ≤ id ≤ MAX_POKEMON_ID) ∧
         m' = foldl (fetchOne api typeNameMap') m ids.
Proof.
  unfold fetchAllPokemonData. pose proof requested_ids as Hids. revert Hids.
  generalize (seqZ 1 MAX_POKEMON_ID). intros ids Hids.
  destruct (loadTypeNames api typeNameMap) as [t|]; [|done].
  intros [= <- <-]. split; [done|]. by exists ids.
Qed.

Lemma fetchedOnly_stores api typeNameMap :
  storesFetched api typeNameMap (fetchedOnly api typeNameMap).
Proof.
  intros m q Hm Hq k q' [[<- <-]|[_ Hk]]%lookup_insert_Some; [done|by apply Hm].
Qed.

Lemma present_stores api typeNameMap (k : Z) :
  storesFetched api typeNameMap (λ m, is_Some (m !! k)).
Proof.
  intros m q Hm _. destruct (decide (ID q = k)) as [->|Hne].
  - rewrite lookup_insert_eq. eauto.
  - by rewrite lookup_insert_ne.
Qed.

Lemma fetchOne_stores_base api typeNameMap (m : Dataset) id apiPokemon apiSpecies :
  1 ≤ id ≤ MAX_POKEMON_ID →
  PokeAPI.getPokemon api id = Some apiPokemon →
  PokeAPI.getSpecies api id = Some apiSpecies →
  is_Some (fetchOne api typeNameMap m id !! PokeAPI.ID apiPokemon).
Proof.
  intros Hid Hpokemon Hspecies. unfold fetchOne. rewrite Hpokemon, Hspecies.
  cbv zeta. change (ID (buildPokemon typeNameMap apiPokemon apiSpecies))
    with (PokeAPI.ID apiPokemon).
  apply (addVarieties_fetched (λ m0, is_Some (m0 !! PokeAPI.ID apiPokemon))
           api typeNameMap id apiSpecies);
    [apply present_stores|done|by rewrite Hpokemon|done|done|].
  rewrite lookup_insert_eq. eauto.
Qed.

Lemma fetchAll_stores_base api typeNameMap (ids : list Z) (m : Dataset)
    id apiPokemon apiSpecies :
  (∀ id, id ∈ ids → 1 ≤ id ≤ MAX_POKEMON_ID) →
  id ∈ ids →
  PokeAPI.getPokemon api id = Some apiPokemon →
  PokeAPI.getSpecies api id = Some apiSpecies →
  is_Some (foldl (fetchOne api typeNameMap) m ids !! PokeAPI.ID apiPokemon).
Proof.
  intros Hids Hin Hpokemon Hspecies.
  apply list_elem_of_split in Hin as (l1 & l2 & ->).
  rewrite foldl_app. simpl.
  apply (fetchAll_fetched (λ m0, is_Some (m0 !! PokeAPI.ID apiPokemon))).
  - apply present_stores.
  - intros id' Hid'. apply Hids. apply elem_of_app. right. by right.
  - apply fetchOne_stores_base with (apiSpecies := apiSpecies); [|done|done].
    apply Hids. apply elem_of_app. right. left.
Qed.

Lemma addVariety_stores api typeNameMap (m : Dataset) variety category
    apiPokemon apiSpecies :
  fetchedOnly api typeNameMap m → answersByName api → formsApart api →
  PokeAPI.IsDefault variety = false →
  varietyCategory (PokeAPI.PokemonName variety) = Some category →
  PokeAPI.getPokemonByName api (PokeAPI.PokemonName variety) = Some apiPokemon →
  PokeAPI.getSpeciesByURL api (PokeAPI.SpeciesURL apiPokemon) = Some apiSpecies →
  is_Some (addVariety api typeNameMap m variety !! Int.add (PokeAPI.ID apiPokemon) 10000).
Proof.
  intros Hm Hname [_ Hplain] Hdefault Hcategory Hpokemon Hspecies.
  unfold addVariety. rewrite Hdefault, Hcategory. unfold fetchAndAddVariety.
  case_bool_decide as Hex.
  - destruct Hex as (k & q & Hk & Hq).
    destruct (Hm k q Hk) as [Hkey [Hbase|Hvariety]].
    + destruct Hbase as (id' & apiPokemon' & apiSpecies' & _ & Hpokemon' & _ & ->).
      exfalso. simpl in Hq. specialize (Hplain id' apiPokemon' Hpokemon').
      rewrite Hq in Hplain. congruence.
    + destruct Hvariety as (id' & species' & variety' & category' & apiPokemon'
                            & apiSpecies' & _ & _ & _ & _ & _ & _ & Hpokemon' & _ & ->).
      simpl in Hq, Hkey. rewrite (Hname _ _ Hpokemon') in Hq.
      rewrite Hq, Hpokemon in Hpokemon'. injection Hpokemon' as <-.
      rewrite Hkey, Hk. eauto.
  - rewrite Hpokemon, Hspecies. cbv zeta.
    change (ID (withID _ ?i)) with i. rewrite lookup_insert_eq. eauto.
Qed.

Lemma fetchOne_stores_variety api typeNameMap (m : Dataset) id species variety category
    apiPokemon apiSpecies :
  fetchedOnly api typeNameMap m → answersByName api → formsApart api →
  1 ≤ id ≤ MAX_POKEMON_ID →
  is_Some (PokeAPI.getPokemon api id) →
  PokeAPI.getSpecies api id = Some species →
  variety ∈ PokeAPI.Varieties species →
  PokeAPI.IsDefault variety = false →
  varietyCategory (PokeAPI.PokemonName variety) = Some category →
  PokeAPI.getPokemonByName api (PokeAPI.PokemonName variety) = Some apiPokemon →
  PokeAPI.getSpeciesByURL api (PokeAPI.SpeciesURL apiPokemon) = Some apiSpecies →
  is_Some (fetchOne api typeNameMap m id !! Int.add (PokeAPI.ID apiPokemon) 10000).
Proof.
  intros Hm Hname Hapart Hid Hbase Hspecies Hin Hdefault Hcategory Hpokemon Hform.
  unfold fetchOne.
  destruct (PokeAPI.getPokemon api id) as [base|] eqn:Hget;
    [|by destruct Hbase as [? [=]]].
  rewrite Hspecies. cbv zeta.
  destruct (list_elem_of_split _ _ Hin) as (l1 & l2 & Hsplit).
  rewrite Hsplit, foldl_app. simpl.
  assert (∀ v, v ∈ l1 → v ∈ PokeAPI.Varieties species) as Hl1
    by (intros v Hv; rewrite Hsplit; apply elem_of_app; by left).
  assert (∀ v, v ∈ l2 → v ∈ PokeAPI.Varieties species) as Hl2
    by (intros v Hv; rewrite Hsplit; apply elem_of_app; right; by right).
  apply (addVarieties_fetched
           (λ m0, is_Some (m0 !! Int.add (PokeAPI.ID apiPokemon) 10000))
           api typeNameMap id species l2);
    [apply present_stores|done|by rewrite Hget|done|done|].
  eapply addVariety_stores; eauto.
  apply (addVarieties_fetched (fetchedOnly api typeNameMap)
           api typeNameMap id species l1);
    [apply fetchedOnly_stores|done|by rewrite Hget|done|done|].
  apply fetchedOnly_stores; [done|]. left. by exists id, base, species.
Qed.

Lemma fetchAll_stores_variety api typeNameMap (ids : list Z) (m : Dataset)
    id species variety category apiPokemon apiSpecies :
  fetchedOnly api typeNameMap m → answersByName api → formsApart api →
  (∀ id, id ∈ ids → 1 ≤ id ≤ MAX_POKEMON_ID) →
  id ∈ ids →
  is_Some (PokeAPI.getPokemon api id) →
  PokeAPI.getSpecies api id = Some species →
  variety ∈ PokeAPI.Varieties species →
  PokeAPI.IsDefault variety = false →
  varietyCategory (PokeAPI.PokemonName variety) = Some category →
  PokeAPI.getPokemonByName api (PokeAPI.PokemonName variety) = Some apiPokemon →
  PokeAPI.getSpeciesByURL api (PokeAPI.SpeciesURL apiPokemon) = Some apiSpecies →
  is_Some (foldl (fetchOne api typeNameMap) m ids
           !! Int.add (PokeAPI.ID apiPokemon) 10000).
Proof.
  intros Hm Hname Hapart Hids Hin Hbase Hspecies Hv Hdefault Hcategory Hpokemon Hform.
  apply list_elem_of_split in Hin as (l1 & l2 & ->).
  rewrite foldl_app. simpl.
  apply (fetchAll_fetched
           (λ m0, is_Some (m0 !! Int.add (PokeAPI.ID apiPokemon) 10000))).
  - apply present_stores.
  - intros id' Hid'. apply Hids. apply elem_of_app. right. by right.
  - eapply fetchOne_stores_variety; eauto.
    + apply fetchAll_fetched; [apply fetchedOnly_stores| |done].
      intros id' Hid'. apply Hids. apply elem_of_app. by left.
    + apply Hids. apply elem_of_app. right. left.
Qed.

Lemma fetchedOnly_empty api typeNameMap : fetchedOnly api typeNameMap ∅.
Proof. intros k q Hk. by rewrite lookup_empty in Hk. Qed.

(** A full fetch into the empty dataset gives what the provider answers. *)
Lemma fetchAllPokemonData_rebuilt api typeNameMap typeNameMap' (m' : Dataset) :
  fetchAllPokemonData api typeNameMap ∅ = Some (typeNameMap', m') →
  rebuiltFrom api typeNameMap' m'.
Proof.
  intros (_ & ids & Hids & ->)%fetchAllPokemonData_fold.
  assert (∀ id, id ∈ ids → 1 ≤ id ≤ MAX_POKEMON_ID) as Hrange
    by (intros id; apply Hids).
  assert (fetchedOnly api typeNameMap' (foldl (fetchOne api typeNameMap') ∅ ids))
    as Hfetched.
  { apply fetchAll_fetched; [apply fetchedOnly_stores|done|apply fetchedOnly_empty]. }
  assert (∀ id apiPokemon apiSpecies,
            1 ≤ id ≤ MAX_POKEMON_ID →
            PokeAPI.getPokemon api id = Some apiPokemon →
            PokeAPI.getSpecies api id = Some apiSpecies →
            is_Some (foldl (fetchOne api typeNameMap') ∅ ids !! PokeAPI.ID apiPokemon))
    as Hpresent.
  { intros id apiPokemon apiSpecies Hid Hpokemon Hspecies.
    eapply fetchAll_stores_base; eauto. by apply Hids. }
  split; [done|]. split; [done|].
  intros HbyID HbyName Hapart. split.
  - intros id Hid.
    destruct (foldl (fetchOne api typeNameMap') ∅ ids !! id) as [q|] eqn:Hq.
    + destruct (Hfetched id q Hq) as [Hkey [Hbase|Hvariety]].
      * destruct Hbase as (id' & apiPokemon & apiSpecies & _ & Hpokemon & Hspecies & ->).
        simpl in Hkey. rewrite (HbyID _ _ Hpokemon) in Hkey. subst id'.
        by rewrite Hpokemon, Hspecies.
      * destruct Hvariety as (id' & species' & variety' & category' & apiPokemon'
                              & apiSpecies' & _ & _ & _ & _ & _ & _ & Hpokemon' & _ & ->).
        simpl in Hkey. exfalso. apply (proj1 Hapart _ _ Hpokemon').
        by rewrite Hkey.
    + destruct (PokeAPI.getPokemon api id) as [apiPokemon|] eqn:Hpokemon; [|done].
      destruct (PokeAPI.getSpecies api id) as [apiSpecies|] eqn:Hspecies; [|done].
      destruct (Hpresent id apiPokemon apiSpecies Hid Hpokemon Hspecies) as [q Hq'].
      rewrite (HbyID _ _ Hpokemon) in Hq'. congruence.
  - intros id species variety category apiPokemon apiSpecies Hid Hbase Hspecies
      Hv Hdefault Hcategory Hpokemon Hform.
    eapply fetchAll_stores_variety; eauto using fetchedOnly_empty. by apply Hids.
Qed.

(** C7, as amended: the generation-membership pass leaves every record
    with a non-empty category as it is; every record whose source name
    matches a special-form pattern holds that pattern's category (mega, gmax
    or regional) after classification, whatever it held before; and every
    record with a non-empty category of a dataset the builder fetched ends
    classification with a special category, never with a region, and with
    the category the builder gave it whenever the provider answers a
    by-name request with a record of that name.  None of this depends on the
    generation lists the provider returns. *)
Theorem classification_keeps_special
    (api : PokeAPI.Provider) (regions : list (string * Z)) (m : Dataset)
    (id : Z) (p : Pokemon) :
  m !! id = Some p →
  (Category p ≠ "" → generationPass api regions m !! id = Some p) ∧
  (∀ c, nameCategory (EnglishName p) = Some c →
        fetchCategoryData api regions m !! id = Some (withCategory p c)) ∧
  (∀ typeNameMap typeNameMap',
     fetchAllPokemonData api typeNameMap ∅ = Some (typeNameMap', m) →
     Category p ≠ "" →
     ∃ c, fetchCategoryData api regions m !! id = Some (withCategory p c) ∧
          (c = "mega" ∨ c = "gmax" ∨ c = "regional") ∧
          (answersByName api → c = Category p)).
Proof.
  intros Hp.
  assert (∀ c, nameCategory (EnglishName p) = Some c →
            fetchCategoryData api regions m !! id = Some (withCategory p c)) as Hname.
  { intros c Hc. unfold fetchCategoryData. apply generationPass_keeps.
    - rewrite lookup_fmap, Hp. simpl. by rewrite classifyByName_nameCategory, Hc.
    - simpl. by destruct (nameCategory_special _ _ Hc) as [->|[->| ->]]. }
  split; [|split].
  - intros Hc. by apply generationPass_keeps.
  - exact Hname.
  - intros typeNameMap typeNameMap' Hfetch Hc.
    destruct (fetchAllPokemonData_rebuilt _ _ _ _ Hfetch) as (Hfetched & _).
    destruct (Hfetched id p Hp) as [_ [Hbase|Hvariety]].
    { destruct Hbase as (id' & apiPokemon & apiSpecies & _ & _ & _ & ->). done. }
    destruct Hvariety as (id' & species & variety & category & apiPokemon & apiSpecies
                          & _ & _ & _ & _ & _ & Hcategory & Hpokemon & _ & Hrecord).
    assert (Category p = category) as Hcat by (by rewrite Hrecord).
    assert (EnglishName p = PokeAPI.Name apiPokemon) as Henglish by (by rewrite Hrecord).
    rewrite varietyCategory_nameCategory in Hcategory.
    destruct (nameCategory (EnglishName p)) as [c|] eqn:Hown.
    + exists c. split; [by apply Hname|]. split; [by eapply nameCategory_special|].
      intros HbyName. rewrite Henglish, (HbyName _ _ Hpokemon) in Hown. congruence.
    + exists (Category p). split; [|split; [|done]].
      * rewrite withCategory_same. unfold fetchCategoryData. apply generationPass_keeps.
        -- rewrite lookup_fmap, Hp. simpl. by rewrite classifyByName_nameCategory, Hown.
        -- done.
      * rewrite Hcat. by eapply nameCategory_special.
Qed.

Lemma classification_keeps_special_witness :
  builtDataset !! 20034 = Some megaRecord ∧
  (Category megaRecord ≠ "" ∧
   generationPass sampleAPI (map_to_list regionGenerationMap) builtDataset !! 20034
   = Some megaRecord) ∧
  (nameCategory (EnglishName megaRecord) = Some "mega" ∧
   fetchCategoryData sampleAPI (map_to_list regionGenerationMap) builtDataset !! 20034
   = Some (withCategory megaRecord "mega")) ∧
  (fetchAllPokemonData sampleAPI ∅ ∅ = Some ({[ "fire" := "ほのお" ]}, builtDataset) ∧
   answersByName sampleAPI ∧
   ∃ c, fetchCategoryData sampleAPI (map_to_list regionGenerationMap) builtDataset
        !! 20034 = Some (withCategory megaRecord c) ∧
        (c = "mega" ∨ c = "gmax" ∨ c = "regional") ∧
        c = Category megaRecord).
Proof.
  assert (builtDataset !! 20034 = Some megaRecord) as H1 by (vm_compute; reflexivity).
  destruct (classification_keeps_special sampleAPI (map_to_list regionGenerationMap)
              builtDataset 20034 megaRecord H1) as (Hgen & Hname & Hbuilt).
  assert (Category megaRecord ≠ "") as H2 by decide_by_computation.
  assert (nameCategory (EnglishName megaRecord) = Some "mega") as H3
    by (vm_compute; reflexivity).
  assert (fetchAllPokemonData sampleAPI ∅ ∅ = Some ({[ "fire" := "ほのお" ]}, builtDataset))
    as H4 by (vm_compute; reflexivity).
  assert (answersByName sampleAPI) as H5.
  { intros name apiPokemon. unfold sampleAPI. cbn [PokeAPI.getPokemonByName].
    destruct (decide (name = "charizard-mega-x")) as [->|_]; [by intros [= <-]|].
    destruct (decide (name = "charizard-mega-y")) as [->|_]; [by intros [= <-]|].
    intros Hnone. discriminate Hnone. }
  split; [exact H1|]. split; [split; [exact H2|exact (Hgen H2)]|].
  split; [split; [exact H3|exact (Hname "mega" H3)]|].
  split; [exact H4|]. split; [exact H5|].
  destruct (Hbuilt _ _ H4 H2) as (c & Hc & Hspecial & Hown).
  exists c. split; [exact Hc|]. split; [exact Hspecial|exact (Hown H5)].
Defined.

(** A builder record whose by-name answer carries another form's name: the
    builder stored it under gmax, the category read off the requested name,
    and classification replaces that category by mega, the one read off the
    answered name. *)
Lemma builder_category_replaced :
  fetchAllPokemonData aliasAPI ∅ ∅ = Some ({[ "fire" := "ほのお" ]}, aliasDataset) ∧
  aliasDataset !! 20195 = Some aliasRecord ∧
  Category aliasRecord = "gmax" ∧
  fetchCategoryData aliasAPI (map_to_list regionGenerationMap) aliasDataset !! 20195
  = Some (withCategory aliasRecord "mega") ∧
  fetchCategoryData aliasAPI (map_to_list regionGenerationMap) aliasDataset !! 20195
  ≠ Some aliasRecord.
Proof.
  split; [vm_compute; reflexivity|]. split; [vm_compute; reflexivity|].
  split; [vm_compute; reflexivity|]. split; [vm_compute; reflexivity|].
  intros H. vm_compute in H. discriminate H.
Qed.

(** ** Cache *)

Lemma incomplete_spec (p : Pokemon) : incomplete p = true ↔ lacksRequiredField p.
Proof.
  unfold incomplete, lacksRequiredField.
  rewrite !orb_true_iff, bool_decide_eq_true, !Qeq_bool_iff, length_zero_iff_nil.
  tauto.
Qed.

(** C8: on startup with a cached dataset whose record of id 1 has empty
    types, zero height or zero weight, when the type names load, the loader
    runs the full fetch on an empty dataset and writes its result.  The
    dataset in memory afterwards, from which the category index is built, is
    that result: nothing of it comes from the cached dataset, every record
    is built from the provider's answers and stored under its own id, and
    the id of every record answered for one of the requests 1 to 1025 is a
    key; for a provider that answers by id and by name and keeps its forms
    apart, the entry of each of these ids is exactly the record built from
    its answers, and every answered special-form variety is present.  The
    cache file holds that dataset afterwards if the write succeeds.  The
    classifier is not run on this path. *)
Theorem incomplete_cache_refetched
    (api : PokeAPI.Provider) (rangeMap : Dataset → list (Z * Pokemon))
    (rangeRegions : list (string * Z)) (fs : FileSystem)
    (typeNameMap typeNameMap' : gmap string string) (m : Dataset) (p : Pokemon) :
  cache fs = Holds (Decodes m) →
  m !! 1 = Some p →
  lacksRequiredField p →
  loadTypeNames api typeNameMap = Some typeNameMap' →
  ∃ m',
    events (loadOrFetchPokemonData api rangeMap rangeRegions fs typeNameMap)
    = [FetchAll ∅; WriteFile m'] ∧
    outcome (loadOrFetchPokemonData api rangeMap rangeRegions fs typeNameMap)
    = Ready m' (organize rangeMap m') ∧
    (writeSucceeds fs = true →
     cacheAfter (loadOrFetchPokemonData api rangeMap rangeRegions fs typeNameMap)
     = Holds (Decodes m')) ∧
    rebuiltFrom api typeNameMap' m'.
Proof.
  intros Hcache Hsample Hlacks%incomplete_spec Htypes.
  destruct (fetchAllPokemonData api typeNameMap ∅) as [[t m']|] eqn:Hfetch.
  - destruct (fetchAllPokemonData_fold _ _ _ _ _ Hfetch) as [Ht _].
    rewrite Htypes in Ht. injection Ht as <-.
    exists m'. unfold loadOrFetchPokemonData.
    rewrite Hcache, Hsample, Hlacks, Hfetch. simpl.
    split; [done|]. split; [done|]. split.
    + unfold writeFile. by intros ->.
    + by eapply fetchAllPokemonData_rebuilt.
  - unfold fetchAllPokemonData in Hfetch. by rewrite Htypes in Hfetch.
Qed.

Lemma incomplete_cache_refetched_witness :
  cache (cachedStart weightlessCache) = Holds (Decodes weightlessCache) ∧
  lacksRequiredField (default (hollowRecord 0) (weightlessCache !! 1)) ∧
  loadTypeNames sampleAPI ∅ = Some {[ "fire" := "ほのお" ]} ∧
  ∃ m',
    events (loadOrFetchPokemonData sampleAPI map_to_list (map_to_list regionGenerationMap)
              (cachedStart weightlessCache) ∅)
    = [FetchAll ∅; WriteFile m'] ∧
    outcome (loadOrFetchPokemonData sampleAPI map_to_list
               (map_to_list regionGenerationMap) (cachedStart weightlessCache) ∅)
    = Ready m' (organize map_to_list m') ∧
    (writeSucceeds (cachedStart weightlessCache) = true →
     cacheAfter (loadOrFetchPokemonData sampleAPI map_to_list
                   (map_to_list regionGenerationMap) (cachedStart weightlessCache) ∅)
     = Holds (Decodes m')) ∧
    rebuiltFrom sampleAPI {[ "fire" := "ほのお" ]} m'.
Proof.
  assert (cache (cachedStart weightlessCache) = Holds (Decodes weightlessCache)) as H1
    by reflexivity.
  assert (weightlessCache !! 1 = Some (default (hollowRecord 0) (weightlessCache !! 1)))
    as H2 by (vm_compute; reflexivity).
  assert (lacksRequiredField (default (hollowRecord 0) (weightlessCache !! 1))) as H3
    by (right; right; vm_compute; reflexivity).
  assert (loadTypeNames sampleAPI ∅ = Some {[ "fire" := "ほのお" ]}) as H4
    by (vm_compute; reflexivity).
  split; [exact H1|]. split; [exact H3|]. split; [exact H4|].
  exact (incomplete_cache_refetched sampleAPI map_to_list
           (map_to_list regionGenerationMap) (cachedStart weightlessCache)
           ∅ _ weightlessCache _ H1 H2 H3 H4).
Defined.

(** On the sample provider, which answers by id and by name and keeps its
    forms apart, the refetch over the incomplete cache gives the base record
    of id 6 and the two mega forms, and nothing for id 1. *)
Example refetch_sample :
  answersByID sampleAPI ∧ answersByName sampleAPI ∧ formsApart sampleAPI ∧
  outcome (loadOrFetchPokemonData sampleAPI map_to_list (map_to_list regionGenerationMap)
             (cachedStart weightlessCache) ∅)
  = Ready builtDataset (organize map_to_list builtDataset) ∧
  builtDataset !! 1 = None ∧
  builtDataset !! 6
  = Some (buildPokemon {[ "fire" := "ほのお" ]} (charizardForm 6 "charizard" 78)
            charizardSpecies) ∧
  is_Some (builtDataset !! 20034) ∧ is_Some (builtDataset !! 20035) ∧
  size builtDataset = 3%nat.
Proof.
  assert (∀ name apiPokemon,
            PokeAPI.getPokemonByName sampleAPI name = Some apiPokemon →
            (name = "charizard-mega-x" ∧
             apiPokemon = charizardForm 10034 "charizard-mega-x" 78) ∨
            (name = "charizard-mega-y" ∧
             apiPokemon = charizardForm 10035 "charizard-mega-y" 78)) as Hforms.
  { intros name apiPokemon. unfold sampleAPI. cbn [PokeAPI.getPokemonByName].
    destruct (decide (name = "charizard-mega-x")) as [->|_]; [intros [= <-]; auto|].
    destruct (decide (name = "charizard-mega-y")) as [->|_]; [intros [= <-]; auto|].
    intros Hnone. discriminate Hnone. }
  assert (∀ id apiPokemon,
            PokeAPI.getPokemon sampleAPI id = Some apiPokemon →
            id = 6 ∧ apiPokemon = charizardForm 6 "charizard" 78) as Hbase.
  { intros id apiPokemon. unfold sampleAPI. cbn [PokeAPI.getPokemon].
    destruct (id =? 6) eqn:Hid; [|intros Hnone; discriminate Hnone].
    apply Z.eqb_eq in Hid. by intros [= <-]. }
  split; [|split; [|split]].
  - intros id apiPokemon [-> ->]%Hbase. reflexivity.
  - intros name apiPokemon [[-> ->]|[-> ->]]%Hforms; reflexivity.
  - split.
    + intros name apiPokemon [[-> ->]|[-> ->]]%Hforms; vm_compute;
        intros [_ Hle]; by apply Hle.
    + intros id apiPokemon [-> ->]%Hbase. reflexivity.
  - split; [vm_compute; reflexivity|]. split; [vm_compute; reflexivity|].
    split; [vm_compute; reflexivity|].
    split; [by vm_compute; eexists|]. split; [by vm_compute; eexists|].
    vm_compute. reflexivity.
Qed.

(** When the fetch itself fails on that path, startup fails and the cache
    file is left alone. *)
Lemma incomplete_cache_refetch_fails api rangeMap rangeRegions fs typeNameMap m p :
  cache fs = Holds (Decodes m) → m !! 1 = Some p → lacksRequiredField p →
  fetchAllPokemonData api typeNameMap ∅ = None →
  loadOrFetchPokemonData api rangeMap rangeRegions fs typeNameMap
  = {| events := [FetchAll ∅]; cacheAfter := cache fs;
       outcome := Failed "failed to refetch pokemon data" |}.
Proof.
  intros Hcache Hsample Hlacks%incomplete_spec Hfetch.
  unfold loadOrFetchPokemonData. by rewrite Hcache, Hsample, Hlacks, Hfetch.
Qed.

(** C10: a cached dataset that holds no record of id 1 is accepted as it is,
    whatever its records lack: nothing is fetched, nothing is written, the
    cache file is untouched, and the cached dataset becomes the dataset in
    memory and the source of the category index. *)
Theorem cache_without_sample_accepted
    (api : PokeAPI.Provider) (rangeMap : Dataset → list (Z * Pokemon))
    (rangeRegions : list (string * Z)) (fs : FileSystem)
    (typeNameMap : gmap string string) (m : Dataset) :
  cache fs = Holds (Decodes m) →
  m !! 1 = None →
  loadOrFetchPokemonData api rangeMap rangeRegions fs typeNameMap
  = {| events := []; cacheAfter := cache fs; outcome := Ready m (organize rangeMap m) |}.
Proof.
  intros Hcache Hsample. unfold loadOrFetchPokemonData.
  by rewrite Hcache, Hsample.
Qed.

Lemma cache_without_sample_accepted_witness :
  cache (cachedStart samplelessCache) = Holds (Decodes samplelessCache) ∧
  samplelessCache !! 1 = None ∧
  map_Forall (λ _ p, lacksRequiredField p) samplelessCache ∧
  loadOrFetchPokemonData sampleAPI map_to_list (map_to_list regionGenerationMap)
    (cachedStart samplelessCache) ∅
  = {| events := []; cacheAfter := cache (cachedStart samplelessCache);
       outcome := Ready samplelessCache (organize map_to_list samplelessCache) |}.
Proof.
  assert (cache (cachedStart samplelessCache) = Holds (Decodes samplelessCache)) as H1
    by reflexivity.
  assert (samplelessCache !! 1 = None) as H2 by (vm_compute; reflexivity).
  split; [exact H1|]. split; [exact H2|]. split.
  - intros k p Hk. left.
    unfold samplelessCache in Hk.
    apply lookup_insert_Some in Hk as [[_ <-]|[_ Hk]]; [done|].
    apply lookup_singleton_Some in Hk as [_ <-]. done.
  - exact (cache_without_sample_accepted sampleAPI map_to_list
             (map_to_list regionGenerationMap) (cachedStart samplelessCache)
             ∅ samplelessCache H1 H2).
Defined.

(** ** Invariants the code maintains *)

Lemma keyedByID_insert (m : Dataset) (p : Pokemon) :
  keyedByID m → keyedByID (<[ID p := p]> m).
Proof.
  intros Hm k q [[<- <-]|[_ Hq]]%lookup_insert_Some; [done|]. by apply Hm.
Qed.

Lemma fetchAndAddVariety_keyed api typeNameMap name category (m : Dataset) :
  keyedByID m → keyedByID (fetchAndAddVariety api typeNameMap name category m).
Proof.
  intros Hm. unfold fetchAndAddVariety.
  repeat case_match; try done. by apply keyedByID_insert.
Qed.

Lemma foldl_keyed {A} (f : Dataset → A → Dataset) (l : list A) :
  (∀ m x, keyedByID m → keyedByID (f m x)) →
  ∀ m, keyedByID m → keyedByID (foldl f m l).
Proof.
  intros Hf. induction l as [|x l IH]; intros m Hm; [done|].
  simpl. by apply IH, Hf.
Qed.

Lemma fetchOne_keyed api typeNameMap (m : Dataset) id :
  keyedByID m → keyedByID (fetchOne api typeNameMap m id).
Proof.
  intros Hm. unfold fetchOne. repeat case_match; try done.
  apply foldl_keyed; [|by apply keyedByID_insert].
  intros m1 v Hm1. unfold addVariety. repeat case_match; try done.
  by apply fetchAndAddVariety_keyed.
Qed.

(** The builder stores every record under its own id. *)
Lemma fetchAllPokemonData_keyed api typeNameMap typeNameMap' (m m' : Dataset) :
  keyedByID m →
  fetchAllPokemonData api typeNameMap m = Some (typeNameMap', m') →
  keyedByID m'.
Proof.
  intros Hm. unfold fetchAllPokemonData.
  generalize (seqZ 1 MAX_POKEMON_ID). intros ids.
  destruct (loadTypeNames api typeNameMap) as [t|]; [|done].
  intros [= <- <-]. apply foldl_keyed; [|done].
  intros m1 i. apply fetchOne_keyed.
Qed.

Lemma classifyByName_ID (p : Pokemon) : ID (classifyByName p) = ID p.
Proof. unfold classifyByName. by repeat case_match. Qed.

Lemma assignRegion_keyed region (m : Dataset) species :
  keyedByID m → keyedByID (assignRegion region m species).
Proof.
  intros Hm. unfold assignRegion.
  destruct (speciesID (PokeAPI.URL species)) as [id|]; [|done].
  destruct (m !! id) as [p|] eqn:Hp; [|done].
  case_decide; [|done].
  intros k q [[<- <-]|[_ Hq]]%lookup_insert_Some; [|by apply Hm].
  simpl. by apply Hm.
Qed.

(** So does the classifier. *)
Lemma fetchCategoryData_keyed api regions (m : Dataset) :
  keyedByID m → keyedByID (fetchCategoryData api regions m).
Proof.
  intros Hm. unfold fetchCategoryData, generationPass.
  apply foldl_keyed.
  - intros m1 [region genID] Hm1. unfold classifyGeneration.
    case_match; [done|]. case_match; [|done].
    apply foldl_keyed; [|done]. intros m2 sp. apply assignRegion_keyed.
  - intros k p. rewrite lookup_fmap.
    destruct (m !! k) as [q|] eqn:Hq; [|done].
    intros [= <-]. rewrite classifyByName_ID. by apply Hm.
Qed.

Lemma newUserStat_sound userID : soundRow (newUserStat userID).
Proof. repeat split. constructor. Qed.

(** Every row the tracker saves is sound, whatever it started from. *)
Lemma updatedStat_sound byID stat pokemonID isCorrect stat' :
  NoDup (wrongIDsStrict (WrongAnswers stat)) →
  updatedStat byID stat pokemonID isCorrect = Some stat' →
  holdsCounters (RegionalStats stat) →
  soundRow stat'.
Proof.
  intros Hnd Hs Hcol.
  destruct (updatedStat_fields _ _ _ _ _ Hs) as (_ & Hw & _).
  unfold soundRow, missedSet. rewrite Hw. simpl. split; [|split; [done|]].
  - revert Hs. unfold updatedStat, updateRegionalStats. simpl.
    destruct (byID !! pokemonID) as [pokemon|]; [case_decide|];
      destruct (RegionalStats stat) eqn:Hrs; try done;
      destruct isCorrect; intros [= <-]; simpl; by rewrite ?Hrs.
  - destruct isCorrect; [by apply NoDup_filter|].
    case_bool_decide as Hin; [done|].
    apply NoDup_app. split; [done|]. split; [|apply NoDup_singleton].
    intros x Hx ->%list_elem_of_singleton. done.
Qed.

Lemma soundRow_preserved byID stat pokemonID isCorrect stat' :
  soundRow stat →
  updatedStat byID stat pokemonID isCorrect = Some stat' →
  soundRow stat'.
Proof.
  intros (Hcol & Hwf & Hnd) Hs. eapply updatedStat_sound; [|exact Hs|exact Hcol].
  by rewrite wrongIDs_wellFormed.
Qed.

Lemma soundRow_commits byID stat pokemonID isCorrect :
  soundRow stat → ∃ stat', updatedStat byID stat pokemonID isCorrect = Some stat'.
Proof.
  intros (Hcol & _). apply updatedStat_total. intros Heq. by rewrite Heq in Hcol.
Qed.

(** ** The answer handler *)

(** On a dataset keyed by id, an answer from an identified user is graded
    against the record of the submitted id and recorded under that id. *)
Lemma handleAnswer_records byID db req id name userID pokemon db' :
  keyedByID byID →
  ans_body req = Some (id, name) → ans_user req = Some userID →
  byID !! id = Some pokemon →
  updateUserStats byID db userID id (bool_decide (name = Name pokemon)) = Some db' →
  handleAnswer byID db req
  = (db', Reply {| isCorrect := bool_decide (name = Name pokemon);
                   correctPokemon := pokemon |}).
Proof.
  intros Hkey Hbody Huser Hp Hup. unfold handleAnswer.
  rewrite Hbody, Hp, Huser. rewrite (Hkey _ _ Hp). by rewrite Hup.
Qed.

(** The end-to-end example: two kanto records A and B.  A question over
    kanto offers exactly the two names; johto is rejected; answering B for A
    is graded incorrect with A as the truth, puts A's id on the missed list
    and sets the kanto counters to total 1, correct 0. *)
Example end_to_end_question :
  ∃ q, (handleGetQuiz map_to_list pairDataset pairIndex ∅ (normalRequest "kanto")
          [0; 0; 1]%nat).1.2 = Reply q ∧
       quiz_id q = 1 ∧ quiz_options q ≡ₚ ["A"; "B"].
Proof. eexists. split; [vm_compute; reflexivity|]. split; [done|]. apply Permutation_swap. Qed.

Example end_to_end_unknown :
  (handleGetQuiz map_to_list pairDataset pairIndex ∅ (normalRequest "johto") []).1.2
  = Reject StatusBadRequest "Invalid or empty region specified".
Proof. vm_compute. reflexivity. Qed.

Example end_to_end_answer :
  ∃ db',
    handleAnswer pairDataset ∅ {| ans_body := Some (1, "B"); ans_user := Some 5%N |}
    = (db', Reply {| isCorrect := false; correctPokemon := plainRecord 1 "A" |}) ∧
    missedSet (rowOf db' 5) = [1] ∧
    regionalStatsLenient (RegionalStats (rowOf db' 5)) !! "kanto"
    = Some {| Total := 1; Correct := 0 |} ∧
    TotalQuestions (rowOf db' 5) = 1.
Proof. eexists. split; [vm_compute; reflexivity|]. by vm_compute. Qed.

(** * Further properties of the quiz engine *)

Lemma shuffleDown_entropy {A} i (l : list A) r :
  (shuffleDown i l r).2 = drop i r.
Proof.
  revert l r. induction i as [|i IH]; intros l r; simpl.
  - by rewrite drop_0.
  - destruct r as [|x r]; simpl.
    + rewrite IH. by rewrite drop_nil.
    + by rewrite IH.
Qed.

(** X1: for every entropy the shuffle returns a permutation of its input, of
    the same length, and reads one draw per position but the first: it
    leaves the tape with its first [len - 1] entries removed. *)
Theorem shuffle_permutes {A} (l : list A) (r : Entropy) :
  (shuffle l r).1 ≡ₚ l ∧
  length (shuffle l r).1 = length l ∧
  (shuffle l r).2 = drop (length l - 1) r.
Proof.
  split; [apply shuffle_perm|]. split.
  - by rewrite shuffle_perm.
  - apply shuffleDown_entropy.
Qed.

(** X2: on a non-empty pool [sendQuiz] always answers with a question that
    carries the target's id, stats, height, weight and types; its options
    hold the target's name, every other option is the name of a pool record
    whose id differs from the target's, and there are one plus min(3, n)
    options, n being the number of such records: never fewer than one, never
    more than four. *)
Theorem sendQuiz_question (target : Pokemon) (pool : list Pokemon) (r : Entropy) :
  pool ≠ [] →
  ∃ q r',
    sendQuiz target pool r = (Reply q, r') ∧
    quiz_id q = ID target ∧ quiz_stats q = Stats target ∧
    quiz_height q = Height target ∧ quiz_weight q = Weight target ∧
    quiz_types q = Types target ∧
    Name target ∈ quiz_options q ∧
    (∀ o, o ∈ quiz_options q →
          o = Name target ∨ ∃ p, p ∈ pool ∧ ID p ≠ ID target ∧ Name p = o) ∧
    length (quiz_options q)
    = S (3 `min` length (filter (λ p, ID p ≠ ID target) pool)) ∧
    (1 ≤ length (quiz_options q) ≤ 4)%nat.
Proof.
  intros Hne. unfold sendQuiz. destruct pool as [|a pool]; [done|].
  set (filtered := filter _ (a :: pool)).
  pose proof (shuffle_perm filtered r) as Hs.
  destruct (shuffle filtered r) as [shuffled r1]. simpl in Hs.
  pose proof (shuffle_perm (Name target :: (Name <$> take 3 shuffled)) r1) as Ho.
  destruct (shuffle (Name target :: (Name <$> take 3 shuffled)) r1) as [options r2].
  simpl in Ho. eexists _, r2. split; [reflexivity|]. simpl.
  assert (length options = S (3 `min` length filtered)) as Hlen.
  { rewrite Ho. simpl. by rewrite length_fmap, length_take, Hs. }
  repeat split; try done.
  - rewrite Ho. left.
  - intros o. rewrite Ho. intros [->|Ho']%elem_of_cons; [by left|]. right.
    apply list_elem_of_fmap in Ho' as [p [-> Hp]].
    assert (p ∈ filtered) as Hpf.
    { rewrite <- Hs. eapply elem_of_submseteq; [exact Hp|].
      apply sublist_submseteq, sublist_take. }
    apply list_elem_of_filter in Hpf as [Hid Hin]. eauto.
  - lia.
  - lia.
Qed.

Lemma sendQuiz_question_witness :
  fivePool ≠ [] ∧
  ∃ q r',
    sendQuiz (plainRecord 3 "C") fivePool [2; 9; 4; 1; 1; 0; 3]%nat = (Reply q, r') ∧
    quiz_id q = 3 ∧ quiz_stats q = zeroStats ∧
    quiz_height q = 1%Q ∧ quiz_weight q = 1%Q ∧
    quiz_types q = ["ノーマル"] ∧
    "C" ∈ quiz_options q ∧
    (∀ o, o ∈ quiz_options q →
          o = "C" ∨ ∃ p, p ∈ fivePool ∧ ID p ≠ 3 ∧ Name p = o) ∧
    length (quiz_options q)
    = S (3 `min` length (filter (λ p, ID p ≠ 3) fivePool)) ∧
    (1 ≤ length (quiz_options q) ≤ 4)%nat.
Proof.
  assert (fivePool ≠ []) as H1 by done.
  split; [exact H1|].
  exact (sendQuiz_question (plainRecord 3 "C") fivePool [2; 9; 4; 1; 1; 0; 3]%nat H1).
Defined.

Lemma swap_app_l {A} (m t : list A) i j :
  (i < length m)%nat → (j < length m)%nat →
  swap (m ++ t) i j = swap m i j ++ t.
Proof.
  intros Hi Hj. unfold swap.
  rewrite !lookup_app_l by done.
  destruct (m !! i) as [x|] eqn:Hx; [|done].
  destruct (m !! j) as [y|] eqn:Hy; [|done].
  rewrite insert_app_l by done.
  rewrite insert_app_l by (by rewrite length_insert). done.
Qed.

(** The loop below position [i] never touches what lies behind it. *)
Lemma shuffleDown_app {A} i (m t : list A) r :
  (i < length m)%nat →
  shuffleDown i (m ++ t) r = ((shuffleDown i m r).1 ++ t, (shuffleDown i m r).2).
Proof.
  revert m r. induction i as [|i IH]; intros m r Hi; [done|].
  simpl. pose proof (randInt_lt (S (S i)) r ltac:(lia)) as Hj.
  destruct (randInt (S (S i)) r) as [j r']. simpl in Hj.
  rewrite swap_app_l by lia. apply IH. rewrite swap_length. lia.
Qed.

Lemma swap_last {A} (l : list A) j x :
  l !! j = Some x →
  ∃ m, swap l (length l - 1) j = m ++ [x] ∧ length m = (length l - 1)%nat.
Proof.
  intros Hj. pose proof (lookup_lt_Some _ _ _ Hj) as Hlt.
  destruct (swap_in_range l (length l - 1) j) as (a & b & Ha & Hb & Hswap); [lia|lia|].
  assert (b = x) as -> by congruence.
  assert (swap l (length l - 1) j !! (length l - 1)%nat = Some x) as Hlast.
  { rewrite Hswap. destruct (decide (j = (length l - 1)%nat)) as [->|Hne].
    - rewrite list_lookup_insert_eq by (rewrite length_insert; lia). congruence.
    - rewrite list_lookup_insert_ne by done.
      rewrite list_lookup_insert_eq by lia. done. }
  exists (take (length l - 1) (swap l (length l - 1) j)). split.
  - rewrite <- (take_drop (length l - 1) (swap l (length l - 1) j)) at 1.
    f_equal. apply list_eq. intros k. rewrite lookup_drop.
    destruct k as [|k]; simpl.
    + by rewrite Nat.add_0_r.
    + rewrite lookup_nil. apply lookup_ge_None. rewrite swap_length. lia.
  - rewrite length_take, swap_length. lia.
Qed.

Lemma shuffleDown_step {A} i (l : list A) x r :
  shuffleDown (S i) l (x :: r) = shuffleDown i (swap l (S i) (x mod S (S i))%nat) r.
Proof. reflexivity. Qed.

(** X3: the shuffle can return every ordering of its input: for each
    permutation of the list there is an entropy on which the shuffle returns
    exactly that permutation. *)
Theorem shuffle_reaches_every_order {A} (l l' : list A) :
  l' ≡ₚ l → ∃ r, (shuffle l r).1 = l'.
Proof.
  revert l. induction l' as [|x k IH] using rev_ind; intros l Hperm.
  - apply Permutation_nil_l in Hperm as <-. by exists [].
  - assert (x ∈ l) as [j Hj]%list_elem_of_lookup.
    { rewrite <- Hperm. apply elem_of_app. right. left. }
    destruct (swap_last l j x Hj) as (m & Hswap & Hm).
    assert (k ≡ₚ m) as Hmk.
    { apply (Permutation_app_inv_r [x]). by rewrite <- Hswap, swap_perm. }
    destruct (IH m Hmk) as [r' Hr'].
    pose proof (lookup_lt_Some _ _ _ Hj) as Hlt.
    destruct (decide (length l = 1%nat)) as [Hone|Hmore].
    + exists []. unfold shuffle. rewrite Hone. simpl.
      destruct m; [|simpl in Hm; lia]. apply Permutation_nil_r in Hmk as ->.
      destruct l as [|y [|? ?]]; try done.
      destruct j; simplify_eq/=. done.
    + exists (j :: r'). unfold shuffle.
      destruct (length l - 1)%nat as [|i] eqn:Hlen; [lia|].
      rewrite shuffleDown_step, Nat.mod_small by lia. rewrite Hswap.
      rewrite shuffleDown_app by lia. simpl.
      unfold shuffle in Hr'. replace (length m - 1)%nat with i in Hr' by lia.
      by rewrite Hr'.
Qed.

Lemma shuffle_reaches_every_order_witness :
  [3; 1; 4; 2] ≡ₚ [1; 2; 3; 4] ∧
  ∃ r, (shuffle [1; 2; 3; 4] r).1 = [3; 1; 4; 2].
Proof.
  assert ([3; 1; 4; 2] ≡ₚ [1; 2; 3; 4]) as H1.
  { apply (bool_decide_unpack _). vm_compute. exact I. }
  split; [exact H1|].
  exact (shuffle_reaches_every_order [1; 2; 3; 4] [3; 1; 4; 2] H1).
Defined.

(** * Further properties of the category index *)

Lemma elem_of_poolOf c ps p :
  p ∈ poolOf c ps ↔ p ∈ ps ∧ ((Category p ≠ "" ∧ Category p = c) ∨ c = "all").
Proof.
  unfold poolOf. rewrite list_elem_of_bind. unfold contribution. split.
  - intros (q & Hq & Hin). apply elem_of_app in Hq as [Hq|Hq].
    + case_decide; [|by apply elem_of_nil in Hq].
      apply list_elem_of_singleton in Hq as ->. auto.
    + case_decide; [|by apply elem_of_nil in Hq].
      apply list_elem_of_singleton in Hq as ->. auto.
  - intros (Hin & Hc). exists p. split; [|done]. apply elem_of_app.
    destruct Hc as [Hc| ->].
    + left. rewrite decide_True by done. left.
    + right. rewrite decide_True by done. left.
Qed.

(** X4: the index [organizePokemonByRegion] builds never holds an empty pool
    and has no key for the empty category; a pool holds exactly the
    enumerated records of its category (every enumerated record, for the key
    all); so every record is in the pool all, and in the pool of its own
    category when it has one. *)
Theorem category_index_contents (ps : list Pokemon) :
  organizePokemonByRegion ps !! "" = None ∧
  (∀ c pool, organizePokemonByRegion ps !! c = Some pool →
     pool ≠ [] ∧
     ∀ p, p ∈ pool ↔ p ∈ ps ∧ ((Category p ≠ "" ∧ Category p = c) ∨ c = "all")) ∧
  (∀ p, p ∈ ps →
     (∃ pool, organizePokemonByRegion ps !! "all" = Some pool ∧ p ∈ pool) ∧
     (Category p ≠ "" →
      ∃ pool, organizePokemonByRegion ps !! Category p = Some pool ∧ p ∈ pool)).
Proof.
  assert (∀ c p, p ∈ poolOf c ps →
            ∃ pool, organizePokemonByRegion ps !! c = Some pool ∧ p ∈ pool) as Hfound.
  { intros c p Hp. rewrite organize_lookup.
    destruct (poolOf c ps) as [|q pool]; [by apply elem_of_nil in Hp|eauto]. }
  split; [|split].
  - rewrite organize_lookup.
    destruct (poolOf "" ps) as [|q pool] eqn:Hpool; [done|].
    assert (q ∈ poolOf "" ps) as Hq by (rewrite Hpool; left).
    apply elem_of_poolOf in Hq as [_ [[Hne Heq]|Hall]]; done.
  - intros c pool. rewrite organize_lookup.
    destruct (poolOf c ps) as [|q pool'] eqn:Hpool; [done|].
    intros [= <-]. split; [done|]. intros p. rewrite <- Hpool.
    apply elem_of_poolOf.
  - intros p Hp. split.
    + apply Hfound, elem_of_poolOf. auto.
    + intros Hc. apply Hfound, elem_of_poolOf. auto.
Qed.

Lemma category_index_contents_witness :
  organizePokemonByRegion megaPool !! "mega" = Some megaPool ∧
  megaPool ≠ [] ∧
  (∀ p, p ∈ megaPool ↔
        p ∈ megaPool ∧ ((Category p ≠ "" ∧ Category p = "mega") ∨ "mega" = "all")).
Proof.
  assert (organizePokemonByRegion megaPool !! "mega" = Some megaPool) as H1
    by (vm_compute; reflexivity).
  destruct (category_index_contents megaPool) as (_ & Hpools & _).
  split; [exact H1|]. exact (Hpools "mega" megaPool H1).
Defined.

(** * Further properties of review mode *)

Lemma FirstOrCreate_table db userID :
  (FirstOrCreate db userID).1 =
  match db !! userID with Some _ => db | None => <[userID := newUserStat userID]> db end.
Proof. unfold FirstOrCreate. by destruct (db !! userID). Qed.

Lemma handleGetQuiz_table rangeMap byID pools db req r :
  (handleGetQuiz rangeMap byID pools db req r).1.1 =
  if bool_decide (default "false" (req_retry req) = "true")
  then match req_user req with
       | Some userID => (FirstOrCreate db userID).1
       | None => db
       end
  else db.
Proof.
  unfold handleGetQuiz. case_bool_decide.
  - destruct (req_user req) as [userID|]; [|done].
    destruct (FirstOrCreate db userID) as [db' stat]. simpl.
    destruct (wrongIDsLenient (WrongAnswers stat)) as [|x l]; [done|].
    destruct (randInt _ r) as [i r']. destruct ((x :: l) !! i); [|done].
    destruct (byID !! z); [|done].
    by destruct (sendQuiz _ _ _).
  - destruct (pools !! default "kanto" (req_region req)) as [[|q pool]|]; try done.
    destruct (randInt _ r) as [i r']. destruct ((q :: pool) !! i); [|done].
    by destruct (sendQuiz _ _ _).
Qed.

(** X5: a quiz request never changes a stored row.  In normal mode, and
    without an identified user, the stat table is left as it was; in review
    mode the only change there can be is the insertion of the fresh row of
    the requesting user, when that user had none. *)
Theorem quiz_request_keeps_rows
    (rangeMap : Dataset → list (Z * Pokemon)) (byID : Dataset)
    (pools : CategoryIndex) (db : StatTable) (req : QuizRequest) (r : Entropy) :
  (∀ userID stat, db !! userID = Some stat →
     (handleGetQuiz rangeMap byID pools db req r).1.1 !! userID = Some stat) ∧
  (∀ userID stat, db !! userID = None →
     (handleGetQuiz rangeMap byID pools db req r).1.1 !! userID = Some stat →
     default "false" (req_retry req) = "true" ∧ req_user req = Some userID ∧
     stat = newUserStat userID) ∧
  (normalMode req ∨ req_user req = None →
     (handleGetQuiz rangeMap byID pools db req r).1.1 = db).
Proof.
  rewrite handleGetQuiz_table. split; [|split].
  - intros userID stat Hrow. case_bool_decide; [|done].
    destruct (req_user req) as [uid|]; [|done].
    rewrite FirstOrCreate_table. destruct (db !! uid) eqn:Huid; [done|].
    rewrite lookup_insert_ne; [done|]. intros ->. congruence.
  - intros userID stat Hnone. case_bool_decide; [|congruence].
    destruct (req_user req) as [uid|]; [|congruence].
    rewrite FirstOrCreate_table. destruct (db !! uid) eqn:Huid; [congruence|].
    intros [[<- <-]|[_ ?]]%lookup_insert_Some; [done|congruence].
  - intros [Hmode|Hanon].
    + by rewrite normalMode_retry.
    + rewrite Hanon. by case_bool_decide.
Qed.

Lemma quiz_request_keeps_rows_witness :
  (learnerTable !! 2%N = Some learnerStat ∧
   (handleGetQuiz map_to_list sampleDataset sampleIndex learnerTable
      (reviewRequest "kanto" 9) [1%nat]).1.1 !! 2%N = Some learnerStat) ∧
  (learnerTable !! 9%N = None ∧
   (handleGetQuiz map_to_list sampleDataset sampleIndex learnerTable
      (reviewRequest "kanto" 9) [1%nat]).1.1 !! 9%N = Some (newUserStat 9)) ∧
  (normalMode (normalRequest "mega") ∧
   (handleGetQuiz map_to_list sampleDataset sampleIndex learnerTable
      (normalRequest "mega") [1%nat]).1.1 = learnerTable).
Proof.
  assert (learnerTable !! 2%N = Some learnerStat) as H1 by (vm_compute; reflexivity).
  assert (learnerTable !! 9%N = None) as H2 by (vm_compute; reflexivity).
  assert (normalMode (normalRequest "mega")) as H3 by done.
  destruct (quiz_request_keeps_rows map_to_list sampleDataset sampleIndex learnerTable
              (reviewRequest "kanto" 9) [1%nat]) as (Hkeep & _ & _).
  destruct (quiz_request_keeps_rows map_to_list sampleDataset sampleIndex learnerTable
              (normalRequest "mega") [1%nat]) as (_ & _ & Hsame).
  split; [split; [exact H1|exact (Hkeep 2%N learnerStat H1)]|].
  split; [split; [exact H2|vm_compute; reflexivity]|].
  split; [exact H3|exact (Hsame (or_introl H3))].
Defined.

(** X6: a review-mode request without an identified user is rejected with
    status Unauthorized; one from a user with an id other than 0 whose
    missed list is empty (such a user without a stored row included) is
    rejected with status NotFound, whatever region it names and whatever the
    dataset holds. *)
Theorem review_nothing_to_review
    (rangeMap : Dataset → list (Z * Pokemon)) (byID : Dataset)
    (pools : CategoryIndex) (db : StatTable) (req : QuizRequest) (r : Entropy) :
  default "false" (req_retry req) = "true" →
  (req_user req = None →
   handleGetQuiz rangeMap byID pools db req r
   = (db, Reject StatusUnauthorized "認証が必要です", r)) ∧
  (∀ userID, req_user req = Some userID →
     userID ≠ 0%N →
     missedSet (rowOf db userID) = [] →
     handleGetQuiz rangeMap byID pools db req r
     = ((FirstOrCreate db userID).1,
        Reject StatusNotFound "間違えた問題はありません", r)) ∧
  (∀ userID, userID ≠ 0%N → db !! userID = None → missedSet (rowOf db userID) = []).
Proof.
  intros Hretry. split; [|split].
  - intros Hanon. unfold handleGetQuiz.
    by rewrite Hretry, Hanon, bool_decide_eq_true_2.
  - intros userID Huser _ Hempty. unfold handleGetQuiz.
    rewrite Hretry, Huser, bool_decide_eq_true_2 by done.
    unfold missedSet, rowOf in Hempty.
    destruct (FirstOrCreate db userID) as [db' stat]. simpl in *.
    by rewrite Hempty.
  - intros userID _ Hnone. unfold missedSet, rowOf, FirstOrCreate. by rewrite Hnone.
Qed.

Lemma review_nothing_to_review_witness :
  default "false" (req_retry (reviewRequest "hoenn" 9)) = "true" ∧
  req_user (reviewRequest "hoenn" 9) = Some 9%N ∧
  9%N ≠ 0%N ∧
  missedSet (rowOf learnerTable 9) = [] ∧
  handleGetQuiz map_to_list sampleDataset sampleIndex learnerTable
    (reviewRequest "hoenn" 9) [3%nat]
  = ((FirstOrCreate learnerTable 9).1,
     Reject StatusNotFound "間違えた問題はありません", [3%nat]).
Proof.
  assert (default "false" (req_retry (reviewRequest "hoenn" 9)) = "true") as H1
    by reflexivity.
  assert (req_user (reviewRequest "hoenn" 9) = Some 9%N) as H2 by reflexivity.
  assert (missedSet (rowOf learnerTable 9) = []) as H3 by (vm_compute; reflexivity).
  destruct (review_nothing_to_review map_to_list sampleDataset sampleIndex learnerTable
              (reviewRequest "hoenn" 9) [3%nat] H1) as (_ & Hempty & _).
  assert (9%N ≠ 0%N) as H4 by discriminate.
  split; [exact H1|]. split; [exact H2|]. split; [exact H4|]. split; [exact H3|].
  exact (Hempty 9%N H2 H4 H3).
Defined.

(** X7: a review-mode request of an identified user whose drawn missed id
    has a record in the dataset is answered with a question about that
    record: it carries the record's id, between one and four options, the
    record's name among them, and every other option names a record with
    another id taken from the pool of the record's category, or from the
    whole dataset when the index has no such pool. *)
Theorem review_question
    (rangeMap : Dataset → list (Z * Pokemon)) (byID : Dataset)
    (pools : CategoryIndex) (db : StatTable) (req : QuizRequest) (r : Entropy)
    (userID : N) (targetID : Z) (pokemon : Pokemon) :
  rangeMap byID ≡ₚ map_to_list byID →
  reviewMode req userID →
  drawnID (missedSet (rowOf db userID)) r = Some targetID →
  byID !! targetID = Some pokemon →
  ∃ q r',
    handleGetQuiz rangeMap byID pools db req r
    = ((FirstOrCreate db userID).1, Reply q, r') ∧
    targetID ∈ missedSet (rowOf db userID) ∧
    quiz_id q = ID pokemon ∧
    Name pokemon ∈ quiz_options q ∧
    (1 ≤ length (quiz_options q) ≤ 4)%nat ∧
    (∀ o, o ∈ quiz_options q →
       o = Name pokemon ∨
       ∃ p, p ∈ reviewPool rangeMap byID pools pokemon ∧
            ID p ≠ ID pokemon ∧ Name p = o).
Proof.
  intros Hperm [Hretry Huser] Hdrawn Hp.
  assert (targetID ∈ missedSet (rowOf db userID)) as Hmissed
    by (by eapply list_elem_of_lookup_2).
  assert (reviewPool rangeMap byID pools pokemon ≠ []) as Hpool.
  { unfold reviewPool. destruct (pools !! Category pokemon) as [[|q pool]|]; try done.
    - intros Hnil. assert (pokemon ∈ (rangeMap byID).*2) as Hin; [|by rewrite Hnil in Hin; apply elem_of_nil in Hin].
      apply list_elem_of_fmap. exists (targetID, pokemon). split; [done|].
      rewrite Hperm. by apply elem_of_map_to_list.
    - intros Hnil. assert (pokemon ∈ (rangeMap byID).*2) as Hin; [|by rewrite Hnil in Hin; apply elem_of_nil in Hin].
      apply list_elem_of_fmap. exists (targetID, pokemon). split; [done|].
      rewrite Hperm. by apply elem_of_map_to_list. }
  unfold handleGetQuiz. rewrite Hretry, Huser, bool_decide_eq_true_2 by done.
  unfold drawnID, missedSet, rowOf in Hdrawn.
  destruct (FirstOrCreate db userID) as [db' stat]. simpl in Hdrawn. simpl.
  destruct (wrongIDsLenient (WrongAnswers stat)) as [|x wrongIDs] eqn:Hw; [done|].
  destruct (randInt (length (x :: wrongIDs)) r) as [i r1]. simpl in Hdrawn.
  rewrite Hdrawn, Hp. fold (reviewPool rangeMap byID pools pokemon).
  destruct (sendQuiz_options pokemon _ r1 Hpool)
    as (q & r' & picked & Hq & Hid & Hopts & Hsub & Hlen).
  rewrite Hq. exists q, r'. split; [done|]. split; [done|]. split; [done|].
  split; [rewrite Hopts; left|]. split.
  - rewrite Hopts. simpl. rewrite length_fmap, Hlen. lia.
  - intros o. rewrite Hopts. intros [->|Ho]%elem_of_cons; [by left|]. right.
    apply list_elem_of_fmap in Ho as [p [-> Hin]].
    assert (p ∈ filter (λ p, ID p ≠ ID pokemon) (reviewPool rangeMap byID pools pokemon))
      as [Hne Hp']%list_elem_of_filter by (by eapply elem_of_submseteq).
    eauto.
Qed.

Lemma review_question_witness :
  map_to_list sampleDataset ≡ₚ map_to_list sampleDataset ∧
  reviewMode (reviewRequest "johto" 2) 2 ∧
  drawnID (missedSet (rowOf learnerTable 2)) [1%nat] = Some 6 ∧
  sampleDataset !! 6 = Some sampleRecord ∧
  ∃ q r',
    handleGetQuiz map_to_list sampleDataset sampleIndex learnerTable
      (reviewRequest "johto" 2) [1%nat]
    = ((FirstOrCreate learnerTable 2).1, Reply q, r') ∧
    6 ∈ missedSet (rowOf learnerTable 2) ∧
    quiz_id q = ID sampleRecord ∧
    Name sampleRecord ∈ quiz_options q ∧
    (1 ≤ length (quiz_options q) ≤ 4)%nat ∧
    (∀ o, o ∈ quiz_options q →
       o = Name sampleRecord ∨
       ∃ p, p ∈ reviewPool map_to_list sampleDataset sampleIndex sampleRecord ∧
            ID p ≠ ID sampleRecord ∧ Name p = o).
Proof.
  assert (map_to_list sampleDataset ≡ₚ map_to_list sampleDataset) as H1 by reflexivity.
  assert (reviewMode (reviewRequest "johto" 2) 2) as H2 by (split; reflexivity).
  assert (drawnID (missedSet (rowOf learnerTable 2)) [1%nat] = Some 6) as H3
    by (vm_compute; reflexivity).
  assert (sampleDataset !! 6 = Some sampleRecord) as H4 by (vm_compute; reflexivity).
  split; [exact H1|]. split; [exact H2|]. split; [exact H3|]. split; [exact H4|].
  exact (review_question map_to_list sampleDataset sampleIndex learnerTable
           (reviewRequest "johto" 2) [1%nat] 2%N 6 sampleRecord H1 H2 H3 H4).
Defined.

(** * Further properties of the progress tracker *)

Lemma updateUserStats_table byID db userID pokemonID isCorrect db' :
  updateUserStats byID db userID pokemonID isCorrect = Some db' →
  ∃ stat', updatedStat byID (rowOf db userID) pokemonID isCorrect = Some stat' ∧
           db' = <[userID := stat']> (FirstOrCreate db userID).1.
Proof.
  unfold updateUserStats, rowOf.
  destruct (FirstOrCreate db userID) as [tx stat]. simpl.
  destruct (updatedStat byID stat pokemonID isCorrect) as [stat'|]; [|done].
  intros [= <-]. eauto.
Qed.

Lemma updateUserStats_frame byID db userID pokemonID isCorrect db' other :
  updateUserStats byID db userID pokemonID isCorrect = Some db' →
  other ≠ userID → db' !! other = db !! other.
Proof.
  intros (stat' & _ & ->)%updateUserStats_table Hne.
  rewrite lookup_insert_ne by done. rewrite FirstOrCreate_table.
  destruct (db !! userID); [done|]. by rewrite lookup_insert_ne.
Qed.

(** X8: an answer sent on behalf of a user id other than 0 changes at most
    the row of that user: every other row is left as it was; and an answer
    without an identified user, with a body that does not bind, or for an
    unknown record id leaves the whole table as it was. *)
Theorem answer_touches_only_own_row
    (byID : Dataset) (db : StatTable) (req : AnswerRequest) :
  (∀ other, ans_user req ≠ Some 0%N → ans_user req ≠ Some other →
     (handleAnswer byID db req).1 !! other = db !! other) ∧
  (ans_user req = None → (handleAnswer byID db req).1 = db) ∧
  (∀ code error, (handleAnswer byID db req).2 = Reject code error →
     (handleAnswer byID db req).1 = db).
Proof.
  unfold handleAnswer.
  destruct (ans_body req) as [[id name]|]; [|by repeat split].
  destruct (byID !! id) as [pokemon|]; [|by repeat split].
  destruct (ans_user req) as [userID|]; [|by repeat split].
  destruct (updateUserStats byID db userID (ID pokemon) _) as [db'|] eqn:Hup;
    [|by repeat split].
  simpl. split; [|split; [done|done]].
  intros other _ Hne. eapply updateUserStats_frame; [exact Hup|congruence].
Qed.

Lemma answer_touches_only_own_row_witness :
  ans_user (answerRequest 5 6 "ピカチュウ") ≠ Some 0%N ∧
  ans_user (answerRequest 5 6 "ピカチュウ") ≠ Some 2%N ∧
  (handleAnswer sampleDataset learnerTable (answerRequest 5 6 "ピカチュウ")).1 !! 2%N
  = learnerTable !! 2%N.
Proof.
  assert (ans_user (answerRequest 5 6 "ピカチュウ") ≠ Some 0%N) as H0 by (simpl; congruence).
  assert (ans_user (answerRequest 5 6 "ピカチュウ") ≠ Some 2%N) as H1 by (simpl; congruence).
  destruct (answer_touches_only_own_row sampleDataset learnerTable
              (answerRequest 5 6 "ピカチュウ")) as (Hframe & _ & _).
  split; [exact H0|]. split; [exact H1|exact (Hframe 2%N H0 H1)].
Defined.

(** X9: after a recorded answer for record id X, X is on the user's missed
    list exactly when that answer was incorrect. *)
Theorem missed_iff_last_answer_wrong
    (byID : Dataset) (db db' : StatTable) (userID : N) (X : Z) (isCorrect : bool) :
  updateUserStats byID db userID X isCorrect = Some db' →
  X ∈ missedSet (rowOf db' userID) ↔ isCorrect = false.
Proof.
  intros Hup. pose proof (updateUserStats_row _ _ _ _ _ _ Hup) as Hrow.
  destruct (updatedStat_fields _ _ _ _ _ Hrow) as (_ & Hw & _).
  unfold missedSet. rewrite Hw. simpl. destruct isCorrect.
  - rewrite list_elem_of_filter. split; [intros [? _]; done|done].
  - split; [done|]. intros _. case_bool_decide; [done|].
    apply elem_of_app. right. left.
Qed.

Lemma missed_iff_last_answer_wrong_witness :
  updateUserStats sampleDataset learnerTable 2 6 true
  = Some (default ∅ (updateUserStats sampleDataset learnerTable 2 6 true)) ∧
  (6 ∈ missedSet
         (rowOf (default ∅ (updateUserStats sampleDataset learnerTable 2 6 true)) 2)
   ↔ true = false).
Proof.
  assert (updateUserStats sampleDataset learnerTable 2 6 true
          = Some (default ∅ (updateUserStats sampleDataset learnerTable 2 6 true))) as H1
    by (vm_compute; reflexivity).
  split; [exact H1|].
  exact (missed_iff_last_answer_wrong sampleDataset learnerTable _ 2 6 true H1).
Defined.

(** X10: rows stay sound.  The row a user starts from is sound, and on a
    sound row every graded answer is committed and leaves a sound row: a
    per-category column that holds a JSON object and a missed column that
    decodes to a list without repetition. *)
Theorem tracker_keeps_rows_sound
    (byID : Dataset) (db : StatTable) (userID : N) (pokemonID : Z) (isCorrect : bool) :
  (db !! userID = None → soundRow (rowOf db userID)) ∧
  (soundRow (rowOf db userID) →
   ∃ db', updateUserStats byID db userID pokemonID isCorrect = Some db' ∧
          soundRow (rowOf db' userID)).
Proof.
  split.
  - intros Hnone. unfold rowOf, FirstOrCreate. rewrite Hnone. apply newUserStat_sound.
  - intros Hsound.
    destruct (soundRow_commits byID _ pokemonID isCorrect Hsound) as [stat' Hs].
    destruct (updateUserStats_commits _ _ _ _ _ _ Hs) as [db' Hdb].
    exists db'. split; [done|].
    pose proof (updateUserStats_row _ _ _ _ _ _ Hdb) as Hrow.
    by eapply soundRow_preserved.
Qed.

Lemma tracker_keeps_rows_sound_witness :
  soundRow (rowOf learnerTable 2) ∧
  ∃ db', updateUserStats sampleDataset learnerTable 2 20035 false = Some db' ∧
         soundRow (rowOf db' 2).
Proof.
  assert (soundRow (rowOf learnerTable 2)) as H1.
  { split; [vm_compute; exact I|]. split; [vm_compute; exact I|].
    apply (bool_decide_unpack _). vm_compute. exact I. }
  destruct (tracker_keeps_rows_sound sampleDataset learnerTable 2 20035 false)
    as (_ & Hkeep).
  split; [exact H1|exact (Hkeep H1)].
Defined.

(** The per-category map the tracker starts from. *)
Lemma updatedStat_regional byID stat pokemonID isCorrect stat' :
  updatedStat byID stat pokemonID isCorrect = Some stat' →
  TotalCorrect stat'
  = (if isCorrect then Int.incr (TotalCorrect stat) else TotalCorrect stat) ∧
  RegionalStats stat' =
    match byID !! pokemonID with
    | Some pokemon =>
        if decide (Category pokemon = "") then RegionalStats stat
        else
          let regionalStats :=
            match RegionalStats stat with Json m => m | _ => ∅ end in
          Json (<[Category pokemon :=
                    bumpDetail (default zeroDetail (regionalStats !! Category pokemon))
                      isCorrect]> regionalStats)
    | None => RegionalStats stat
    end.
Proof.
  unfold updatedStat, updateRegionalStats. simpl.
  destruct (byID !! pokemonID) as [pokemon|]; [case_decide|];
    destruct (RegionalStats stat) eqn:Hrs; try done;
    destruct isCorrect; intros [= <-]; simpl; by rewrite ?Hrs.
Qed.

(** X11: counters stay consistent.  If a row has no more correct answers
    than answers, overall and in every category, and the counters an answer
    increments are below the largest [int], then the row saved after the
    answer has the same property. *)
Theorem counters_stay_consistent
    (byID : Dataset) (db db' : StatTable) (userID : N) (pokemonID : Z)
    (isCorrect : bool) :
  consistentCounters (rowOf db userID) →
  TotalQuestions (rowOf db userID) < Int.MaxInt →
  (∀ pokemon, byID !! pokemonID = Some pokemon →
     categoryTotal (Category pokemon) (rowOf db userID) < Int.MaxInt) →
  updateUserStats byID db userID pokemonID isCorrect = Some db' →
  consistentCounters (rowOf db' userID).
Proof.
  intros [Htot Hmap] Hmax Hcat Hup.
  pose proof (updateUserStats_row _ _ _ _ _ _ Hup) as Hrow.
  destruct (updatedStat_fields _ _ _ _ _ Hrow) as (Htq & _ & _).
  destruct (updatedStat_regional _ _ _ _ _ Hrow) as (Htc & Hrs).
  assert (Int.MinInt ≤ 0) as Hmin by (unfold Int.MinInt; lia).
  split.
  - rewrite Htq, Htc.
    destruct isCorrect; rewrite !incr_in_range by lia; lia.
  - rewrite Hrs. destruct (byID !! pokemonID) as [pokemon|] eqn:Hp; [|done].
    case_decide as He; [done|]. simpl.
    specialize (Hcat pokemon eq_refl). unfold categoryTotal in Hcat.
    set (m := match RegionalStats (rowOf db userID) with Json m => m | _ => ∅ end).
    assert (map_Forall (λ _ d, 0 ≤ Correct d ≤ Total d) m ∧
            Total (default zeroDetail (m !! Category pokemon)) < Int.MaxInt)
      as [Hm Hcm].
    { unfold m. destruct (RegionalStats (rowOf db userID)); simpl in *;
        split; try done; try apply map_Forall_empty;
        rewrite ?lookup_empty; simpl; unfold Int.MaxInt; lia. }
    apply map_Forall_insert_2; [|done].
    assert (0 ≤ Correct (default zeroDetail (m !! Category pokemon))
              ≤ Total (default zeroDetail (m !! Category pokemon))) as Hd.
    { destruct (m !! Category pokemon) as [d|] eqn:Hd; simpl; [|lia].
      exact (Hm _ _ Hd). }
    unfold bumpDetail. simpl.
    destruct isCorrect; rewrite !incr_in_range by lia; lia.
Qed.

Lemma counters_stay_consistent_witness :
  consistentCounters (rowOf learnerTable 2) ∧
  TotalQuestions (rowOf learnerTable 2) < Int.MaxInt ∧
  categoryTotal (Category sampleRecord) (rowOf learnerTable 2) < Int.MaxInt ∧
  consistentCounters
    (rowOf (default ∅ (updateUserStats sampleDataset learnerTable 2 6 true)) 2).
Proof.
  assert (consistentCounters (rowOf learnerTable 2)) as H1.
  { split; [vm_compute; split; discriminate|].
    intros c d Hd. change (rowOf learnerTable 2) with learnerStat in Hd. simpl in Hd.
    apply lookup_singleton_Some in Hd as [_ <-]. simpl. lia. }
  assert (TotalQuestions (rowOf learnerTable 2) < Int.MaxInt) as H2
    by decide_by_computation.
  assert (categoryTotal (Category sampleRecord) (rowOf learnerTable 2) < Int.MaxInt) as H3
    by decide_by_computation.
  assert (∀ pokemon, sampleDataset !! 6 = Some pokemon →
            categoryTotal (Category pokemon) (rowOf learnerTable 2) < Int.MaxInt) as H3'.
  { intros pokemon Hp.
    assert (pokemon = sampleRecord) as ->; [|exact H3].
    assert (sampleDataset !! 6 = Some sampleRecord) as Hs by (vm_compute; reflexivity).
    congruence. }
  assert (updateUserStats sampleDataset learnerTable 2 6 true
          = Some (default ∅ (updateUserStats sampleDataset learnerTable 2 6 true))) as H4
    by (vm_compute; reflexivity).
  split; [exact H1|]. split; [exact H2|]. split; [exact H3|].
  exact (counters_stay_consistent sampleDataset learnerTable _ 2 6 true H1 H2 H3' H4).
Defined.

(** X12: a recorded answer on a record with a non-empty category raises the
    user's total-correct counter and that category's correct counter by one
    when the answer was correct and leaves both as they were when it was
    not; the counters of every other category are left as they were. *)
Theorem correct_counters_follow_answer
    (byID : Dataset) (db db' : StatTable) (userID : N) (pokemonID : Z)
    (isCorrect : bool) (pokemon : Pokemon) :
  byID !! pokemonID = Some pokemon →
  Category pokemon ≠ "" →
  holdsCounters (RegionalStats (rowOf db userID)) →
  belowMax (TotalCorrect (rowOf db userID)) →
  belowMax (categoryCorrect (Category pokemon) (rowOf db userID)) →
  updateUserStats byID db userID pokemonID isCorrect = Some db' →
  TotalCorrect (rowOf db' userID)
  = TotalCorrect (rowOf db userID) + (if isCorrect then 1 else 0) ∧
  categoryCorrect (Category pokemon) (rowOf db' userID)
  = categoryCorrect (Category pokemon) (rowOf db userID) + (if isCorrect then 1 else 0) ∧
  (∀ c, c ≠ Category pokemon →
     regionalStatsLenient (RegionalStats (rowOf db' userID)) !! c
     = regionalStatsLenient (RegionalStats (rowOf db userID)) !! c).
Proof.
  intros Hp Hc Hcol Htc Hcc Hup.
  pose proof (updateUserStats_row _ _ _ _ _ _ Hup) as Hrow.
  destruct (updatedStat_regional _ _ _ _ _ Hrow) as (-> & Hrs).
  rewrite Hp, decide_False in Hrs by done. simpl in Hrs.
  unfold categoryCorrect in *. rewrite Hrs. simpl.
  assert (match RegionalStats (rowOf db userID) with Json m => m | _ => ∅ end
          = regionalStatsLenient (RegionalStats (rowOf db userID))) as ->.
  { by destruct (RegionalStats (rowOf db userID)). }
  split; [|split].
  - destruct isCorrect; [by apply incr_in_range|lia].
  - rewrite lookup_insert_eq. simpl.
    destruct isCorrect; [by apply incr_in_range|lia].
  - intros c Hne. by rewrite lookup_insert_ne.
Qed.

Lemma correct_counters_follow_answer_witness :
  sampleDataset !! 6 = Some sampleRecord ∧
  Category sampleRecord ≠ "" ∧
  holdsCounters (RegionalStats (rowOf learnerTable 2)) ∧
  belowMax (TotalCorrect (rowOf learnerTable 2)) ∧
  belowMax (categoryCorrect (Category sampleRecord) (rowOf learnerTable 2)) ∧
  TotalCorrect (rowOf (default ∅ (updateUserStats sampleDataset learnerTable 2 6 true)) 2)
  = TotalCorrect (rowOf learnerTable 2) + 1 ∧
  categoryCorrect (Category sampleRecord)
    (rowOf (default ∅ (updateUserStats sampleDataset learnerTable 2 6 true)) 2)
  = categoryCorrect (Category sampleRecord) (rowOf learnerTable 2) + 1.
Proof.
  assert (sampleDataset !! 6 = Some sampleRecord) as H1 by (vm_compute; reflexivity).
  assert (Category sampleRecord ≠ "") as H2 by decide_by_computation.
  assert (holdsCounters (RegionalStats (rowOf learnerTable 2))) as H3
    by (vm_compute; exact I).
  assert (belowMax (TotalCorrect (rowOf learnerTable 2))) as H4
    by (unfold belowMax; decide_by_computation).
  assert (belowMax (categoryCorrect (Category sampleRecord) (rowOf learnerTable 2))) as H5
    by (unfold belowMax; decide_by_computation).
  assert (updateUserStats sampleDataset learnerTable 2 6 true
          = Some (default ∅ (updateUserStats sampleDataset learnerTable 2 6 true))) as H6
    by (vm_compute; reflexivity).
  destruct (correct_counters_follow_answer sampleDataset learnerTable _ 2 6 true
              sampleRecord H1 H2 H3 H4 H5 H6) as (Htotal & Hcategory & _).
  split; [exact H1|]. split; [exact H2|]. split; [exact H3|].
  split; [exact H4|]. split; [exact H5|]. split; [exact Htotal|exact Hcategory].
Defined.

(** X13: an answer for a record without a category, or for an id the dataset
    does not hold, is still recorded: the transaction is committed whatever
    the per-category column holds, that column is left as it was, the
    total-answered counter is incremented and the missed list is updated. *)
Theorem uncategorised_answer_skips_category_counters
    (byID : Dataset) (db : StatTable) (userID : N) (pokemonID : Z) (isCorrect : bool) :
  (byID !! pokemonID = None ∨
   ∃ pokemon, byID !! pokemonID = Some pokemon ∧ Category pokemon = "") →
  ∃ db',
    updateUserStats byID db userID pokemonID isCorrect = Some db' ∧
    RegionalStats (rowOf db' userID) = RegionalStats (rowOf db userID) ∧
    TotalQuestions (rowOf db' userID) = Int.incr (TotalQuestions (rowOf db userID)) ∧
    (pokemonID ∈ missedSet (rowOf db' userID) ↔ isCorrect = false).
Proof.
  intros Hcase.
  assert (∃ stat', updatedStat byID (rowOf db userID) pokemonID isCorrect = Some stat')
    as [stat' Hs].
  { unfold updatedStat. destruct Hcase as [->|(pokemon & -> & ->)]; simpl;
      destruct isCorrect; eauto. }
  destruct (updateUserStats_commits _ _ _ _ _ _ Hs) as [db' Hdb].
  pose proof (updateUserStats_row _ _ _ _ _ _ Hdb) as Hrow.
  destruct (updatedStat_fields _ _ _ _ _ Hrow) as (Htq & Hw & _).
  destruct (updatedStat_regional _ _ _ _ _ Hrow) as (_ & Hrs).
  exists db'. split; [done|]. split; [|split; [done|]].
  - rewrite Hrs. destruct Hcase as [->|(pokemon & -> & He)]; [done|].
    by rewrite decide_True.
  - unfold missedSet. rewrite Hw. simpl. destruct isCorrect.
    + rewrite list_elem_of_filter. split; [intros [? _]; done|done].
    + split; [done|]. intros _. case_bool_decide; [done|].
      apply elem_of_app. right. left.
Qed.

Lemma uncategorised_answer_skips_category_counters_witness :
  (sampleDataset !! 999 = None ∨
   ∃ pokemon, sampleDataset !! 999 = Some pokemon ∧ Category pokemon = "") ∧
  ∃ db',
    updateUserStats sampleDataset legacyTable 3 999 true = Some db' ∧
    RegionalStats (rowOf db' 3) = RegionalStats (rowOf legacyTable 3) ∧
    TotalQuestions (rowOf db' 3) = Int.incr (TotalQuestions (rowOf legacyTable 3)) ∧
    (999 ∈ missedSet (rowOf db' 3) ↔ true = false).
Proof.
  assert (sampleDataset !! 999 = None ∨
          ∃ pokemon, sampleDataset !! 999 = Some pokemon ∧ Category pokemon = "") as H1
    by (left; vm_compute; reflexivity).
  split; [exact H1|].
  exact (uncategorised_answer_skips_category_counters sampleDataset legacyTable 3 999
           true H1).
Defined.

(** X14: when the stored per-category column is the text null, an answer
    for a record with a non-empty category is never recorded: the assignment
    into the nil map panics, the transaction is rolled back, and the handler
    ends in the recovered panic with the table as it was. *)
Theorem null_counters_abort_answer
    (byID : Dataset) (db : StatTable) (userID : N) (id : Z) (name : string)
    (pokemon : Pokemon) :
  keyedByID byID →
  byID !! id = Some pokemon →
  Category pokemon ≠ "" →
  RegionalStats (rowOf db userID) = Null →
  updateUserStats byID db userID id (bool_decide (name = Name pokemon)) = None ∧
  handleAnswer byID db (answerRequest userID id name) = (db, Panicked).
Proof.
  intros Hkey Hp Hc Hnull.
  assert (∀ isCorrect, updateUserStats byID db userID id isCorrect = None) as Hup.
  { intros isCorrect. unfold updateUserStats. unfold rowOf in Hnull.
    destruct (FirstOrCreate db userID) as [tx stat]. simpl in Hnull.
    unfold updatedStat, updateRegionalStats. simpl.
    by rewrite Hp, decide_False, Hnull. }
  split; [apply Hup|].
  unfold handleAnswer. simpl. rewrite Hp, (Hkey _ _ Hp). by rewrite Hup.
Qed.

Lemma null_counters_abort_answer_witness :
  keyedByID sampleDataset ∧
  sampleDataset !! 6 = Some sampleRecord ∧
  Category sampleRecord ≠ "" ∧
  RegionalStats (rowOf {[ 4%N := setRegionalStats learnerStat Null ]} 4) = Null ∧
  updateUserStats sampleDataset {[ 4%N := setRegionalStats learnerStat Null ]} 4 6
    (bool_decide ("リザードン" = Name sampleRecord)) = None ∧
  handleAnswer sampleDataset {[ 4%N := setRegionalStats learnerStat Null ]}
    (answerRequest 4 6 "リザードン")
  = ({[ 4%N := setRegionalStats learnerStat Null ]}, Panicked).
Proof.
  assert (keyedByID sampleDataset) as H1.
  { intros k p Hk. apply elem_of_map_to_list in Hk.
    vm_compute in Hk. repeat (apply elem_of_cons in Hk as [Hk|Hk]; [by inversion Hk|]).
    by apply elem_of_nil in Hk. }
  assert (sampleDataset !! 6 = Some sampleRecord) as H2 by (vm_compute; reflexivity).
  assert (Category sampleRecord ≠ "") as H3 by decide_by_computation.
  assert (RegionalStats (rowOf {[ 4%N := setRegionalStats learnerStat Null ]} 4) = Null)
    as H4 by (vm_compute; reflexivity).
  split; [exact H1|]. split; [exact H2|]. split; [exact H3|]. split; [exact H4|].
  exact (null_counters_abort_answer sampleDataset _ 4 6 "リザードン" sampleRecord
           H1 H2 H3 H4).
Defined.

(** * Further properties of the stats read *)

(** X15: once an answer on a record with a non-empty category has been
    recorded, a stats read replies with the stored counters, which hold an
    entry for that category, and never with migrated ones; the table is left
    as it was. *)
Theorem stats_after_categorised_answer
    (rangeMap : Dataset → list (Z * Pokemon)) (byID : Dataset)
    (db db' : StatTable) (userID : N) (pokemonID : Z) (isCorrect : bool)
    (pokemon : Pokemon) :
  byID !! pokemonID = Some pokemon →
  Category pokemon ≠ "" →
  updateUserStats byID db userID pokemonID isCorrect = Some db' →
  handleGetStats rangeMap byID db' userID
  = (db', Reply (StoredStats (TotalQuestions (rowOf db' userID))
                   (TotalCorrect (rowOf db' userID))
                   (WrongAnswers (rowOf db' userID))
                   (regionalStatsLenient (RegionalStats (rowOf db' userID))))) ∧
  is_Some (regionalStatsLenient (RegionalStats (rowOf db' userID)) !! Category pokemon).
Proof.
  intros Hp Hc Hup.
  pose proof (updateUserStats_row _ _ _ _ _ _ Hup) as Hrow.
  destruct (updatedStat_regional _ _ _ _ _ Hrow) as (_ & Hrs).
  rewrite Hp, decide_False in Hrs by done. simpl in Hrs.
  destruct (updateUserStats_table _ _ _ _ _ _ Hup) as (stat' & Hs & Hdb).
  assert (db' !! userID = Some (rowOf db' userID)) as Hlook.
  { rewrite Hdb at 1. rewrite lookup_insert_eq. f_equal. congruence. }
  assert (is_Some (regionalStatsLenient (RegionalStats (rowOf db' userID))
                     !! Category pokemon)) as Hsome.
  { rewrite Hrs. simpl. rewrite lookup_insert_eq. eauto. }
  split; [|done]. unfold handleGetStats. rewrite Hlook.
  rewrite bool_decide_eq_false_2; [done|].
  intros Hsize. apply map_size_empty_iff in Hsize. rewrite Hsize in Hsome.
  rewrite lookup_empty in Hsome. by destruct Hsome.
Qed.

Lemma stats_after_categorised_answer_witness :
  sampleDataset !! 6 = Some sampleRecord ∧
  Category sampleRecord ≠ "" ∧
  handleGetStats map_to_list sampleDataset
    (default ∅ (updateUserStats sampleDataset legacyTable 3 6 true)) 3
  = (default ∅ (updateUserStats sampleDataset legacyTable 3 6 true),
     Reply (StoredStats 13 8 (Json [20035; 999; 20034])
              {[ "kanto" := {| Total := 1; Correct := 1 |} ]})).
Proof.
  assert (sampleDataset !! 6 = Some sampleRecord) as H1 by (vm_compute; reflexivity).
  assert (Category sampleRecord ≠ "") as H2 by decide_by_computation.
  assert (updateUserStats sampleDataset legacyTable 3 6 true
          = Some (default ∅ (updateUserStats sampleDataset legacyTable 3 6 true))) as H3
    by (vm_compute; reflexivity).
  destruct (stats_after_categorised_answer map_to_list sampleDataset legacyTable _ 3 6
              true sampleRecord H1 H2 H3) as [Hread _].
  split; [exact H1|]. split; [exact H2|].
  rewrite Hread. vm_compute. reflexivity.
Defined.

(** X16: the counters shown by the migration are not carried over.  When a
    row whose stored per-category map is empty receives its first answer on
    a record with a non-empty category, the saved map holds that category
    alone, with total 1 and correct 1 or 0; so the next stats read shows no
    other category, whatever the missed list holds. *)
Theorem legacy_counters_not_carried_over
    (byID : Dataset) (db db' : StatTable) (userID : N) (pokemonID : Z)
    (isCorrect : bool) (pokemon : Pokemon) :
  byID !! pokemonID = Some pokemon →
  Category pokemon ≠ "" →
  regionalStatsLenient (RegionalStats (rowOf db userID)) = ∅ →
  updateUserStats byID db userID pokemonID isCorrect = Some db' →
  RegionalStats (rowOf db' userID)
  = Json {[ Category pokemon :=
              {| Total := 1; Correct := if isCorrect then 1 else 0 |} ]}.
Proof.
  intros Hp Hc Hempty Hup.
  pose proof (updateUserStats_row _ _ _ _ _ _ Hup) as Hrow.
  destruct (updatedStat_regional _ _ _ _ _ Hrow) as (_ & Hrs).
  rewrite Hp, decide_False in Hrs by done. simpl in Hrs. rewrite Hrs.
  assert (match RegionalStats (rowOf db userID) with Json m => m | _ => ∅ end = ∅) as ->.
  { destruct (RegionalStats (rowOf db userID)); simpl in Hempty; done. }
  rewrite lookup_empty. simpl. unfold bumpDetail. simpl.
  f_equal.
Qed.

Lemma legacy_counters_not_carried_over_witness :
  sampleDataset !! 6 = Some sampleRecord ∧
  Category sampleRecord ≠ "" ∧
  regionalStatsLenient (RegionalStats (rowOf legacyTable 3)) = ∅ ∧
  migrateRegionalStatsFromWrongAnswers map_to_list sampleDataset (rowOf legacyTable 3)
    !! "mega" = Some {| Total := 2; Correct := 0 |} ∧
  RegionalStats
    (rowOf (default ∅ (updateUserStats sampleDataset legacyTable 3 6 false)) 3)
  = Json {[ Category sampleRecord :=
              {| Total := 1; Correct := if false then 1 else 0 |} ]}.
Proof.
  assert (sampleDataset !! 6 = Some sampleRecord) as H1 by (vm_compute; reflexivity).
  assert (Category sampleRecord ≠ "") as H2 by decide_by_computation.
  assert (regionalStatsLenient (RegionalStats (rowOf legacyTable 3)) = ∅) as H3
    by (vm_compute; reflexivity).
  assert (updateUserStats sampleDataset legacyTable 3 6 false
          = Some (default ∅ (updateUserStats sampleDataset legacyTable 3 6 false))) as H4
    by (vm_compute; reflexivity).
  split; [exact H1|]. split; [exact H2|]. split; [exact H3|].
  split; [vm_compute; reflexivity|].
  exact (legacy_counters_not_carried_over sampleDataset legacyTable _ 3 6 false
           sampleRecord H1 H2 H3 H4).
Defined.

Lemma migrate_fold_none (wrongSet : gset Z) (l : list (Z * Pokemon)) acc :
  (∀ id p, (id, p) ∈ l → id ∈ wrongSet → Category p = "") →
  foldl (migrateStep wrongSet) acc l = acc.
Proof.
  revert acc. induction l as [|[id p] l IH]; intros acc Hl; [done|].
  simpl. rewrite IH by (intros ???; apply Hl; by right).
  unfold migrateStep. case_decide as He; [done|].
  case_decide as Hin; [|done]. exfalso. apply He.
  eapply Hl; [left|done].
Qed.

(** X17: the migration reconstructs nothing from a missed list none of whose
    ids names a dataset record with a category: in particular, for a user
    who has since corrected every mistake, the stats read of a legacy row
    replies with empty per-category counters. *)
Theorem migration_of_cleared_list_is_empty
    (rangeMap : Dataset → list (Z * Pokemon)) (byID : Dataset)
    (db : StatTable) (userID : N) (userStat : UserStat) :
  rangeMap byID ≡ₚ map_to_list byID →
  (∀ id p, id ∈ missedSet userStat → byID !! id = Some p → Category p = "") →
  migrateRegionalStatsFromWrongAnswers rangeMap byID userStat = ∅ ∧
  (db !! userID = Some userStat →
   size (regionalStatsLenient (RegionalStats userStat)) = 0%nat →
   handleGetStats rangeMap byID db userID
   = (db, Reply (StoredStats (TotalQuestions userStat) (TotalCorrect userStat)
                   (WrongAnswers userStat) ∅))).
Proof.
  intros Hperm Hnone.
  assert (migrateRegionalStatsFromWrongAnswers rangeMap byID userStat = ∅) as Hmig.
  { unfold migrateRegionalStatsFromWrongAnswers. apply migrate_fold_none.
    intros id p Hin Hset. apply (Hnone id p).
    - by apply elem_of_list_to_set in Hset.
    - rewrite Hperm in Hin. by apply elem_of_map_to_list in Hin. }
  split; [done|]. intros Hrow Hsize. unfold handleGetStats. rewrite Hrow.
  rewrite bool_decide_eq_true_2 by done. simpl.
  destruct (0 <? TotalQuestions userStat); [by rewrite Hmig|].
  by apply map_size_empty_iff in Hsize as ->.
Qed.

Lemma migration_of_cleared_list_is_empty_witness :
  map_to_list sampleDataset ≡ₚ map_to_list sampleDataset ∧
  (∀ id p, id ∈ missedSet (setWrongAnswers legacyStat (Json [])) →
           sampleDataset !! id = Some p → Category p = "") ∧
  migrateRegionalStatsFromWrongAnswers map_to_list sampleDataset
    (setWrongAnswers legacyStat (Json [])) = ∅.
Proof.
  assert (map_to_list sampleDataset ≡ₚ map_to_list sampleDataset) as H1 by reflexivity.
  assert (∀ id p, id ∈ missedSet (setWrongAnswers legacyStat (Json [])) →
                  sampleDataset !! id = Some p → Category p = "") as H2.
  { intros id p Hin. apply elem_of_nil in Hin. destruct Hin. }
  destruct (migration_of_cleared_list_is_empty map_to_list sampleDataset ∅ 3
              (setWrongAnswers legacyStat (Json [])) H1 H2) as [Hmig _].
  split; [exact H1|]. split; [exact H2|exact Hmig].
Defined.

(** * Answers followed by review *)

Lemma handleGetQuiz_review_row rangeMap byID pools db userID stat region r :
  db !! userID = Some stat →
  handleGetQuiz rangeMap byID pools db (reviewRequest region userID) r =
  match missedSet stat with
  | [] => (db, Reject StatusNotFound "間違えた問題はありません", r)
  | wrongIDs =>
      let '(randIndex, r') := randInt (length wrongIDs) r in
      match wrongIDs !! randIndex with
      | None => (db, Panicked, r')
      | Some targetID =>
          match byID !! targetID with
          | None => (db, Reject StatusInternalServerError
                           "ポケモンのデータが見つかりません", r')
          | Some pokemon =>
              let '(resp, r'') :=
                sendQuiz pokemon (reviewPool rangeMap byID pools pokemon) r' in
              (db, resp, r'')
          end
      end
  end.
Proof.
  intros Hrow. unfold handleGetQuiz, FirstOrCreate, missedSet, reviewPool. simpl.
  rewrite Hrow. by destruct (wrongIDsLenient (WrongAnswers stat)).
Qed.

Lemma updateUserStats_lookup byID db userID pokemonID isCorrect db' :
  updateUserStats byID db userID pokemonID isCorrect = Some db' →
  db' !! userID = Some (rowOf db' userID).
Proof.
  intros (stat' & _ & ->)%updateUserStats_table.
  rewrite lookup_insert_eq. f_equal. symmetry.
  apply rowOf_lookup, lookup_insert_eq.
Qed.

Lemma missedSet_empty_strict stat :
  missedSet stat = [] → wrongIDsStrict (WrongAnswers stat) = [].
Proof. unfold missedSet. by destruct (WrongAnswers stat). Qed.

(** X18: a first mistake is what review mode asks next.  When a user whose
    missed list is empty submits a wrong name for a record of a dataset
    keyed by id, the answer is graded incorrect with that record as the
    truth, and every review-mode request that follows, whatever region it
    names and whatever the entropy, is answered with a question about that
    very record. *)
Theorem first_mistake_is_reviewed
    (rangeMap : Dataset → list (Z * Pokemon)) (byID : Dataset)
    (pools : CategoryIndex) (db : StatTable) (userID : N) (id : Z)
    (name : string) (pokemon : Pokemon) :
  rangeMap byID ≡ₚ map_to_list byID →
  keyedByID byID →
  byID !! id = Some pokemon →
  name ≠ Name pokemon →
  missedSet (rowOf db userID) = [] →
  RegionalStats (rowOf db userID) ≠ Null →
  ∃ db',
    handleAnswer byID db (answerRequest userID id name)
    = (db', Reply {| isCorrect := false; correctPokemon := pokemon |}) ∧
    missedSet (rowOf db' userID) = [id] ∧
    ∀ region r, ∃ q r',
      handleGetQuiz rangeMap byID pools db' (reviewRequest region userID) r
      = (db', Reply q, r') ∧
      quiz_id q = id ∧ Name pokemon ∈ quiz_options q.
Proof.
  intros Hperm Hkey Hp Hname Hempty Hnull.
  destruct (updatedStat_total byID _ id false Hnull) as [stat' Hs].
  destruct (updateUserStats_commits _ _ _ _ _ _ Hs) as [db' Hup].
  pose proof (updateUserStats_row _ _ _ _ _ _ Hup) as Hrow.
  destruct (updatedStat_fields _ _ _ _ _ Hrow) as (_ & Hw & _).
  rewrite (missedSet_empty_strict _ Hempty) in Hw. simpl in Hw.
  assert (missedSet (rowOf db' userID) = [id]) as Hmissed
    by (unfold missedSet; by rewrite Hw).
  exists db'. split; [|split; [done|]].
  - unfold handleAnswer. simpl. rewrite Hp, (Hkey _ _ Hp).
    rewrite bool_decide_eq_false_2 by done. by rewrite Hup.
  - intros region r.
    rewrite (handleGetQuiz_review_row _ _ _ _ _ _ _ _ (updateUserStats_lookup _ _ _ _ _ _ Hup)).
    rewrite Hmissed. cbv zeta.
    assert ((randInt (length [id]) r).1 = 0%nat) as Hzero.
    { pose proof (randInt_lt 1 r ltac:(lia)). simpl. lia. }
    destruct (randInt (length [id]) r) as [i r1]. simpl in Hzero. subst i.
    assert ([id] !! 0%nat = Some id) as -> by reflexivity.
    rewrite Hp.
    assert (reviewPool rangeMap byID pools pokemon ≠ []) as Hpool.
    { unfold reviewPool.
      assert (pokemon ∈ (rangeMap byID).*2) as Hin.
      { apply list_elem_of_fmap. exists (id, pokemon). split; [done|].
        rewrite Hperm. by apply elem_of_map_to_list. }
      destruct (pools !! Category pokemon) as [[|q pool]|]; try done;
        intros Hnil; rewrite Hnil in Hin; by apply elem_of_nil in Hin. }
    destruct (sendQuiz_options pokemon _ r1 Hpool)
      as (q & r' & picked & Hq & Hid & Hopts & _).
    rewrite Hq. exists q, r'. split; [done|]. split.
    + rewrite Hid. by apply Hkey.
    + rewrite Hopts. left.
Qed.

Lemma first_mistake_is_reviewed_witness :
  map_to_list pairDataset ≡ₚ map_to_list pairDataset ∧
  keyedByID pairDataset ∧
  pairDataset !! 1 = Some (plainRecord 1 "A") ∧
  "B" ≠ Name (plainRecord 1 "A") ∧
  missedSet (rowOf ∅ 5) = [] ∧
  RegionalStats (rowOf ∅ 5) ≠ Null ∧
  ∃ db',
    handleAnswer pairDataset ∅ (answerRequest 5 1 "B")
    = (db', Reply {| isCorrect := false; correctPokemon := plainRecord 1 "A" |}) ∧
    missedSet (rowOf db' 5) = [1] ∧
    ∀ region r, ∃ q r',
      handleGetQuiz map_to_list pairDataset pairIndex db' (reviewRequest region 5) r
      = (db', Reply q, r') ∧
      quiz_id q = 1 ∧ Name (plainRecord 1 "A") ∈ quiz_options q.
Proof.
  assert (map_to_list pairDataset ≡ₚ map_to_list pairDataset) as H1 by reflexivity.
  assert (keyedByID pairDataset) as H2.
  { intros k p Hk. apply elem_of_map_to_list in Hk.
    vm_compute in Hk. repeat (apply elem_of_cons in Hk as [Hk|Hk]; [by inversion Hk|]).
    by apply elem_of_nil in Hk. }
  assert (pairDataset !! 1 = Some (plainRecord 1 "A")) as H3 by (vm_compute; reflexivity).
  assert ("B" ≠ Name (plainRecord 1 "A")) as H4 by (simpl; discriminate).
  assert (missedSet (rowOf ∅ 5) = []) as H5 by reflexivity.
  assert (RegionalStats (rowOf ∅ 5) ≠ Null) as H6 by (vm_compute; discriminate).
  split; [exact H1|]. split; [exact H2|]. split; [exact H3|]. split; [exact H4|].
  split; [exact H5|]. split; [exact H6|].
  exact (first_mistake_is_reviewed map_to_list pairDataset pairIndex ∅ 5 1 "B"
           (plainRecord 1 "A") H1 H2 H3 H4 H5 H6).
Defined.

(** X19: correcting the last mistake empties review mode.  When every id on
    a user's missed list is X and the user submits the right name for X, the
    answer is graded correct and every review-mode request that follows is
    rejected with status NotFound. *)
Theorem last_mistake_cleared
    (rangeMap : Dataset → list (Z * Pokemon)) (byID : Dataset)
    (pools : CategoryIndex) (db : StatTable) (userID : N) (X : Z)
    (pokemon : Pokemon) :
  keyedByID byID →
  byID !! X = Some pokemon →
  wellFormed (WrongAnswers (rowOf db userID)) →
  (∀ y, y ∈ missedSet (rowOf db userID) → y = X) →
  RegionalStats (rowOf db userID) ≠ Null →
  ∃ db',
    handleAnswer byID db (answerRequest userID X (Name pokemon))
    = (db', Reply {| isCorrect := true; correctPokemon := pokemon |}) ∧
    missedSet (rowOf db' userID) = [] ∧
    ∀ region r,
      handleGetQuiz rangeMap byID pools db' (reviewRequest region userID) r
      = (db', Reject StatusNotFound "間違えた問題はありません", r).
Proof.
  intros Hkey Hp Hwf Honly Hnull.
  destruct (updatedStat_total byID _ X true Hnull) as [stat' Hs].
  destruct (updateUserStats_commits _ _ _ _ _ _ Hs) as [db' Hup].
  pose proof (updateUserStats_row _ _ _ _ _ _ Hup) as Hrow.
  destruct (updatedStat_fields _ _ _ _ _ Hrow) as (_ & Hw & _).
  assert (missedSet (rowOf db' userID) = []) as Hmissed.
  { unfold missedSet at 1. rewrite Hw. simpl. rewrite wrongIDs_wellFormed by done.
    fold (missedSet (rowOf db userID)).
    destruct (filter _ _) as [|y l] eqn:Hf; [done|].
    assert (y ∈ filter (λ id, id ≠ X) (missedSet (rowOf db userID))) as Hy
      by (rewrite Hf; left).
    apply list_elem_of_filter in Hy as [Hne Hin]. by apply Honly in Hin. }
  exists db'. split; [|split; [done|]].
  - unfold handleAnswer. simpl. rewrite Hp, (Hkey _ _ Hp).
    rewrite bool_decide_eq_true_2 by done. by rewrite Hup.
  - intros region r.
    rewrite (handleGetQuiz_review_row _ _ _ _ _ _ _ _ (updateUserStats_lookup _ _ _ _ _ _ Hup)).
    by rewrite Hmissed.
Qed.

Lemma last_mistake_cleared_witness :
  keyedByID pairDataset ∧
  pairDataset !! 2 = Some (plainRecord 2 "B") ∧
  wellFormed (WrongAnswers (rowOf {[ 5%N := setWrongAnswers (newUserStat 5) (Json [2]) ]} 5)) ∧
  (∀ y, y ∈ missedSet (rowOf {[ 5%N := setWrongAnswers (newUserStat 5) (Json [2]) ]} 5) →
        y = 2) ∧
  RegionalStats (rowOf {[ 5%N := setWrongAnswers (newUserStat 5) (Json [2]) ]} 5) ≠ Null ∧
  ∃ db',
    handleAnswer pairDataset {[ 5%N := setWrongAnswers (newUserStat 5) (Json [2]) ]}
      (answerRequest 5 2 (Name (plainRecord 2 "B")))
    = (db', Reply {| isCorrect := true; correctPokemon := plainRecord 2 "B" |}) ∧
    missedSet (rowOf db' 5) = [] ∧
    ∀ region r,
      handleGetQuiz map_to_list pairDataset pairIndex db' (reviewRequest region 5) r
      = (db', Reject StatusNotFound "間違えた問題はありません", r).
Proof.
  assert (keyedByID pairDataset) as H1.
  { intros k p Hk. apply elem_of_map_to_list in Hk.
    vm_compute in Hk. repeat (apply elem_of_cons in Hk as [Hk|Hk]; [by inversion Hk|]).
    by apply elem_of_nil in Hk. }
  assert (pairDataset !! 2 = Some (plainRecord 2 "B")) as H2 by (vm_compute; reflexivity).
  assert (wellFormed (WrongAnswers
            (rowOf {[ 5%N := setWrongAnswers (newUserStat 5) (Json [2]) ]} 5))) as H3
    by (vm_compute; exact I).
  assert (∀ y, y ∈ missedSet
                 (rowOf {[ 5%N := setWrongAnswers (newUserStat 5) (Json [2]) ]} 5) →
               y = 2) as H4.
  { intros y Hy. change (y ∈ [2]) in Hy. by apply list_elem_of_singleton in Hy. }
  assert (RegionalStats
            (rowOf {[ 5%N := setWrongAnswers (newUserStat 5) (Json [2]) ]} 5) ≠ Null) as H5
    by (vm_compute; discriminate).
  split; [exact H1|]. split; [exact H2|]. split; [exact H3|]. split; [exact H4|].
  split; [exact H5|].
  exact (last_mistake_cleared map_to_list pairDataset pairIndex _ 5 2
           (plainRecord 2 "B") H1 H2 H3 H4 H5).
Defined.

(** * Further properties of the dataset builder *)

(** X20: the display name of a built record is the species' first [ja]
    name, else its first [ja-Hrkt] name, else the provider name of the form;
    it is empty only when all three are.  So whenever the species record has
    a Japanese name, every form built from that species gets the same
    display name, while the source name stays the form's own. *)
Theorem buildPokemon_name_priority
    (typeNameMap : gmap string string)
    (apiPokemon apiPokemon' : PokeAPI.PokemonResponse)
    (apiSpecies : PokeAPI.SpeciesResponse) :
  (firstName "ja" (PokeAPI.Names apiSpecies) ≠ "" →
   Name (buildPokemon typeNameMap apiPokemon apiSpecies)
   = firstName "ja" (PokeAPI.Names apiSpecies)) ∧
  (firstName "ja" (PokeAPI.Names apiSpecies) = "" →
   firstName "ja-Hrkt" (PokeAPI.Names apiSpecies) ≠ "" →
   Name (buildPokemon typeNameMap apiPokemon apiSpecies)
   = firstName "ja-Hrkt" (PokeAPI.Names apiSpecies)) ∧
  (Name (buildPokemon typeNameMap apiPokemon apiSpecies) = "" →
   PokeAPI.Name apiPokemon = "") ∧
  (firstName "ja" (PokeAPI.Names apiSpecies) ≠ "" ∨
   firstName "ja-Hrkt" (PokeAPI.Names apiSpecies) ≠ "" →
   Name (buildPokemon typeNameMap apiPokemon apiSpecies)
   = Name (buildPokemon typeNameMap apiPokemon' apiSpecies)) ∧
  EnglishName (buildPokemon typeNameMap apiPokemon apiSpecies) = PokeAPI.Name apiPokemon.
Proof.
  unfold buildPokemon. simpl.
  destruct (decide (firstName "ja" (PokeAPI.Names apiSpecies) = "")) as [Hja|Hja].
  - rewrite Hja. simpl.
    destruct (decide (firstName "ja-Hrkt" (PokeAPI.Names apiSpecies) = "")) as [Hh|Hh].
    + repeat split; try done. intros [?|?]; done.
    + repeat split; try done.
  - repeat (rewrite (decide_False (P := firstName "ja" _ = "")) by done).
    repeat split; try done.
Qed.

Lemma buildPokemon_name_priority_witness :
  firstName "ja" (PokeAPI.Names charizardSpecies) ≠ "" ∧
  Name (buildPokemon ∅ (charizardForm 10034 "charizard-mega-x" 78) charizardSpecies)
  = Name (buildPokemon ∅ (charizardForm 10035 "charizard-mega-y" 78) charizardSpecies) ∧
  Name (buildPokemon ∅ (charizardForm 10034 "charizard-mega-x" 78) charizardSpecies)
  = firstName "ja" (PokeAPI.Names charizardSpecies).
Proof.
  assert (firstName "ja" (PokeAPI.Names charizardSpecies) ≠ "") as H1
    by decide_by_computation.
  destruct (buildPokemon_name_priority ∅ (charizardForm 10034 "charizard-mega-x" 78)
              (charizardForm 10035 "charizard-mega-y" 78) charizardSpecies)
    as (Hja & _ & _ & Hsame & _).
  split; [exact H1|]. split; [exact (Hsame (or_introl H1))|exact (Hja H1)].
Defined.

Lemma lastBaseStat_snoc name stats s :
  lastBaseStat name (stats ++ [s]) =
  if decide (PokeAPI.StatName s = name) then PokeAPI.BaseStat s
  else lastBaseStat name stats.
Proof.
  unfold lastBaseStat. rewrite filter_app. case_decide.
  - rewrite filter_cons_True, filter_nil by done.
    rewrite fmap_app. change (PokeAPI.BaseStat <$> [s]) with [PokeAPI.BaseStat s].
    by rewrite last_snoc.
  - rewrite filter_cons_False, filter_nil by done. by rewrite app_nil_r.
Qed.

(** X21: each of the six stats of a built record is the base stat of the
    last provider entry that carries the stat's name, and 0 when the
    provider lists none; entries under any other name are ignored. *)
Theorem buildPokemon_stats
    (typeNameMap : gmap string string) (apiPokemon : PokeAPI.PokemonResponse)
    (apiSpecies : PokeAPI.SpeciesResponse) :
  Stats (buildPokemon typeNameMap apiPokemon apiSpecies) =
  {| HP := lastBaseStat "hp" (PokeAPI.Stats apiPokemon);
     Attack := lastBaseStat "attack" (PokeAPI.Stats apiPokemon);
     Defense := lastBaseStat "defense" (PokeAPI.Stats apiPokemon);
     SpAttack := lastBaseStat "special-attack" (PokeAPI.Stats apiPokemon);
     SpDefense := lastBaseStat "special-defense" (PokeAPI.Stats apiPokemon);
     Speed := lastBaseStat "speed" (PokeAPI.Stats apiPokemon) |}.
Proof.
  unfold buildPokemon. simpl.
  induction (PokeAPI.Stats apiPokemon) as [|s stats IH] using rev_ind; [done|].
  rewrite foldl_app. simpl. rewrite IH, !lastBaseStat_snoc.
  unfold setStat. simpl.
  destruct (decide (PokeAPI.StatName s = "hp")) as [Hn|?];
    [rewrite ?Hn; reflexivity|].
  destruct (decide (PokeAPI.StatName s = "attack")) as [Hn|?];
    [rewrite ?Hn; reflexivity|].
  destruct (decide (PokeAPI.StatName s = "defense")) as [Hn|?];
    [rewrite ?Hn; reflexivity|].
  destruct (decide (PokeAPI.StatName s = "special-attack")) as [Hn|?];
    [rewrite ?Hn; reflexivity|].
  destruct (decide (PokeAPI.StatName s = "special-defense")) as [Hn|?];
    [rewrite ?Hn; reflexivity|].
  destruct (decide (PokeAPI.StatName s = "speed")) as [Hn|?];
    [rewrite ?Hn; reflexivity|].
  reflexivity.
Qed.

Lemma loadTypeStep_None api l : foldl (loadTypeStep api) None l = None.
Proof. by induction l. Qed.

Lemma loadTypes_fold_fails api l t :
  foldl (loadTypeStep api) (Some t) l = None ↔ ∃ i, i ∈ l ∧ PokeAPI.getType api i = None.
Proof.
  revert t. induction l as [|i l IH]; intros t; simpl.
  - split; [done|]. intros (i & Hi & _). by apply elem_of_nil in Hi.
  - destruct (PokeAPI.getType api i) as [typeResp|] eqn:Hi.
    + rewrite IH. split.
      * intros (j & Hj & Hnone). exists j. split; [by right|done].
      * intros (j & [->|Hj]%elem_of_cons & Hnone); [congruence|eauto].
    + rewrite loadTypeStep_None. split; [|done]. intros _. exists i. split; [left|done].
Qed.

Lemma typeNames_insert_keys englishTypeName names (t : gmap string string) k :
  is_Some (foldl (λ t nameInfo,
                    if decide (PokeAPI.Language nameInfo = "ja-Hrkt")
                    then <[englishTypeName := PokeAPI.LocalName nameInfo]> t
                    else t) t names !! k) →
  is_Some (t !! k) ∨ k = englishTypeName.
Proof.
  revert t. induction names as [|n names IH]; intros t; simpl; [auto|].
  intros [Hk| ->]%IH; [|auto]. case_decide; [|auto].
  destruct (decide (k = englishTypeName)) as [->|Hne]; [auto|].
  rewrite lookup_insert_ne in Hk by done. auto.
Qed.

Lemma loadTypes_fold_keys api l t t' k :
  foldl (loadTypeStep api) (Some t) l = Some t' →
  is_Some (t' !! k) →
  is_Some (t !! k) ∨
  ∃ i typeResp, i ∈ l ∧ PokeAPI.getType api i = Some typeResp ∧
                k = firstName "en" (PokeAPI.TypeNames typeResp).
Proof.
  revert t. induction l as [|i l IH]; intros t; simpl.
  - intros [= <-]. auto.
  - destruct (PokeAPI.getType api i) as [typeResp|] eqn:Hi;
      [|by rewrite loadTypeStep_None].
    intros Hfold Hk. destruct (IH _ Hfold Hk) as [Hk'|(j & resp & Hj & Hget & ->)].
    + apply typeNames_insert_keys in Hk' as [Hk'| ->]; [auto|].
      right. exists i, typeResp. split; [left|done].
    + right. exists j, resp. split; [by right|done].
Qed.

(** X22: [loadTypeNames] asks the provider only when the table is empty: a
    non-empty table is returned as it is.  On an empty table it fails
    exactly when the provider fails for one of the type ids 1 to 18, and
    every key of the table it returns is the first English display name of
    one of the 18 type records. *)
Theorem loadTypeNames_outcome
    (api : PokeAPI.Provider) (typeNameMap : gmap string string) :
  ((0 < size typeNameMap)%nat → loadTypeNames api typeNameMap = Some typeNameMap) ∧
  (size typeNameMap = 0%nat →
   (loadTypeNames api typeNameMap = None ↔
    ∃ i, 1 ≤ i ≤ 18 ∧ PokeAPI.getType api i = None) ∧
   (∀ t k, loadTypeNames api typeNameMap = Some t → is_Some (t !! k) →
      ∃ i typeResp, 1 ≤ i ≤ 18 ∧ PokeAPI.getType api i = Some typeResp ∧
                    k = firstName "en" (PokeAPI.TypeNames typeResp))).
Proof.
  unfold loadTypeNames. split.
  - intros Hsize. by rewrite bool_decide_eq_true_2.
  - intros Hsize. rewrite bool_decide_eq_false_2 by lia. split.
    + rewrite loadTypes_fold_fails. split.
      * intros (i & Hi%elem_of_seqZ & Hnone). exists i. split; [lia|done].
      * intros (i & Hi & Hnone). exists i. split; [|done]. apply elem_of_seqZ. lia.
    + intros t k Hload Hk.
      destruct (loadTypes_fold_keys _ _ _ _ _ Hload Hk)
        as [Hk'|(i & resp & Hi%elem_of_seqZ & Hget & ->)].
      * apply map_size_empty_iff in Hsize. rewrite Hsize, lookup_empty in Hk'.
        by destruct Hk'.
      * exists i, resp. split; [lia|done].
Qed.

Lemma loadTypeNames_outcome_witness :
  size (∅ : gmap string string) = 0%nat ∧
  loadTypeNames sampleAPI ∅ = Some {[ "fire" := "ほのお" ]} ∧
  is_Some (({[ "fire" := "ほのお" ]} : gmap string string) !! "fire") ∧
  ∃ i typeResp, 1 ≤ i ≤ 18 ∧ PokeAPI.getType sampleAPI i = Some typeResp ∧
                "fire" = firstName "en" (PokeAPI.TypeNames typeResp).
Proof.
  assert (size (∅ : gmap string string) = 0%nat) as H1 by reflexivity.
  assert (loadTypeNames sampleAPI ∅ = Some {[ "fire" := "ほのお" ]}) as H2
    by (vm_compute; reflexivity).
  assert (is_Some (({[ "fire" := "ほのお" ]} : gmap string string) !! "fire")) as H3
    by (vm_compute; eauto).
  destruct (loadTypeNames_outcome sampleAPI ∅) as (_ & Hempty).
  destruct (Hempty H1) as (_ & Hkeys).
  split; [exact H1|]. split; [exact H2|]. split; [exact H3|].
  exact (Hkeys _ "fire" H2 H3).
Defined.

(** X23: a record is built with the translations of those provider types
    that are keys of the type table, in the provider's order.  When none of
    them is a key, the record has no types and fails the completeness test,
    so a cache whose record of id 1 was built that way triggers the full
    fetch at every startup. *)
Theorem untranslated_types_force_refetch
    (api : PokeAPI.Provider) (rangeMap : Dataset → list (Z * Pokemon))
    (rangeRegions : list (string * Z)) (fs : FileSystem)
    (typeNameMap typeNameMap0 : gmap string string) (m : Dataset)
    (apiPokemon : PokeAPI.PokemonResponse) (apiSpecies : PokeAPI.SpeciesResponse) :
  (∀ typeID, typeID ∈ PokeAPI.Types apiPokemon → typeNameMap !! typeID = None) →
  cache fs = Holds (Decodes m) →
  m !! 1 = Some (buildPokemon typeNameMap apiPokemon apiSpecies) →
  Types (buildPokemon typeNameMap apiPokemon apiSpecies) = [] ∧
  incomplete (buildPokemon typeNameMap apiPokemon apiSpecies) = true ∧
  ∃ rest,
    events (loadOrFetchPokemonData api rangeMap rangeRegions fs typeNameMap0)
    = FetchAll ∅ :: rest.
Proof.
  intros Hnone Hcache Hsample.
  assert (Types (buildPokemon typeNameMap apiPokemon apiSpecies) = []) as Htypes.
  { unfold buildPokemon. simpl.
    induction (PokeAPI.Types apiPokemon) as [|typeID l IH]; [done|].
    simpl. rewrite (Hnone typeID) by left. simpl. apply IH.
    intros t Ht. apply Hnone. by right. }
  assert (incomplete (buildPokemon typeNameMap apiPokemon apiSpecies) = true) as Hinc.
  { apply incomplete_spec. by left. }
  split; [done|]. split; [done|].
  unfold loadOrFetchPokemonData. rewrite Hcache, Hsample, Hinc.
  destruct (fetchAllPokemonData api typeNameMap0 ∅) as [[t m']|]; simpl; eauto.
Qed.

Lemma untranslated_types_force_refetch_witness :
  (∀ typeID, typeID ∈ PokeAPI.Types (charizardForm 1 "bulbasaur" 45) →
             (∅ : gmap string string) !! typeID = None) ∧
  cache (cachedStart {[ 1 := buildPokemon ∅ (charizardForm 1 "bulbasaur" 45)
                                 charizardSpecies ]})
  = Holds (Decodes {[ 1 := buildPokemon ∅ (charizardForm 1 "bulbasaur" 45)
                                 charizardSpecies ]}) ∧
  Types (buildPokemon ∅ (charizardForm 1 "bulbasaur" 45) charizardSpecies) = [] ∧
  incomplete (buildPokemon ∅ (charizardForm 1 "bulbasaur" 45) charizardSpecies) = true ∧
  ∃ rest,
    events (loadOrFetchPokemonData sampleAPI map_to_list
              (map_to_list regionGenerationMap)
              (cachedStart {[ 1 := buildPokemon ∅ (charizardForm 1 "bulbasaur" 45)
                                     charizardSpecies ]}) ∅)
    = FetchAll ∅ :: rest.
Proof.
  assert (∀ typeID, typeID ∈ PokeAPI.Types (charizardForm 1 "bulbasaur" 45) →
                    (∅ : gmap string string) !! typeID = None) as H1
    by (intros typeID _; apply lookup_empty).
  assert (cache (cachedStart {[ 1 := buildPokemon ∅ (charizardForm 1 "bulbasaur" 45)
                                        charizardSpecies ]})
          = Holds (Decodes {[ 1 := buildPokemon ∅ (charizardForm 1 "bulbasaur" 45)
                                        charizardSpecies ]})) as H2 by reflexivity.
  assert (({[ 1 := buildPokemon ∅ (charizardForm 1 "bulbasaur" 45) charizardSpecies ]}
             : Dataset) !! 1
          = Some (buildPokemon ∅ (charizardForm 1 "bulbasaur" 45) charizardSpecies)) as H3
    by apply lookup_singleton_eq.
  split; [exact H1|]. split; [exact H2|].
  exact (untranslated_types_force_refetch sampleAPI map_to_list
           (map_to_list regionGenerationMap) _ ∅ ∅ _ _ _ H1 H2 H3).
Defined.

Lemma varietyCategory_builder vName c :
  varietyCategory vName = Some c → builderCategory c.
Proof.
  rewrite varietyCategory_nameCategory. intros Hc%nameCategory_special.
  unfold builderCategory. tauto.
Qed.

Lemma fetchAndAddVariety_kept P api typeNameMap name category (m : Dataset) :
  keptByBuilder P → builderCategory category → P m →
  P (fetchAndAddVariety api typeNameMap name category m).
Proof.
  intros HP Hc Hm. unfold fetchAndAddVariety.
  case_bool_decide; [done|].
  destruct (PokeAPI.getPokemonByName api name) as [apiPokemon|]; [|done].
  destruct (PokeAPI.getSpeciesByURL api _) as [apiSpecies|]; [|done].
  by apply HP.
Qed.

Lemma fetchOne_kept P api typeNameMap (m : Dataset) id :
  keptByBuilder P → P m → P (fetchOne api typeNameMap m id).
Proof.
  intros HP Hm. unfold fetchOne.
  destruct (PokeAPI.getPokemon api id) as [apiPokemon|]; [|done].
  destruct (PokeAPI.getSpecies api id) as [apiSpecies|]; [|done].
  assert (P (<[ID (buildPokemon typeNameMap apiPokemon apiSpecies) :=
                buildPokemon typeNameMap apiPokemon apiSpecies]> m)) as H0
    by (apply HP; [done|by left]).
  revert H0. generalize (<[ID (buildPokemon typeNameMap apiPokemon apiSpecies) :=
                buildPokemon typeNameMap apiPokemon apiSpecies]> m).
  induction (PokeAPI.Varieties apiSpecies) as [|v l IH]; intros m0 Hm0; [done|].
  simpl. apply IH. unfold addVariety.
  destruct (PokeAPI.IsDefault v); [done|].
  destruct (varietyCategory (PokeAPI.PokemonName v)) as [c|] eqn:Hc; [|done].
  apply fetchAndAddVariety_kept; eauto using varietyCategory_builder.
Qed.

Lemma fetchAllPokemonData_kept P api typeNameMap typeNameMap' (m m' : Dataset) :
  keptByBuilder P → P m →
  fetchAllPokemonData api typeNameMap m = Some (typeNameMap', m') → P m'.
Proof.
  intros HP Hm. unfold fetchAllPokemonData.
  generalize (seqZ 1 MAX_POKEMON_ID). intros ids.
  destruct (loadTypeNames api typeNameMap) as [t|]; [|done].
  intros [= <- <-]. revert m Hm.
  induction ids as [|i ids IH]; intros m Hm; [done|].
  simpl. apply IH. by apply fetchOne_kept.
Qed.

(** X24: what the builder leaves behind.  Started on a dataset keyed by id
    whose records carry the empty category or one of the three special
    ones, [fetchAllPokemonData] returns a dataset that is again keyed by id,
    in which every record carries the empty category or a special one (no
    region is assigned by the builder), and in which every id that was
    present is still present.  It returns an error exactly when the type
    names cannot be loaded. *)
Theorem builder_records
    (api : PokeAPI.Provider) (typeNameMap : gmap string string) (m : Dataset) :
  keyedByID m →
  (∀ k p, m !! k = Some p → builderCategory (Category p)) →
  (fetchAllPokemonData api typeNameMap m = None ↔ loadTypeNames api typeNameMap = None) ∧
  (∀ typeNameMap' m',
     fetchAllPokemonData api typeNameMap m = Some (typeNameMap', m') →
     loadTypeNames api typeNameMap = Some typeNameMap' ∧
     keyedByID m' ∧
     (∀ k p, m' !! k = Some p → builderCategory (Category p)) ∧
     (∀ k, is_Some (m !! k) → is_Some (m' !! k))).
Proof.
  intros Hkey Hcat. split.
  - unfold fetchAllPokemonData. by destruct (loadTypeNames api typeNameMap).
  - intros t' m' Hfetch. split; [|split; [|split]].
    + unfold fetchAllPokemonData in Hfetch.
      destruct (loadTypeNames api typeNameMap); [|done].
      revert Hfetch. generalize (seqZ 1 MAX_POKEMON_ID). intros ids [= <- _]. done.
    + eapply (fetchAllPokemonData_kept keyedByID); [|exact Hkey|exact Hfetch].
      intros m0 p Hm0 _. by apply keyedByID_insert.
    + eapply (fetchAllPokemonData_kept
                (λ m0, ∀ k p, m0 !! k = Some p → builderCategory (Category p)));
        [|exact Hcat|exact Hfetch].
      intros m0 p Hm0 Hp k q [[_ <-]|[_ Hq]]%lookup_insert_Some; [done|].
      by eapply Hm0.
    + eapply (fetchAllPokemonData_kept (λ m0, ∀ k, is_Some (m !! k) → is_Some (m0 !! k)));
        [|done|exact Hfetch].
      intros m0 p Hm0 _ k Hk. destruct (decide (ID p = k)) as [->|Hne].
      * rewrite lookup_insert_eq. eauto.
      * rewrite lookup_insert_ne by done. by apply Hm0.
Qed.

Lemma builder_records_witness :
  keyedByID (∅ : Dataset) ∧
  (∀ k p, (∅ : Dataset) !! k = Some p → builderCategory (Category p)) ∧
  fetchAllPokemonData sampleAPI ∅ ∅ = Some ({[ "fire" := "ほのお" ]}, builtDataset) ∧
  keyedByID builtDataset ∧
  (∀ k p, builtDataset !! k = Some p → builderCategory (Category p)).
Proof.
  assert (keyedByID (∅ : Dataset)) as H1 by (intros k p Hk; by rewrite lookup_empty in Hk).
  assert (∀ k p, (∅ : Dataset) !! k = Some p → builderCategory (Category p)) as H2
    by (intros k p Hk; by rewrite lookup_empty in Hk).
  assert (fetchAllPokemonData sampleAPI ∅ ∅ = Some ({[ "fire" := "ほのお" ]}, builtDataset))
    as H3 by (vm_compute; reflexivity).
  destruct (builder_records sampleAPI ∅ ∅ H1 H2) as (_ & Hbuilt).
  destruct (Hbuilt _ _ H3) as (_ & Hkeyed & Hcats & _).
  split; [exact H1|]. split; [exact H2|]. split; [exact H3|].
  split; [exact Hkeyed|exact Hcats].
Defined.

(** * Further properties of the classifier *)

Lemma withCategory_twice p c c' : withCategory (withCategory p c) c' = withCategory p c'.
Proof. done. Qed.

Lemma assignRegion_lookup region (m : Dataset) species k :
  assignRegion region m species !! k =
  match m !! k with
  | Some q =>
      if decide (speciesID (PokeAPI.URL species) = Some k ∧ Category q = "")
      then Some (withCategory q region) else Some q
  | None => None
  end.
Proof.
  unfold assignRegion.
  destruct (speciesID (PokeAPI.URL species)) as [id|] eqn:Hid.
  - destruct (decide (id = k)) as [->|Hne].
    + destruct (m !! k) as [q|] eqn:Hq; [|done]. case_decide as He.
      * rewrite lookup_insert_eq. by rewrite decide_True.
      * rewrite Hq. rewrite decide_False; [done|]. intros [_ ?]. done.
    + assert (match m !! id with
              | Some p => if decide (Category p = "")
                          then <[id := withCategory p region]> m else m
              | None => m
              end !! k = m !! k) as ->.
      { destruct (m !! id) as [p|]; [|done]. case_decide; [|done].
        by rewrite lookup_insert_ne. }
      destruct (m !! k) as [q|]; [|done].
      rewrite decide_False; [done|]. intros [[= ?] _]. done.
  - destruct (m !! k) as [q|]; [|done].
    rewrite decide_False; [done|]. intros [? _]. done.
Qed.

(** One region of pass 2 on one record: left alone, or, when its category is
    empty and the member list names its id, given the region. *)
Lemma assignRegions_lookup region (l : list PokeAPI.SpeciesRef) (m : Dataset) k :
  match m !! k with
  | None => foldl (assignRegion region) m l !! k = None
  | Some q =>
      (foldl (assignRegion region) m l !! k = Some q ∧
       ¬ (Category q = "" ∧ ∃ species, species ∈ l ∧
                                     speciesID (PokeAPI.URL species) = Some k)) ∨
      (foldl (assignRegion region) m l !! k = Some (withCategory q region) ∧
       Category q = "" ∧
       ∃ species, species ∈ l ∧ speciesID (PokeAPI.URL species) = Some k)
  end.
Proof.
  revert m. induction l as [|sp l IH]; intros m.
  - simpl. destruct (m !! k) as [q|]; [|done]. left. split; [done|].
    intros [_ (species & Hin & _)]. by apply elem_of_nil in Hin.
  - simpl. specialize (IH (assignRegion region m sp)).
    rewrite assignRegion_lookup in IH. destruct (m !! k) as [q|]; [|done].
    case_decide as Hsp.
    + destruct Hsp as [Hsp He]. right. split; [|split; [done|]].
      * destruct IH as [[-> _]|[-> _]]; done.
      * exists sp. split; [left|done].
    + destruct IH as [[-> Hno]|(-> & He & species & Hin & Hid)].
      * left. split; [done|]. intros [He (species & [->|Hin]%elem_of_cons & Hid)].
        -- by apply Hsp.
        -- apply Hno. eauto.
      * right. split; [done|]. split; [done|]. exists species. split; [by right|done].
Qed.

Lemma generationPass_lookup api regions (m : Dataset) k :
  match m !! k with
  | None => generationPass api regions m !! k = None
  | Some q =>
      (∃ c, generationPass api regions m !! k = Some (withCategory q c) ∧
            (c = Category q ∨ (Category q = "" ∧ listedIn api regions k c))) ∧
      (Category q = "" → (∀ e, e ∈ regions → e.1 ≠ "") →
       (∃ r, listedIn api regions k r) →
       ∃ c, c ≠ "" ∧ generationPass api regions m !! k = Some (withCategory q c))
  end.
Proof.
  unfold generationPass. revert m. induction regions as [|[region genID] regions IH]; intros m.
  - simpl. destruct (m !! k) as [q|]; [|done]. split.
    + exists (Category q). rewrite withCategory_same. auto.
    + intros _ _ (r & g & resp & sp & Hin & _). by apply elem_of_nil in Hin.
  - simpl. specialize (IH (classifyGeneration api m (region, genID))).
    assert (∀ r, listedIn api regions k r → listedIn api ((region, genID) :: regions) k r)
      as Hweaken.
    { intros r (g & resp & sp & Hin & Hrest). exists g, resp, sp. split; [by right|done]. }
    assert (match m !! k with
            | None => classifyGeneration api m (region, genID) !! k = None
            | Some q =>
                (classifyGeneration api m (region, genID) !! k = Some q ∧
                 ¬ (Category q = "" ∧ listedIn api [(region, genID)] k region)) ∨
                (classifyGeneration api m (region, genID) !! k
                 = Some (withCategory q region) ∧
                 Category q = "" ∧ listedIn api [(region, genID)] k region)
            end) as Hstep.
    { unfold classifyGeneration. destruct (genID <=? 0) eqn:Hg.
      - destruct (m !! k) as [q|] eqn:Hq; [|done]. left. split; [done|].
        intros [_ (g & resp & sp & Hin & Hpos & _)].
        apply list_elem_of_singleton in Hin as [= <-]. apply Z.leb_le in Hg. lia.
      - destruct (PokeAPI.getGeneration api genID) as [apiGeneration|] eqn:Hget.
        + pose proof (assignRegions_lookup region
                        (PokeAPI.PokemonSpecies apiGeneration) m k) as Hl.
          destruct (m !! k) as [q|]; [|done].
          destruct Hl as [[-> Hno]|(-> & He & sp & Hin & Hid)].
          * left. split; [done|]. intros [He (g & resp & sp & Hin & Hpos & Hget' & Hsp & Hid)].
            apply list_elem_of_singleton in Hin as [= <-]. apply Hno. split; [done|].
            exists sp. split; [congruence|done].
          * right. split; [done|]. split; [done|].
            exists genID, apiGeneration, sp. split; [left|].
            apply Z.leb_gt in Hg. repeat split; done.
        + destruct (m !! k) as [q|] eqn:Hq; [|done]. left. split; [done|].
          intros [_ (g & resp & sp & Hin & Hpos & Hget' & _)].
          apply list_elem_of_singleton in Hin as [= <-]. congruence. }
    destruct (m !! k) as [q|]; [|by rewrite Hstep in IH].
    assert (listedIn api [(region, genID)] k region →
            listedIn api ((region, genID) :: regions) k region) as Hhead.
    { intros (g & resp & sp & Hin & Hrest). apply list_elem_of_singleton in Hin as [= ->].
      exists genID, resp, sp. split; [left|done]. }
    destruct Hstep as [[Hq Hno]|(Hq & He & Hlisted)]; rewrite Hq in IH;
      destruct IH as [(c & Hres & Hc) Hcomplete].
    + split.
      * exists c. split; [done|]. destruct Hc as [->|[He Hl]]; [by left|].
        right. split; [done|]. by apply Hweaken.
      * intros He Hnames (r & g & resp & sp & [[= -> ->]|Hin]%elem_of_cons & Hrest).
        -- exfalso. apply Hno. split; [done|]. exists genID, resp, sp.
           split; [left|done].
        -- apply Hcomplete; [done| |].
           ++ intros e He'. apply Hnames. by right.
           ++ exists r, g, resp, sp. done.
    + rewrite withCategory_twice in Hres. split.
      * exists c. split; [done|]. right. split; [done|].
        destruct Hc as [->|[He' Hl]]; [by apply Hhead|by apply Hweaken].
      * intros _ Hnames _. exists c. split; [|done].
        destruct Hc as [->|[He' Hl]].
        -- simpl. apply (Hnames (region, genID)). left.
        -- simpl in He'. exfalso. apply (Hnames (region, genID)); [left|done].
Qed.

(** X25: what classification does to one record.  Ids are neither added
    nor removed and only the category of a record changes.  The category a
    record ends with is the one it had, or the special category of its
    source name, or, for a record that had none and whose source name
    matches no pattern, a region under which the provider lists its id.
    Conversely such a record that the provider lists under some region of
    the table, all of whose names are non-empty, ends with a non-empty
    category. *)
Theorem classification_of_a_record
    (api : PokeAPI.Provider) (regions : list (string * Z)) (m : Dataset) (k : Z) :
  (m !! k = None → fetchCategoryData api regions m !! k = None) ∧
  (∀ p, m !! k = Some p →
     ∃ c, fetchCategoryData api regions m !! k = Some (withCategory p c) ∧
          (c = Category p ∨ nameCategory (EnglishName p) = Some c ∨
           (Category p = "" ∧ nameCategory (EnglishName p) = None ∧
            listedIn api regions k c))) ∧
  (∀ p, m !! k = Some p → Category p = "" →
     nameCategory (EnglishName p) = None →
     (∀ e, e ∈ regions → e.1 ≠ "") →
     (∃ r, listedIn api regions k r) →
     ∃ c, c ≠ "" ∧ fetchCategoryData api regions m !! k = Some (withCategory p c)).
Proof.
  unfold fetchCategoryData.
  pose proof (generationPass_lookup api regions (classifyByName <$> m) k) as Hpass.
  rewrite lookup_fmap in Hpass. split; [|split].
  - intros Hk. by rewrite Hk in Hpass.
  - intros p Hk. rewrite Hk in Hpass. simpl in Hpass.
    destruct Hpass as [(c & Hres & Hc) _].
    rewrite classifyByName_nameCategory in Hres, Hc.
    destruct (nameCategory (EnglishName p)) as [c0|] eqn:Hname.
    + rewrite withCategory_twice in Hres. exists c. split; [done|].
      simpl in Hc. destruct Hc as [->|[-> _]]; [auto|].
      apply nameCategory_special in Hname as [?|[?|?]]; done.
    + exists c. split; [done|]. destruct Hc as [->|[He Hl]]; auto.
  - intros p Hk He Hname Hnames Hlisted. rewrite Hk in Hpass. simpl in Hpass.
    destruct Hpass as [_ Hcomplete].
    rewrite classifyByName_nameCategory, Hname in Hcomplete.
    by apply Hcomplete.
Qed.

Lemma classification_of_a_record_witness :
  builtDataset !! 6
  = Some (buildPokemon {[ "fire" := "ほのお" ]} (charizardForm 6 "charizard" 78)
            charizardSpecies) ∧
  (∃ r, listedIn sampleAPI (map_to_list regionGenerationMap) 6 r) ∧
  (∀ e, e ∈ map_to_list regionGenerationMap → e.1 ≠ "") ∧
  ∃ c, c ≠ "" ∧
       fetchCategoryData sampleAPI (map_to_list regionGenerationMap) builtDataset !! 6
       = Some (withCategory
                 (buildPokemon {[ "fire" := "ほのお" ]} (charizardForm 6 "charizard" 78)
                    charizardSpecies) c).
Proof.
  assert (builtDataset !! 6
          = Some (buildPokemon {[ "fire" := "ほのお" ]} (charizardForm 6 "charizard" 78)
                    charizardSpecies)) as H1 by (vm_compute; reflexivity).
  assert (∃ r, listedIn sampleAPI (map_to_list regionGenerationMap) 6 r) as H2.
  { exists "kanto", 1.
    exists {| PokeAPI.PokemonSpecies :=
                [ {| PokeAPI.SpeciesName := "charizard";
                     PokeAPI.URL := charizardSpeciesURL |};
                  {| PokeAPI.SpeciesName := "charizard-mega-x";
                     PokeAPI.URL :=
                       "https://pokeapi.co/api/v2/pokemon-species/20034/" |} ] |}.
    exists {| PokeAPI.SpeciesName := "charizard"; PokeAPI.URL := charizardSpeciesURL |}.
    split; [apply elem_of_map_to_list; vm_compute; reflexivity|].
    split; [lia|]. split; [reflexivity|]. split; [left|reflexivity]. }
  assert (∀ e, e ∈ map_to_list regionGenerationMap → e.1 ≠ "") as H3.
  { intros [r g] He. apply elem_of_map_to_list in He. intros Hr. simpl in Hr. subst r.
    vm_compute in He. discriminate He. }
  destruct (classification_of_a_record sampleAPI (map_to_list regionGenerationMap)
              builtDataset 6) as (_ & _ & Hcomplete).
  split; [exact H1|]. split; [exact H2|]. split; [exact H3|].
  exact (Hcomplete _ H1 eq_refl eq_refl H3 H2).
Defined.

(** * Further properties of the dataset cache *)

(** The three ways startup can succeed. *)
Lemma startup_ready api rangeMap rangeRegions fs typeNameMap byID idx :
  outcome (loadOrFetchPokemonData api rangeMap rangeRegions fs typeNameMap)
  = Ready byID idx →
  idx = organize rangeMap byID ∧
  (cache fs = Holds (Decodes byID) ∧
   events (loadOrFetchPokemonData api rangeMap rangeRegions fs typeNameMap) = [] ∨
   (∃ m p typeNameMap',
      cache fs = Holds (Decodes m) ∧ m !! 1 = Some p ∧ lacksRequiredField p ∧
      fetchAllPokemonData api typeNameMap ∅ = Some (typeNameMap', byID)) ∨
   (∃ typeNameMap' m,
      cache fs = NoFile ∧ writeSucceeds fs = true ∧
      fetchAllPokemonData api typeNameMap ∅ = Some (typeNameMap', m) ∧
      byID = fetchCategoryData api rangeRegions m)).
Proof.
  unfold loadOrFetchPokemonData.
  destruct (cache fs) as [| | |[m|]] eqn:Hcache; simpl; try done.
  - destruct (fetchAllPokemonData api typeNameMap ∅) as [[t m]|] eqn:Hfetch;
      simpl; [|done].
    destruct (writeSucceeds fs) eqn:Hw; [|done].
    intros [= <- <-]. split; [done|]. right. right. by exists t, m.
  - destruct (m !! 1) as [p|] eqn:Hsample.
    + destruct (incomplete p) eqn:Hp.
      * destruct (fetchAllPokemonData api typeNameMap ∅) as [[t m']|] eqn:Hfetch;
          simpl; [|done].
        intros [= <- <-]. split; [done|]. right. left. exists m, p, t.
        by apply incomplete_spec in Hp.
      * simpl. intros [= <- <-]. auto.
    + simpl. intros [= <- <-]. auto.
Qed.

(** X26: when startup contacts the provider.  It does so exactly when there
    is no cache file, or the cache decodes and its record of id 1 lacks
    types, height or weight; otherwise (a complete or absent sample, but
    also an unreadable or undecodable file) nothing is fetched and the file
    is left as it was.  The classifier runs only when there was no file,
    and a file that differs afterwards was written by the loader. *)
Theorem provider_contacted_only_when_needed
    (api : PokeAPI.Provider) (rangeMap : Dataset → list (Z * Pokemon))
    (rangeRegions : list (string * Z)) (fs : FileSystem)
    (typeNameMap : gmap string string) :
  (events (loadOrFetchPokemonData api rangeMap rangeRegions fs typeNameMap) ≠ [] ↔
   cache fs = NoFile ∨
   ∃ m p, cache fs = Holds (Decodes m) ∧ m !! 1 = Some p ∧ lacksRequiredField p) ∧
  (events (loadOrFetchPokemonData api rangeMap rangeRegions fs typeNameMap) = [] →
   cacheAfter (loadOrFetchPokemonData api rangeMap rangeRegions fs typeNameMap)
   = cache fs) ∧
  (∀ m, FetchCategory m
        ∈ events (loadOrFetchPokemonData api rangeMap rangeRegions fs typeNameMap) →
        cache fs = NoFile) ∧
  (cacheAfter (loadOrFetchPokemonData api rangeMap rangeRegions fs typeNameMap)
   ≠ cache fs →
   ∃ data, WriteFile data
           ∈ events (loadOrFetchPokemonData api rangeMap rangeRegions fs typeNameMap)).
Proof.
  unfold loadOrFetchPokemonData.
  assert (∀ m, FetchCategory m ∉ ([] : list Event)) as Hnil
    by (intros m0 Hin; by apply elem_of_nil in Hin).
  destruct (cache fs) as [| | |[m|]] eqn:Hcache.
  - destruct (fetchAllPokemonData api typeNameMap ∅) as [[t m]|]; simpl.
    + split; [split; [auto|done]|]. split; [done|]. split; [done|].
      intros _. eexists. right. right. left.
    + split; [split; [auto|done]|]. split; [done|]. split; [done|]. done.
  - simpl. split; [|split; [done|split; [intros m0 Hin; by apply Hnil in Hin|done]]].
    split; [done|]. intros [?|(m & p & ? & _)]; done.
  - simpl. split; [|split; [done|split; [intros m0 Hin; by apply Hnil in Hin|done]]].
    split; [done|]. intros [?|(m & p & ? & _)]; done.
  - destruct (m !! 1) as [p|] eqn:Hsample.
    + destruct (incomplete p) eqn:Hp.
      * assert (lacksRequiredField p) as Hlacks by (by apply incomplete_spec).
        destruct (fetchAllPokemonData api typeNameMap ∅) as [[t m']|]; simpl.
        -- split; [split; [intros _; right; by exists m, p|done]|].
           split; [done|]. split.
           ++ intros m0 Hin. apply elem_of_cons in Hin as [Hin|Hin]; [done|].
              apply elem_of_cons in Hin as [Hin|Hin]; [done|]. by apply Hnil in Hin.
           ++ intros _. eexists. right. left.
        -- split; [split; [intros _; right; by exists m, p|done]|].
           split; [done|]. split; [|done].
           intros m0 Hin. apply elem_of_cons in Hin as [Hin|Hin]; [done|].
           by apply Hnil in Hin.
      * simpl.
        split; [|split; [done|split; [intros m0 Hin; by apply Hnil in Hin|done]]].
        split; [done|]. intros [?|(m0 & p0 & Hm0 & Hs & Hl)]; [done|].
        injection Hm0 as <-. rewrite Hsample in Hs. injection Hs as <-.
        apply incomplete_spec in Hl. congruence.
    + simpl.
      split; [|split; [done|split; [intros m0 Hin; by apply Hnil in Hin|done]]].
      split; [done|]. intros [?|(m0 & p0 & Hm0 & Hs & _)]; [done|].
      injection Hm0 as <-. congruence.
  - simpl. split; [|split; [done|split; [intros m0 Hin; by apply Hnil in Hin|done]]].
    split; [done|]. intros [?|(m0 & p0 & ? & _)]; done.
Qed.

(** X27: a dataset refetched over an incomplete cache serves no region.  On
    that path the classifier is not run, so the index built from the
    refetched dataset has pools only under all, mega, gmax and regional;
    a normal-mode question for any other category (kanto, the default,
    included) is refused with status BadRequest. *)
Theorem refetched_dataset_serves_no_region
    (api : PokeAPI.Provider) (rangeMap : Dataset → list (Z * Pokemon))
    (rangeRegions : list (string * Z)) (fs : FileSystem)
    (typeNameMap : gmap string string) (m byID : Dataset) (p : Pokemon)
    (idx : CategoryIndex) (db : StatTable) (req : QuizRequest) (r : Entropy) :
  rangeMap byID ≡ₚ map_to_list byID →
  cache fs = Holds (Decodes m) →
  m !! 1 = Some p →
  lacksRequiredField p →
  outcome (loadOrFetchPokemonData api rangeMap rangeRegions fs typeNameMap)
  = Ready byID idx →
  normalMode req →
  requestedRegion req ∉ ["all"; "mega"; "gmax"; "regional"] →
  handleGetQuiz rangeMap byID idx db req r
  = (db, Reject StatusBadRequest "Invalid or empty region specified", r).
Proof.
  intros Hperm Hcache Hsample Hlacks Hready Hmode Hregion.
  apply startup_ready in Hready as [-> Hpath].
  assert (∀ k q, byID !! k = Some q → builderCategory (Category q)) as Hcats.
  { destruct Hpath as [[Hc Hev]|[(m0 & p0 & t & _ & _ & _ & Hfetch)|(t & m0 & Hc & _)]].
    - exfalso. rewrite Hcache in Hc. injection Hc as <-.
      revert Hev. unfold loadOrFetchPokemonData.
      apply incomplete_spec in Hlacks. rewrite Hcache, Hsample, Hlacks.
      by destruct (fetchAllPokemonData api typeNameMap ∅) as [[? ?]|].
    - eapply (fetchAllPokemonData_kept
                (λ m0, ∀ k q, m0 !! k = Some q → builderCategory (Category q)));
        [| |exact Hfetch].
      + intros m1 q Hm1 Hq k q' [[_ <-]|[_ Hq']]%lookup_insert_Some; [done|].
        by eapply Hm1.
      + intros k q Hk. by rewrite lookup_empty in Hk.
    - congruence. }
  unfold handleGetQuiz. rewrite normalMode_retry by done.
  fold (requestedRegion req).
  assert (organize rangeMap byID !! requestedRegion req = None) as ->; [|done].
  unfold organize. rewrite organize_lookup.
  destruct (poolOf (requestedRegion req) (rangeMap byID).*2) as [|q pool] eqn:Hpool;
    [done|].
  exfalso. assert (q ∈ poolOf (requestedRegion req) (rangeMap byID).*2) as Hq
    by (rewrite Hpool; left).
  apply elem_of_poolOf in Hq as [Hin Hc].
  apply list_elem_of_fmap in Hin as ([k q'] & -> & Hin). simpl in Hc.
  rewrite Hperm in Hin. apply elem_of_map_to_list in Hin.
  apply Hregion. destruct Hc as [[Hne Heq]|Hall].
  - rewrite <- Heq. destruct (Hcats k q' Hin) as [?|[Hc|[Hc|Hc]]]; [done|rewrite Hc..].
    + right. left.
    + right. right. left.
    + right. right. right. left.
  - rewrite Hall. left.
Qed.

Lemma refetched_dataset_serves_no_region_witness :
  map_to_list builtDataset ≡ₚ map_to_list builtDataset ∧
  cache (cachedStart weightlessCache) = Holds (Decodes weightlessCache) ∧
  lacksRequiredField (default (hollowRecord 0) (weightlessCache !! 1)) ∧
  outcome (loadOrFetchPokemonData sampleAPI map_to_list (map_to_list regionGenerationMap)
             (cachedStart weightlessCache) ∅)
  = Ready builtDataset (organize map_to_list builtDataset) ∧
  normalMode (normalRequest "kanto") ∧
  handleGetQuiz map_to_list builtDataset (organize map_to_list builtDataset) ∅
    (normalRequest "kanto") [0%nat]
  = (∅, Reject StatusBadRequest "Invalid or empty region specified", [0%nat]).
Proof.
  assert (cache (cachedStart weightlessCache) = Holds (Decodes weightlessCache)) as H1
    by reflexivity.
  assert (weightlessCache !! 1 = Some (default (hollowRecord 0) (weightlessCache !! 1)))
    as H2 by (vm_compute; reflexivity).
  assert (lacksRequiredField (default (hollowRecord 0) (weightlessCache !! 1))) as H3
    by (right; right; vm_compute; reflexivity).
  assert (outcome (loadOrFetchPokemonData sampleAPI map_to_list
                     (map_to_list regionGenerationMap) (cachedStart weightlessCache) ∅)
          = Ready builtDataset (organize map_to_list builtDataset)) as H4
    by (vm_compute; reflexivity).
  assert (normalMode (normalRequest "kanto")) as H5 by done.
  assert (requestedRegion (normalRequest "kanto") ∉ ["all"; "mega"; "gmax"; "regional"])
    as H6 by decide_by_computation.
  split; [reflexivity|]. split; [exact H1|]. split; [exact H3|]. split; [exact H4|].
  split; [exact H5|].
  exact (refetched_dataset_serves_no_region sampleAPI map_to_list
           (map_to_list regionGenerationMap) (cachedStart weightlessCache) ∅
           weightlessCache builtDataset _ _ ∅ (normalRequest "kanto") [0%nat]
           (reflexivity _) H1 H2 H3 H4 H5 H6).
Defined.

Lemma poolOf_all (ps : list Pokemon) :
  Forall (λ p, Category p ≠ "all") ps → poolOf "all" ps = ps.
Proof.
  unfold poolOf. induction 1 as [|p ps Hp _ IH]; [done|].
  rewrite bind_cons, IH. unfold contribution.
  rewrite (decide_False (P := _ ∧ _)) by (intros [_ ?]; done).
  by rewrite (decide_True (P := "all" = "all")).
Qed.

Lemma organize_pool_all (rangeMap : Dataset → list (Z * Pokemon)) m pool :
  rangeMap m ≡ₚ map_to_list m → keyedByID m →
  (∀ k p, m !! k = Some p → Category p ≠ "all") →
  organize rangeMap m !! "all" = Some pool →
  NoDup (ID <$> pool) ∧ ∀ p, p ∈ pool ↔ m !! ID p = Some p.
Proof.
  intros Hperm Hkey Hcats Hpool. unfold organize in Hpool.
  rewrite organize_lookup, poolOf_all in Hpool.
  - assert (pool = (rangeMap m).*2) as -> by (destruct ((rangeMap m).*2); congruence).
    clear Hpool.
    assert (ID <$> (rangeMap m).*2 = (rangeMap m).*1) as Hids.
    { rewrite <- list_fmap_compose. apply list_fmap_ext.
      intros i [k p] Hkp%list_elem_of_lookup_2. rewrite Hperm in Hkp.
      apply elem_of_map_to_list in Hkp. simpl. by apply Hkey. }
    split.
    + rewrite Hids, Hperm. apply NoDup_fst_map_to_list.
    + intros p. rewrite list_elem_of_fmap. split.
      * intros ([k p'] & -> & Hin). rewrite Hperm in Hin.
        apply elem_of_map_to_list in Hin. simpl.
        by rewrite (Hkey _ _ Hin).
      * intros Hp. exists (ID p, p). split; [done|]. rewrite Hperm.
        by apply elem_of_map_to_list.
  - apply Forall_forall. intros p ([k p'] & -> & Hin)%list_elem_of_fmap.
    rewrite Hperm in Hin. apply elem_of_map_to_list in Hin. simpl. by eapply Hcats.
Qed.

Lemma builderCategory_not_all c : builderCategory c → c ≠ "all".
Proof. by intros [->|[->|[->| ->]]]. Qed.

(** What a successful startup leaves in memory, given what the cache file
    may hold and how the regions are named. *)
Lemma startup_dataset api rangeMap rangeRegions fs typeNameMap byID idx :
  (∀ m, cache fs = Holds (Decodes m) →
        keyedByID m ∧ ∀ k p, m !! k = Some p → Category p ≠ "all") →
  (∀ e, e ∈ rangeRegions → e.1 ≠ "all") →
  outcome (loadOrFetchPokemonData api rangeMap rangeRegions fs typeNameMap)
  = Ready byID idx →
  keyedByID byID ∧ ∀ k p, byID !! k = Some p → Category p ≠ "all".
Proof.
  intros Hcache Hregions Hready.
  assert (keyedByID (∅ : Dataset)) as Hempty
    by (intros k p Hk; by rewrite lookup_empty in Hk).
  assert (∀ t m, fetchAllPokemonData api typeNameMap ∅ = Some (t, m) →
            ∀ k p, m !! k = Some p → builderCategory (Category p)) as Hbuilt.
  { intros t m Hfetch.
    eapply (fetchAllPokemonData_kept
              (λ m0, ∀ k q, m0 !! k = Some q → builderCategory (Category q)));
      [| |exact Hfetch].
    - intros m1 q Hm1 Hq k q' [[_ <-]|[_ Hq']]%lookup_insert_Some; [done|].
      by eapply Hm1.
    - intros k q Hk. by rewrite lookup_empty in Hk. }
  apply startup_ready in Hready
    as [_ [[Hc _]|[(m & p & t & _ & _ & _ & Hfetch)|(t & m & _ & _ & Hfetch & ->)]]].
  - by apply Hcache.
  - split; [by eapply fetchAllPokemonData_keyed|].
    intros k q Hk. eapply builderCategory_not_all, Hbuilt; done.
  - split; [eapply fetchCategoryData_keyed, fetchAllPokemonData_keyed; done|].
    intros k q Hk. unfold fetchCategoryData in Hk.
    pose proof (generationPass_lookup api rangeRegions (classifyByName <$> m) k) as Hpass.
    rewrite lookup_fmap in Hpass.
    destruct (m !! k) as [q0|] eqn:Hq0; simpl in Hpass; [|congruence].
    destruct Hpass as [(c & Hres & Hc) _]. rewrite Hres in Hk. injection Hk as <-.
    simpl. destruct Hc as [->|[_ (g & resp & sp & Hin & _)]].
    + rewrite classifyByName_nameCategory.
      destruct (nameCategory (EnglishName q0)) as [c0|] eqn:Hname.
      * simpl. apply nameCategory_special in Hname as [->|[->| ->]]; done.
      * eapply builderCategory_not_all, Hbuilt; done.
    + apply (Hregions _ Hin).
Qed.

(** X28: the pools a successful startup serves.  When the cache file, if it
    decodes, holds each record under its own id, and neither a cached record
    nor a region of the table carries the name all, every pool of the index
    the loader builds is non-empty, holds no id twice, and holds exactly the
    records of the dataset in memory that carry its category (all of them,
    for the pool all). *)
Theorem startup_pools_have_distinct_ids
    (api : PokeAPI.Provider) (rangeMap : Dataset → list (Z * Pokemon))
    (rangeRegions : list (string * Z)) (fs : FileSystem)
    (typeNameMap : gmap string string) (byID : Dataset) (idx : CategoryIndex)
    (c : string) (pool : list Pokemon) :
  rangeMap byID ≡ₚ map_to_list byID →
  (∀ m, cache fs = Holds (Decodes m) →
        keyedByID m ∧ ∀ k p, m !! k = Some p → Category p ≠ "all") →
  (∀ e, e ∈ rangeRegions → e.1 ≠ "all") →
  outcome (loadOrFetchPokemonData api rangeMap rangeRegions fs typeNameMap)
  = Ready byID idx →
  idx !! c = Some pool →
  pool ≠ [] ∧ NoDup (ID <$> pool) ∧
  ∀ p, p ∈ pool ↔ byID !! ID p = Some p ∧ (c = "all" ∨ Category p = c).
Proof.
  intros Hperm Hcache Hregions Hready Hpool.
  destruct (startup_dataset _ _ _ _ _ _ _ Hcache Hregions Hready) as [Hkey Hcats].
  apply startup_ready in Hready as [-> _].
  assert (pool ≠ []) as Hne.
  { unfold organize in Hpool. rewrite organize_lookup in Hpool.
    destruct (poolOf c (rangeMap byID).*2); [done|]. by injection Hpool as <-. }
  split; [done|]. destruct (decide (c = "all")) as [->|Hc].
  - destruct (organize_pool_all rangeMap byID pool Hperm Hkey Hcats Hpool) as [Hnd Hin].
    split; [done|]. intros p. rewrite Hin. split; [auto|]. by intros [? _].
  - destruct (organize_pool_ids rangeMap byID c pool Hperm Hkey Hc Hpool) as [Hnd Hin].
    split; [done|]. intros p. rewrite Hin.
    assert (c ≠ "") as Hc'.
    { destruct pool as [|q pool]; [done|].
      assert (q ∈ q :: pool) as Hq by left. apply Hin in Hq as (_ & _ & ?). done. }
    split.
    + intros (? & ? & _). auto.
    + intros [? [?|?]]; done.
Qed.

Lemma startup_pools_have_distinct_ids_witness :
  outcome firstStart = Ready sampleDataset sampleIndex ∧
  sampleIndex !! "mega" = Some megaPool ∧
  megaPool ≠ [] ∧ NoDup (ID <$> megaPool) ∧
  ∀ p, p ∈ megaPool ↔
       sampleDataset !! ID p = Some p ∧ ("mega" = "all" ∨ Category p = "mega").
Proof.
  assert (outcome firstStart = Ready sampleDataset sampleIndex) as H1
    by (vm_compute; reflexivity).
  assert (sampleIndex !! "mega" = Some megaPool) as H2 by (vm_compute; reflexivity).
  assert (∀ e, e ∈ map_to_list regionGenerationMap → e.1 ≠ "all") as H3.
  { intros [region g] He. apply elem_of_map_to_list in He. intros Hr. simpl in Hr.
    subst region. vm_compute in He. discriminate He. }
  split; [exact H1|]. split; [exact H2|].
  refine (startup_pools_have_distinct_ids sampleAPI map_to_list
            (map_to_list regionGenerationMap)
            {| cache := NoFile; writeSucceeds := true; afterFailedWrite := NoFile |}
            ∅ sampleDataset sampleIndex "mega" megaPool (reflexivity _) _ H3 H1 H2).
  intros m Hm. discriminate Hm.
Defined.

(** * Species URLs *)

Lemma substring_all (s : string) : String.substring 0 (String.length s) s = s.
Proof. induction s as [|c s IH]; [done|]. simpl. by rewrite IH. Qed.

Lemma substring_prefix (s t : string) :
  String.substring 0 (String.length s) (s +:+ t) = s.
Proof.
  induction s as [|c s IH]; simpl.
  - by destruct t.
  - by rewrite IH.
Qed.

Lemma substring_suffix (s t : string) :
  String.substring (String.length s) (String.length t) (s +:+ t) = t.
Proof.
  induction s as [|c s IH]; simpl; [|done]. apply substring_all.
Qed.

Lemma append_length (s t : string) :
  String.length (s +:+ t) = (String.length s + String.length t)%nat.
Proof. induction s as [|c s IH]; simpl; [done|]. by rewrite IH. Qed.

Lemma append_associative (s t u : string) : (s +:+ t) +:+ u = s +:+ t +:+ u.
Proof.
  induction s as [|c s IH]; [done|].
  change (String c ((s +:+ t) +:+ u) = String c (s +:+ t +:+ u)). by rewrite IH.
Qed.

Lemma TrimSuffix_appended (s : string) : Strings.TrimSuffix (s +:+ "/") "/" = s.
Proof.
  unfold Strings.TrimSuffix, Strings.HasSuffix. rewrite append_length.
  change (String.length "/") with 1%nat.
  replace (String.length s + 1 - 1)%nat with (String.length s) by lia.
  pose proof (substring_suffix s "/") as Hs.
  change (String.length "/") with 1%nat in Hs. rewrite Hs, substring_prefix.
  replace (1 <=? String.length s + 1)%nat with true by (symmetry; apply Nat.leb_le; lia).
  done.
Qed.

Lemma HasSuffix_slash_cons (c : Ascii.ascii) (s : string) :
  Strings.HasSuffix (String c s) "/" =
  match s with
  | EmptyString => Ascii.eqb c "/"%char
  | _ => Strings.HasSuffix s "/"
  end.
Proof.
  unfold Strings.HasSuffix. destruct s as [|d s].
  - simpl. by destruct (Ascii.eqb c "/").
  - simpl. by rewrite !Nat.sub_0_r.
Qed.

Lemma HasSuffix_slash_free (seg : string) :
  "/"%char ∉ String.list_ascii_of_string seg → Strings.HasSuffix seg "/" = false.
Proof.
  induction seg as [|c seg IH]; [done|]. intros Hfree.
  rewrite HasSuffix_slash_cons. simpl in Hfree. apply not_elem_of_cons in Hfree as [Hc Hfree].
  destruct seg as [|d seg]; [|by apply IH].
  apply Ascii.eqb_neq. done.
Qed.

Lemma TrimSuffix_unslashed (base seg : string) :
  seg ≠ "" → "/"%char ∉ String.list_ascii_of_string seg →
  Strings.TrimSuffix (base +:+ "/" +:+ seg) "/" = base +:+ "/" +:+ seg.
Proof.
  intros Hne Hfree. unfold Strings.TrimSuffix.
  assert (Strings.HasSuffix (base +:+ "/" +:+ seg) "/" = false) as ->; [|done].
  induction base as [|c base IH].
  - change ("" +:+ "/" +:+ seg) with (String "/" seg).
    rewrite HasSuffix_slash_cons. destruct seg as [|d seg]; [done|].
    by apply HasSuffix_slash_free.
  - change (String c base +:+ "/" +:+ seg) with (String c (base +:+ "/" +:+ seg)).
    rewrite HasSuffix_slash_cons.
    destruct (base +:+ "/" +:+ seg) eqn:Hs; [|done].
    by destruct base.
Qed.

Lemma Split_slash_free (seg : string) :
  "/"%char ∉ String.list_ascii_of_string seg → Strings.Split seg "/" = [seg].
Proof.
  induction seg as [|c seg IH]; [done|]. intros Hfree. simpl in Hfree.
  apply not_elem_of_cons in Hfree as [Hc Hfree]. simpl.
  rewrite (proj2 (Ascii.eqb_neq c "/")) by done. by rewrite IH.
Qed.

Lemma Split_last_segment (base seg : string) :
  "/"%char ∉ String.list_ascii_of_string seg →
  ∃ front, Strings.Split (base +:+ "/" +:+ seg) "/" = front ++ [seg] ∧ front ≠ [].
Proof.
  intros Hfree. induction base as [|c base (front & IH & Hne)].
  - exists [""]. split; [|done]. simpl. by rewrite Split_slash_free.
  - change (String c base +:+ "/" +:+ seg) with (String c (base +:+ "/" +:+ seg)).
    simpl. rewrite IH. destruct (Ascii.eqb c "/").
    + exists ("" :: front). done.
    + destruct front as [|h front]; [done|]. simpl. by exists (String c h :: front).
Qed.

(** X29: the id of a species URL is read off its last path segment.  For a
    segment without a slash, the URL that ends in a slash after the segment,
    and (for a non-empty segment) the URL that ends with the segment itself,
    both yield what [Atoi] makes of the segment, whatever precedes it. *)
Theorem speciesID_reads_last_segment (base seg : string) :
  "/"%char ∉ String.list_ascii_of_string seg →
  speciesID (base +:+ "/" +:+ seg +:+ "/") = Strings.Atoi seg ∧
  (seg ≠ "" → speciesID (base +:+ "/" +:+ seg) = Strings.Atoi seg).
Proof.
  intros Hfree. destruct (Split_last_segment base seg Hfree) as (front & Hsplit & _).
  unfold speciesID. split.
  - replace (base +:+ "/" +:+ seg +:+ "/") with ((base +:+ "/" +:+ seg) +:+ "/").
    + rewrite TrimSuffix_appended, Hsplit, last_snoc. done.
    + by rewrite !append_associative.
  - intros Hne. rewrite TrimSuffix_unslashed, Hsplit, last_snoc by done. done.
Qed.

Lemma speciesID_reads_last_segment_witness :
  ("/"%char ∉ String.list_ascii_of_string "6") ∧
  speciesID ("https://pokeapi.co/api/v2/pokemon-species" +:+ "/" +:+ "6" +:+ "/")
  = Strings.Atoi "6" ∧
  speciesID ("https://pokeapi.co/api/v2/pokemon-species" +:+ "/" +:+ "6")
  = Strings.Atoi "6".
Proof.
  assert ("/"%char ∉ String.list_ascii_of_string "6") as H1 by decide_by_computation.
  destruct (speciesID_reads_last_segment "https://pokeapi.co/api/v2/pokemon-species"
              "6" H1) as [Hslash Hbare].
  split; [exact H1|]. split; [exact Hslash|]. apply Hbare. discriminate.
Defined.

(** * Restarting from the cache *)

Lemma startup_ready_cache api rangeMap rangeRegions fs typeNameMap byID idx :
  outcome (loadOrFetchPokemonData api rangeMap rangeRegions fs typeNameMap)
  = Ready byID idx →
  writeSucceeds fs = true →
  cacheAfter (loadOrFetchPokemonData api rangeMap rangeRegions fs typeNameMap)
  = Holds (Decodes byID).
Proof.
  unfold loadOrFetchPokemonData, writeFile. intros Hready Hw. revert Hready.
  destruct (cache fs) as [| | |[m|]] eqn:Hcache; simpl; try done.
  - destruct (fetchAllPokemonData api typeNameMap ∅) as [[t m]|]; simpl; [|done].
    rewrite Hw. by intros [= <- _].
  - destruct (m !! 1) as [p|].
    + destruct (incomplete p).
      * destruct (fetchAllPokemonData api typeNameMap ∅) as [[t m']|]; simpl; [|done].
        rewrite Hw. by intros [= <- _].
      * simpl. by intros [= <- _].
    + simpl. by intros [= <- _].
Qed.

(** X30: restarting from the cache a startup left.  When a startup
    succeeded, its write (if any) succeeded, and the record of id 1 of the
    dataset it holds (if there is one) has types, height and weight, then a
    later startup that finds the cache file as the first left it, whatever
    order its own range over the dataset takes and whatever the provider
    would answer by then, fetches nothing, leaves the file alone and ends
    with the same dataset and with a category index that has the same keys
    and, under each key, a pool that is a permutation of the first one's. *)
Theorem restart_from_written_cache
    (api api' : PokeAPI.Provider) (rangeMap rangeMap' : Dataset → list (Z * Pokemon))
    (rangeRegions rangeRegions' : list (string * Z)) (fs fs' : FileSystem)
    (typeNameMap typeNameMap' : gmap string string)
    (byID : Dataset) (idx : CategoryIndex) :
  rangeMap byID ≡ₚ map_to_list byID →
  rangeMap' byID ≡ₚ map_to_list byID →
  outcome (loadOrFetchPokemonData api rangeMap rangeRegions fs typeNameMap)
  = Ready byID idx →
  writeSucceeds fs = true →
  cache fs'
  = cacheAfter (loadOrFetchPokemonData api rangeMap rangeRegions fs typeNameMap) →
  (∀ p, byID !! 1 = Some p → ¬ lacksRequiredField p) →
  ∃ idx',
    loadOrFetchPokemonData api' rangeMap' rangeRegions' fs' typeNameMap'
    = {| events := []; cacheAfter := cache fs'; outcome := Ready byID idx' |} ∧
    ∀ c, match idx !! c, idx' !! c with
         | Some pool, Some pool' => pool ≡ₚ pool'
         | None, None => True
         | _, _ => False
         end.
Proof.
  intros Hperm Hperm' Hready Hw Hcache Hsample.
  rewrite (startup_ready_cache _ _ _ _ _ _ _ Hready Hw) in Hcache.
  apply startup_ready in Hready as [-> _].
  exists (organize rangeMap' byID). split.
  - unfold loadOrFetchPokemonData. rewrite Hcache.
    destruct (byID !! 1) as [p|] eqn:Hp; [|done].
    destruct (incomplete p) eqn:Hinc; [|done].
    exfalso. apply (Hsample p eq_refl). by apply incomplete_spec.
  - intros c. unfold organize. rewrite !organize_lookup.
    assert (poolOf c (rangeMap byID).*2 ≡ₚ poolOf c (rangeMap' byID).*2) as Hpools.
    { unfold poolOf. by rewrite Hperm, Hperm'. }
    destruct (poolOf c (rangeMap byID).*2) as [|q pool];
      destruct (poolOf c (rangeMap' byID).*2) as [|q' pool']; try done.
    + by apply Permutation_nil_cons in Hpools.
    + symmetry in Hpools. by apply Permutation_nil_cons in Hpools.
Qed.

Lemma restart_from_written_cache_witness :
  outcome firstStart = Ready sampleDataset sampleIndex ∧
  cache (cachedStart sampleDataset) = cacheAfter firstStart ∧
  ∃ idx',
    loadOrFetchPokemonData sampleAPI (λ m, reverse (map_to_list m))
      (map_to_list regionGenerationMap) (cachedStart sampleDataset) ∅
    = {| events := []; cacheAfter := cache (cachedStart sampleDataset);
         outcome := Ready sampleDataset idx' |} ∧
    ∀ c, match sampleIndex !! c, idx' !! c with
         | Some pool, Some pool' => pool ≡ₚ pool'
         | None, None => True
         | _, _ => False
         end.
Proof.
  assert (outcome firstStart = Ready sampleDataset sampleIndex) as H1
    by (vm_compute; reflexivity).
  assert (cache (cachedStart sampleDataset) = cacheAfter firstStart) as H2
    by (vm_compute; reflexivity).
  assert (sampleDataset !! 1 = None) as Hnone by (vm_compute; reflexivity).
  assert (∀ p, sampleDataset !! 1 = Some p → ¬ lacksRequiredField p) as H3.
  { intros p Hp. rewrite Hnone in Hp. discriminate Hp. }
  split; [exact H1|]. split; [exact H2|].
  exact (restart_from_written_cache sampleAPI sampleAPI map_to_list
           (λ m, reverse (map_to_list m))
           (map_to_list regionGenerationMap) (map_to_list regionGenerationMap)
           {| cache := NoFile; writeSucceeds := true; afterFailedWrite := NoFile |}
           (cachedStart sampleDataset) ∅ ∅ sampleDataset sampleIndex
           (reflexivity _) (reverse_Permutation _) H1 eq_refl H2 H3).
Defined.

(** With the reversed enumeration the restart's mega pool is the first
    start-up's in the other order. *)
Example restart_reorders_pools :
  organize (λ m, reverse (map_to_list m)) sampleDataset !! "mega"
  = reverse <$> (sampleIndex !! "mega") ∧
  organize (λ m, reverse (map_to_list m)) sampleDataset !! "mega" ≠ sampleIndex !! "mega".
Proof.
  split; [vm_compute; reflexivity|].
  intros H. vm_compute in H. discriminate H.
Qed.
